(** * Configuration::Parser (Parser.h): a shallow embedding and its properties

    The development follows the header top to bottom: the string helpers
    ([TrimString], [ParseValue]), the [Section] tree with its parent pointers,
    the line-driven [ParseSection], [ExportSection], and the casting layer
    ([Tokenize], [CleanArrayString], [GetAs]).

    Modelling choices.
    - [std::string] is [string]; indices are [nat], and [size_t] arithmetic
      that can wrap ([length() - 2 * depth], [ep - sp + 1]) is carried out in
      [Z] and reduced modulo 2^64.  The [int] cursors of [TrimString] are kept
      in [Z]; lines are taken to be shorter than 2^31 characters.
    - Characters are [ascii]; [isspace] is the one of the "C" locale, and the
      table lookup of [Tokenize] is membership in the delimiters.
    - C++ exceptions, a failed [assert] and a null dereference are the
      [Throw] outcomes of a small error monad; [NDEBUG] is a parameter.
    - Sections live in a store addressed by [ptr]; [mParent] is an optional
      address, [mSections] maps a name to the address of the child node, and
      an iterator kept in [mOrderedValues] / [mOrderedSections] is the key of
      the map node it designates.  A fresh map node gets the next free
      address, so the root is at address 0.
    - [long] and [unsigned long] have [long_bits] bits, a parameter of
      [std::stoul] and of the casts to [long]; an [unsigned long] returned
      as a [long] keeps its bits.  [float], [double], [std::stof] and
      [std::stod] are parameters of the casts that use them.
    - [isspace] and the table of [Tokenize] are indexed by a character: the
      further properties about arbitrary strings ask for characters below
      128 ([seven_bit]), which index alike whether [char] is signed or not.
    - The text of the stream is handed to [Parser_new] as a whole, and
      [ParseSection] ends with the last line that [std::getline] delivers:
      the failing call that ends the loop, which empties [mConfigLine] when
      the text ends with a line feed, is left out, and no statement below
      depends on [mConfigLine] once a parse is over.  The two stream members
      are kept apart from [Parser], in [Parser_streams]: for [mConfigFile],
      whether a file is open and its [failbit]; for [mConfigFileRef], the
      stream it points to. *)

From Stdlib Require Import ZArith Ascii.
From stdpp Require Import gmap strings list pretty.

Local Open Scope char_scope.

(** ** Outcomes *)

Inductive exception : Type :=
  | runtime_error (what : string) (line : nat)
  | out_of_range
  | invalid_argument
  | assertion_failure
  | null_dereference.

Inductive outcome (A : Type) : Type :=
  | Ok (a : A)
  | Throw (e : exception).
Arguments Ok {A} a.
Arguments Throw {A} e.

#[global] Instance outcome_ret : MRet outcome := fun A a => Ok a.
#[global] Instance outcome_bind : MBind outcome := fun A B f m =>
  match m with
  | Ok a => f a
  | Throw e => Throw e
  end.

(** ** std::string primitives *)

Definition size_t (z : Z) : Z := (z mod 2 ^ 64)%Z.

Definition size (s : string) : nat := String.length s.

(** [s[i]]; reading at [i = s.size()] yields the terminating NUL. *)
Fixpoint at_ (s : string) (i : nat) : ascii :=
  match s, i with
  | EmptyString, _ => "000"
  | String c _, O => c
  | String _ s', S i' => at_ s' i'
  end.

(** [s.find(c)]: position of the first [c], [None] for [npos]. *)
Fixpoint find (c : ascii) (s : string) : option nat :=
  match s with
  | EmptyString => None
  | String d s' => if decide (d = c) then Some 0 else S <$> find c s'
  end.

Fixpoint drop_str (n : nat) (s : string) : string :=
  match n, s with
  | O, _ => s
  | S n', String _ s' => drop_str n' s'
  | S _, EmptyString => EmptyString
  end.

Fixpoint take_str (n : nat) (s : string) : string :=
  match n, s with
  | S n', String c s' => String c (take_str n' s')
  | _, _ => EmptyString
  end.

(** [s.substr(pos, count)], [count] a [size_t] value; throws when
    [pos > size()], otherwise copies [min(count, size() - pos)] characters. *)
Definition substr (s : string) (pos : nat) (count : Z) : outcome string :=
  if decide (size s < pos) then Throw out_of_range
  else
    let avail := (Z.of_nat (size s) - Z.of_nat pos)%Z in
    Ok (take_str (Z.to_nat (Z.min count avail)) (drop_str pos s)).

(** [str.erase(remove_if(str.begin(), str.end(), pred), str.end())] *)
Fixpoint erase_remove_if (pred : ascii → bool) (s : string) : string :=
  match s with
  | EmptyString => EmptyString
  | String c s' =>
      if pred c then erase_remove_if pred s'
      else String c (erase_remove_if pred s')
  end.

(** [isspace] in the "C" locale. *)
Definition isspace (c : ascii) : bool :=
  match c with
  | " " | "009" | "010" | "011" | "012" | "013" => true
  | _ => false
  end.

(** [std::strchr(str, c) != nullptr]; the terminator of [str] is part of the
    searched range, so [c = NUL] is always found. *)
Fixpoint strchr (str : string) (c : ascii) : bool :=
  match str with
  | EmptyString => bool_decide (c = "000")
  | String d str' => bool_decide (d = c) || strchr str' c
  end.

(** ** TrimString *)

Definition toTrim : string := String " " (String "009" (String "013" (String "010" EmptyString))).

(** First loop: [sp] stops on the first character outside [toTrim], or one
    past [ep] (the end of the string). *)
Fixpoint TrimString_sp (s : string) : nat :=
  match s with
  | EmptyString => 0
  | String c s' => if strchr toTrim c then S (TrimString_sp s') else 0
  end.

(** Second loop: [ep] stops on the last character outside [toTrim], or at -1. *)
Fixpoint TrimString_ep (s : string) : Z :=
  match s with
  | EmptyString => (-1)%Z
  | String c s' =>
      let r := TrimString_ep s' in
      if (0 <=? r)%Z then (r + 1)%Z
      else if strchr toTrim c then (-1)%Z else 0%Z
  end.

Definition TrimString (xi_string : string) : outcome string :=
  let sp := TrimString_sp xi_string in
  let ep := TrimString_ep xi_string in
  substr xi_string sp (size_t (ep - Z.of_nat sp + 1)).

(** ** ParseValue *)

Definition coment : string := String "#" (String ";" EmptyString).

(** The [for] loop over [coment]: [ep] is the result of the first
    [xi_string.find(coment[i])] that is not [npos]. *)
Fixpoint ParseValue_ep (cs : string) (xi_string : string) : option nat :=
  match cs with
  | EmptyString => None
  | String c cs' =>
      match find c xi_string with
      | Some ep => Some ep
      | None => ParseValue_ep cs' xi_string
      end
  end.

Definition ParseValue (xi_string : string) : outcome string :=
  match ParseValue_ep coment xi_string with
  | Some ep => substr xi_string 0 (Z.of_nat ep)
  | None => Ok xi_string
  end.

(** ** Section *)

Abbreviation ptr := nat.

Record Section : Type := mkSection {
  mValues : gmap string string;
  mSections : gmap string ptr;
  mOrderedValues : list string;
  mOrderedSections : list string;
  mParent : option ptr;
  mDepth : nat
}.

(** [Section()]: empty containers, [mParent(nullptr)], [mDepth(0)]. *)
Definition Section_default : Section :=
  mkSection ∅ ∅ [] [] None 0.

Definition set_mValues (f : gmap string string → gmap string string) (s : Section) : Section :=
  mkSection (f (mValues s)) (mSections s) (mOrderedValues s) (mOrderedSections s) (mParent s) (mDepth s).
Definition set_mSections (f : gmap string ptr → gmap string ptr) (s : Section) : Section :=
  mkSection (mValues s) (f (mSections s)) (mOrderedValues s) (mOrderedSections s) (mParent s) (mDepth s).
Definition set_mOrderedValues (f : list string → list string) (s : Section) : Section :=
  mkSection (mValues s) (mSections s) (f (mOrderedValues s)) (mOrderedSections s) (mParent s) (mDepth s).
Definition set_mOrderedSections (f : list string → list string) (s : Section) : Section :=
  mkSection (mValues s) (mSections s) (mOrderedValues s) (f (mOrderedSections s)) (mParent s) (mDepth s).
Definition set_mParent (p : option ptr) (s : Section) : Section :=
  mkSection (mValues s) (mSections s) (mOrderedValues s) (mOrderedSections s) p (mDepth s).
Definition set_mDepth (d : nat) (s : Section) : Section :=
  mkSection (mValues s) (mSections s) (mOrderedValues s) (mOrderedSections s) (mParent s) d.

(** [const std::string& operator[](key) { return mValues[key]; }]:
    [std::map::operator[]] value-initialises a missing entry. *)
Definition Section_subscript (s : Section) (xi_key : string) : string * Section :=
  match mValues s !! xi_key with
  | Some v => (v, s)
  | None => (EmptyString, set_mValues (insert xi_key EmptyString) s)
  end.

(** ** The store of sections *)

Abbreviation store := (list Section).

Definition deref (h : store) (p : ptr) : outcome Section :=
  match h !! p with
  | Some s => Ok s
  | None => Throw null_dereference
  end.

(** Follow an [mParent] link; a null link followed is a null dereference. *)
Definition deref_opt (p : option ptr) : outcome ptr :=
  match p with
  | Some q => Ok q
  | None => Throw null_dereference
  end.

(** [&p->mSections[name]]: the address of the child node, created with
    [Section()] at a fresh address when the name is not in the map.
    [Section& operator()(name)] is this same expression. *)
Definition Section_call (h : store) (p : ptr) (name : string) : outcome (store * ptr) :=
  s ← deref h p;
  match mSections s !! name with
  | Some q => Ok (h, q)
  | None =>
      let q := length h in
      Ok (<[p := set_mSections (insert name q) s]> h ++ [Section_default], q)
  end.

(** ** Parser *)

Record Parser : Type := mkParser {
  sections : store;        (* mRoot, at address 0, and every node below it *)
  mConfigLine : string;
  mLineNumber : nat
}.

Definition root : ptr := 0.

(** [void Parser::Error(label)] *)
Definition Error {A} (this : Parser) (xi_label : string) : outcome A :=
  Throw (runtime_error xi_label (mLineNumber this)).

(** The lines that successive [std::getline] calls deliver from a stream
    holding [s]: the text between line feeds; a final piece is delivered
    only when it is not empty. *)
Fixpoint getlines (s : string) : list string :=
  match s with
  | EmptyString => []
  | String c s' =>
      if decide (c = "010") then EmptyString :: getlines s'
      else match getlines s' with
           | [] => [String c EmptyString]
           | l :: ls => String c l :: ls
           end
  end.

(** The counting loop of [ParseLine]: the number of leading ['[']. *)
Fixpoint ParseLine_depth (s : string) : nat :=
  match s with
  | String "[" s' => S (ParseLine_depth s')
  | _ => 0
  end.

Definition ParseLine (this : Parser) : outcome (string * nat) :=
  let xo_depth := ParseLine_depth (mConfigLine this) in
  xo_name ← substr (mConfigLine this) xo_depth
              (size_t (Z.of_nat (size (mConfigLine this)) - 2 * Z.of_nat xo_depth));
  Ok (xo_name, xo_depth).

(** [for (i = 0; i < n; ++i) lp = lp->mParent;] *)
Fixpoint ancestor (h : store) (n : nat) (lp : ptr) : outcome ptr :=
  match n with
  | O => Ok lp
  | S n' => s ← deref h lp; q ← deref_opt (mParent s); ancestor h n' q
  end.

Definition update (h : store) (p : ptr) (f : Section → Section) : store :=
  match h !! p with
  | Some s => <[p := f s]> h
  | None => h
  end.

(** The section-header branch of [ParseSection] once [ParseLine] has
    delivered [sectionName] and [depth], up to the recursive call: the new
    store and [lp].  [depth] is at least 1 here, the line starting with
    ['['], so [depth - 1] does not wrap. *)
Definition ParseSection_open (this : Parser) (xi_section : ptr)
    (sectionName : string) (depth : nat) : outcome (store * ptr) :=
  let h := sections this in
  cur ← deref h xi_section;
  if decide (mDepth cur + 1 < depth) then Error this "Section with wrong depth."
  else
    mParent_ ← (if decide (mDepth cur = depth - 1) then Ok xi_section
                else lp ← deref_opt (mParent cur);
                     ancestor h (mDepth cur - depth) lp);
    '(h, lp) ← Section_call h mParent_ sectionName;
    child ← deref h lp;
    if decide (mDepth child ≠ 0) then Error this "Duplicate section name on the same level."
    else
      let h := match mParent child with
               | None => update h lp (fun s => set_mParent (Some mParent_) (set_mDepth depth s))
               | Some _ => h
               end in
      let h := update h mParent_ (set_mOrderedSections (fun l => l ++ [sectionName])) in
      Ok (h, lp).

Definition ParseSection_header (this : Parser) (xi_section : ptr) : outcome (store * ptr) :=
  '(sectionName, depth) ← ParseLine this;
  ParseSection_open this xi_section sectionName depth.

(** [xi_section.mValues.insert(std::make_pair(key, v))], the test of
    [res.second] and the [push_back] of [res.first]. *)
Definition ParseSection_insert (this : Parser) (xi_section : ptr) (key v : string) : outcome store :=
  cur ← deref (sections this) xi_section;
  match mValues cur !! key with
  | Some _ => Error this "duplicated key found"
  | None =>
      Ok (update (sections this) xi_section
            (fun s => set_mOrderedValues (fun l => l ++ [key])
                        (set_mValues (insert key v) s)))
  end.

(** The key/value branch of [ParseSection]. *)
Definition ParseSection_pair (this : Parser) (xi_section : ptr) : outcome store :=
  let line := mConfigLine this in
  match find "=" line with
  | None => Error this "no '=' found"
  | Some n =>
      rhs ← substr line (n + 1) (size_t (Z.of_nat (size line) - Z.of_nat n - 1));
      rhs ← TrimString rhs;
      v ← ParseValue rhs;
      lhs ← substr line 0 (Z.of_nat n);
      key ← TrimString lhs;
      ParseSection_insert this xi_section key v
  end.

(** One iteration of the [while] loop of [Parser::ParseSection], entered
    with the line just read in [mConfigLine] and [mLineNumber] already
    incremented.  It yields the parser and the section that goes on reading:
    [xi_section] itself after a comment, an empty line or a key/value pair,
    and [lp] after a header, where the loop recurses with
    [ParseSection( *lp )]. *)
Definition ParseSection_iteration (this : Parser) (xi_section : ptr) : outcome (Parser * ptr) :=
  let line := mConfigLine this in
  if decide (at_ line 0 = "#" ∨ at_ line 0 = ";") then Ok (this, xi_section)
  else
    line ← TrimString line;
    let this := mkParser (sections this) line (mLineNumber this) in
    if decide (line = EmptyString) then Ok (this, xi_section)
    else if decide (at_ line 0 = "[") then
      '(h, lp) ← ParseSection_header this xi_section;
      Ok (mkParser h line (mLineNumber this), lp)
    else
      h ← ParseSection_pair this xi_section;
      Ok (mkParser h line (mLineNumber this), xi_section).

(** [Parser::ParseSection].  [lines] is what is left in [*mConfigFileRef].
    The recursive call on a header consumes the rest of the stream, so the
    caller's [while] ends as soon as the call returns: the function is one
    pass over the lines with the reading section handed on. *)
Fixpoint ParseSection (lines : list string) (this : Parser) (xi_section : ptr) : outcome Parser :=
  match lines with
  | [] => Ok this
  | line :: lines =>
      '(this, next) ← ParseSection_iteration
                        (mkParser (sections this) line (S (mLineNumber this))) xi_section;
      ParseSection lines this next
  end.

(** The members before the constructor body runs: a default [mRoot],
    [mLineNumber(0)]. *)
Definition Parser_init : Parser := mkParser [Section_default] EmptyString 0.

(** [explicit Parser(std::istream& xi_file)], on a stream holding [xi_file]:
    [ParseSection(mRoot)]. *)
Definition Parser_new (xi_file : string) : outcome Parser :=
  ParseSection (getlines xi_file) Parser_init root.

Definition Get (this : Parser) : ptr := root.

(** [std::ifstream mConfigFile]: whether a file is open, and the [failbit]
    of the stream state. *)
Record ifstream : Type := mkIfstream {
  is_open : bool;
  failbit : bool
}.

(** [std::istream* mConfigFileRef]: the address of [mConfigFile], or of the
    stream [xi_file] that the constructor was given. *)
Inductive istream_ptr : Type :=
  | addr_mConfigFile
  | addr_xi_file.

(** The stream members of [Parser]. *)
Record Parser_streams : Type := mkStreams {
  mConfigFile : ifstream;
  mConfigFileRef : istream_ptr
}.

(** The stream members after [explicit Parser(std::istream& xi_file)]:
    [mConfigFile] is default-constructed, with no file open and no state bit
    set, and [mConfigFileRef(&xi_file)]; [ParseSection] reads from
    [*mConfigFileRef] and changes neither. *)
Definition Parser_streams_new : Parser_streams :=
  mkStreams (mkIfstream false false) addr_xi_file.

(** [mConfigFile.close()]: [rdbuf()->close()] returns a null pointer when no
    file is open, and [setstate(failbit)] follows (no exception, the
    exception mask being empty); an open file is closed, which is taken to
    succeed, and the state bits are left as they are. *)
Definition ifstream_close (f : ifstream) : ifstream :=
  if is_open f then mkIfstream false (failbit f) else mkIfstream false true.

(** [Parser::Clear()]: [mConfigFile] is closed and [mConfigFileRef] set to
    its address; the current line and the line number are reset and the
    four containers of [mRoot] are emptied; [mParent] and [mDepth] of
    [mRoot] are not touched.  Emptying [mSections] destroys every section
    below the root, so the root is all that is left in the store. *)
Definition Clear (this : Parser) (streams : Parser_streams) : outcome (Parser * Parser_streams) :=
  let mConfigFile := ifstream_close (mConfigFile streams) in
  let mConfigFileRef := addr_mConfigFile in
  mRoot ← deref (sections this) root;
  let mRoot := set_mValues (λ _, ∅) mRoot in
  let mRoot := set_mOrderedValues (λ _, []) mRoot in
  let mRoot := set_mSections (λ _, ∅) mRoot in
  let mRoot := set_mOrderedSections (λ _, []) mRoot in
  Ok (mkParser [mRoot] EmptyString 0, mkStreams mConfigFile mConfigFileRef).

(** ** ExportSection *)

Fixpoint repeat_char (n : nat) (c : ascii) : string :=
  match n with
  | O => EmptyString
  | S n' => String c (repeat_char n' c)
  end.

Definition endl : string := String "010" EmptyString.

(** The loop over [mOrderedValues]: for every stored iterator [it], the
    line [it->first << '=' << it->second << std::endl]. *)
Fixpoint ExportSection_values (values : gmap string string) (its : list string)
    (xio_stream : string) : outcome string :=
  match its with
  | [] => Ok xio_stream
  | k :: its' =>
      match values !! k with
      | Some v => ExportSection_values values its' (xio_stream +:+ k +:+ "=" +:+ v +:+ endl)
      | None => Throw null_dereference
      end
  end.

Section Build.

(** Whether the translation unit is compiled with [NDEBUG], which turns
    [assert] into a no-op. *)
Variable NDEBUG : bool.

Definition assert (cond : bool) : outcome unit :=
  if NDEBUG then Ok tt
  else if cond then Ok tt else Throw assertion_failure.

(** The loop over [mOrderedSections] of the section [s]: for every stored
    iterator the [assert] on the child's depth, then the recursive call
    [export] on the child and its name. *)
Fixpoint ExportSection_sections (export : string → ptr → string → option (outcome string))
    (h : store) (s : Section) (its : list string) (xio_stream : string) : option (outcome string) :=
  match its with
  | [] => Some (Ok xio_stream)
  | name :: its' =>
      match mSections s !! name with
      | None => Some (Throw null_dereference)
      | Some q =>
          match deref h q with
          | Throw e => Some (Throw e)
          | Ok child =>
              match assert (bool_decide (mDepth child = mDepth s + 1)) with
              | Throw e => Some (Throw e)
              | Ok _ =>
                  match export xio_stream q name with
                  | Some (Ok xio_stream) => ExportSection_sections export h s its' xio_stream
                  | r => r
                  end
              end
          end
      end
  end.

(** What [ExportSection] writes before the key/value lines: the bracketed
    name between two line ends, or nothing but the bare brackets when the
    name is empty. *)
Definition ExportSection_head (depth : nat) (xi_section_name : string) (xio_stream : string) : string :=
  let named := negb (bool_decide (xi_section_name = EmptyString)) in
  let xio_stream := if named then xio_stream +:+ endl else xio_stream in
  let xio_stream := xio_stream +:+ repeat_char depth "[" in
  let xio_stream := if named then xio_stream +:+ xi_section_name else xio_stream in
  let xio_stream := xio_stream +:+ repeat_char depth "]" in
  if named then xio_stream +:+ endl else xio_stream.

(** [Parser::ExportSection(stream, section, name)].  The recursion follows
    child addresses through the store, so it is bounded by [fuel]; [None]
    means the bound was reached. *)
Fixpoint ExportSection (fuel : nat) (h : store) (xio_stream : string)
    (xi_section : ptr) (xi_section_name : string) : option (outcome string) :=
  match fuel with
  | O => None
  | S fuel' =>
      match deref h xi_section with
      | Throw e => Some (Throw e)
      | Ok s =>
          let xio_stream := ExportSection_head (mDepth s) xi_section_name xio_stream in
          match ExportSection_values (mValues s) (mOrderedValues s) xio_stream with
          | Throw e => Some (Throw e)
          | Ok xio_stream =>
              ExportSection_sections (ExportSection fuel' h) h s (mOrderedSections s) xio_stream
          end
      end
  end.

(** [void ExportSection(std::ostream&)]: the whole tree, from the root,
    into an empty stream.  A tree never nests deeper than it has nodes. *)
Definition Export (this : Parser) : option (outcome string) :=
  ExportSection (length (sections this)) (sections this) EmptyString (Get this) EmptyString.

(** ** Tokenize *)

(** The table [map] filled from the C string [xi_delimiters]. *)
Fixpoint delimiter_map (xi_delimiters : string) (ch : ascii) : bool :=
  match xi_delimiters with
  | EmptyString => false
  | String d ds =>
      if decide (d = "000") then false
      else bool_decide (d = ch) || delimiter_map ds ch
  end.

(** [v.back() = f(v.back())] *)
Fixpoint modify_back (f : string → string) (v : list string) : list string :=
  match v with
  | [] => []
  | [x] => [f x]
  | x :: v' => x :: modify_back f v'
  end.

Definition back_size (v : list string) : nat :=
  match last v with
  | Some x => size x
  | None => 0
  end.

Definition push_back_char (ch : ascii) (s : string) : string := s +:+ String ch EmptyString.

(** The range-[for] over the characters of [xi_string]. *)
Fixpoint Tokenize_loop (xi_delimiters : string) (s : string) (xo_tokens : list string) : list string :=
  match s with
  | EmptyString => xo_tokens
  | String ch s' =>
      Tokenize_loop xi_delimiters s'
        (if negb (delimiter_map xi_delimiters ch) then modify_back (push_back_char ch) xo_tokens
         else if decide (back_size xo_tokens ≠ 0) then xo_tokens ++ [EmptyString]
         else xo_tokens)
  end.

(** [while (xo_tokens.size() && !xo_tokens.back().size()) xo_tokens.pop_back();] *)
Fixpoint pop_empty_back (v : list string) : list string :=
  match v with
  | [] => []
  | x :: v' =>
      match pop_empty_back v' with
      | [] => if decide (size x = 0) then [] else [x]
      | r => x :: r
      end
  end.

Definition Tokenize (xi_string : string) (xi_delimiters : string) : list string :=
  pop_empty_back (Tokenize_loop xi_delimiters xi_string [EmptyString]).

(** ** CleanArrayString and GetAs *)

Definition CleanArrayString (xi_string : string) : outcome (list string) :=
  _ ← assert (negb (bool_decide (xi_string = EmptyString))
              || bool_decide (at_ xi_string 0 = "{")
              || bool_decide (at_ xi_string (size xi_string) = "}"));
  str ← substr xi_string 1 (size_t (Z.of_nat (size xi_string) - 1));
  let str := erase_remove_if isspace str in
  Ok (Tokenize str ",").

(** [std::stoi(str)]: [strtol] in base 10 (leading white space, an optional
    sign, then the longest run of digits; what follows is ignored), with
    [invalid_argument] when there is no digit and [out_of_range] outside
    the 32-bit [int]. *)
Fixpoint skip_space (s : string) : string :=
  match s with
  | String c s' => if isspace c then skip_space s' else s
  | EmptyString => EmptyString
  end.

Definition digit (c : ascii) : option Z := Z.of_nat <$> Ascii.is_nat c.

Fixpoint strtol_digits (acc : option Z) (s : string) : option Z :=
  match s with
  | EmptyString => acc
  | String c s' =>
      match digit c with
      | Some d => strtol_digits (Some (10 * default 0 acc + d)%Z) s'
      | None => acc
      end
  end.

Definition stoi (str : string) : outcome Z :=
  let s := skip_space str in
  let '(negative, s) :=
    match s with
    | String "-" s' => (true, s')
    | String "+" s' => (false, s')
    | _ => (false, s)
    end in
  match strtol_digits None s with
  | None => Throw invalid_argument
  | Some v =>
      let v := if negative : bool then (- v)%Z else v in
      if decide (- 2 ^ 31 ≤ v < 2 ^ 31)%Z then Ok v else Throw out_of_range
  end.

(** [template<> int GetAs(const std::string&)] *)
Definition GetAs_int (xi_string : string) : outcome Z :=
  stoi (erase_remove_if isspace xi_string).

(** [template<> bool GetAs(const std::string&)] *)
Definition GetAs_bool (xi_string : string) : bool :=
  let str := erase_remove_if isspace xi_string in
  if decide (str = "true"%string) then true else false.

(** The element loop [xo_vector[i] = cast(vec[i])], left to right. *)
Fixpoint cast_each {A} (cast : string → outcome A) (vec : list string) : outcome (list A) :=
  match vec with
  | [] => Ok []
  | t :: vec' => x ← cast t; xs ← cast_each cast vec'; Ok (x :: xs)
  end.

(** [template<> std::vector<int> GetAs(const std::string&)] *)
Definition GetAs_vector_int (xi_string : string) : outcome (list Z) :=
  vec ← CleanArrayString xi_string;
  cast_each stoi vec.

(** [template<> std::vector<bool> GetAs(const std::string&)] *)
Definition GetAs_vector_bool (xi_string : string) : outcome (list bool) :=
  vec ← CleanArrayString xi_string;
  cast_each (fun t => Ok (if decide (t = "true"%string) then true else false)) vec.

End Build.

(** ** The casts to [long] and to the floating-point types *)

(** [std::stoul(str)]: [strtoul] in base 10 (leading white space, an
    optional sign, then the longest run of digits), with [invalid_argument]
    when there is no digit and [out_of_range] when the digits exceed
    [ULONG_MAX]; after a minus sign the value is negated in
    [unsigned long], which has [long_bits] bits. *)
Definition stoul (long_bits : Z) (str : string) : outcome Z :=
  let s := skip_space str in
  let '(negative, s) :=
    match s with
    | String "-" s' => (true, s')
    | String "+" s' => (false, s')
    | _ => (false, s)
    end in
  match strtol_digits None s with
  | None => Throw invalid_argument
  | Some v =>
      if decide (v < 2 ^ long_bits)%Z
      then Ok (if negative : bool then ((- v) mod 2 ^ long_bits)%Z else v)
      else Throw out_of_range
  end.

(** The conversion of an [unsigned long] to the [long] a function returns:
    the value with the same bits. *)
Definition to_long (long_bits : Z) (v : Z) : Z :=
  if decide (v < 2 ^ (long_bits - 1))%Z then v else (v - 2 ^ long_bits)%Z.


(** [template<> std::vector<long> GetAs(const std::string&)] *)
Definition GetAs_vector_long (NDEBUG : bool) (long_bits : Z) (xi_string : string) : outcome (list Z) :=
  vec ← CleanArrayString NDEBUG xi_string;
  cast_each (λ t, v ← stoul long_bits t; Ok (to_long long_bits v)) vec.

Section Floating.

(** The values of [float] and [double], and what [std::stof] and
    [std::stod] return or throw, are left to the implementation. *)
Variables (float double : Type).
Variable stof : string → outcome float.
Variable stod : string → outcome double.
Variable NDEBUG : bool.

(** [template<> float GetAs(const std::string&)] *)
Definition GetAs_float (xi_string : string) : outcome float :=
  stof (erase_remove_if isspace xi_string).

(** [template<> double GetAs(const std::string&)] *)
Definition GetAs_double (xi_string : string) : outcome double :=
  stod (erase_remove_if isspace xi_string).

(** [template<> std::vector<float> GetAs(const std::string&)] *)
Definition GetAs_vector_float (xi_string : string) : outcome (list float) :=
  vec ← CleanArrayString NDEBUG xi_string;
  cast_each stof vec.

(** [template<> std::vector<double> GetAs(const std::string&)] *)
Definition GetAs_vector_double (xi_string : string) : outcome (list double) :=
  vec ← CleanArrayString NDEBUG xi_string;
  cast_each stod vec.

End Floating.

(** ** The specification's reading of comment stripping *)

(** The prefix of [s] before the earliest ['#'] or [';'], all of [s] when it
    has neither: comment stripping as the specification words it, to be
    compared with [ParseValue]. *)
Fixpoint stripComment_spec (s : string) : string :=
  match s with
  | EmptyString => EmptyString
  | String c s' =>
      if decide (c = "#" ∨ c = ";") then EmptyString
      else String c (stripComment_spec s')
  end.

(** Array cleaning as the specification words it, to be compared with
    [CleanArrayString]: the opening and the closing brace are stripped, the
    white space is removed and what is left is split at the commas. *)
Definition strip_braces_spec (s : string) : string :=
  take_str (size s - 2) (drop_str 1 s).

Definition CleanArrayString_spec (s : string) : list string :=
  Tokenize (erase_remove_if isspace (strip_braces_spec s)) ",".

(** [t] is [s] with its white space removed, as a relation that does not
    mention the erase/remove idiom. *)
Inductive without_space : string → string → Prop :=
  | without_space_nil : without_space EmptyString EmptyString
  | without_space_skip c s t :
      isspace c = true → without_space s t → without_space (String c s) t
  | without_space_keep c s t :
      isspace c = false → without_space s t → without_space (String c s) (String c t).

Definition nonempty (t : string) : Prop := t ≠ EmptyString.

(** A text from its lines, each ended by a line feed. *)
Definition text (lines : list string) : string :=
  foldr (λ l r, l +:+ endl +:+ r) EmptyString lines.

(** The end-to-end scenario of the specification, and an input with several
    keys and sections at one level. *)
Definition scenario : string :=
  text ["a=1"; "[e]"; "ea=1"; "[[d]]"; "da=3.0"; "db={3,4,5}"]%string.
Definition ordered_input : string :=
  text ["b=1"; "a=2"; "[e]"; "ea=1"; "[c]"; "[[d]]"; "[A]"]%string.

(** ** Well-formed stores *)

(** The two ordered views of a section list exactly the keys of its maps. *)
Record ordered (s : Section) : Prop := mkOrdered {
  ordered_values_NoDup : NoDup (mOrderedValues s);
  ordered_values_dom : ∀ k, k ∈ mOrderedValues s ↔ k ∈ dom (mValues s);
  ordered_sections_NoDup : NoDup (mOrderedSections s);
  ordered_sections_dom : ∀ k, k ∈ mOrderedSections s ↔ k ∈ dom (mSections s)
}.

Record wf_store (h : store) : Prop := mkWf {
  wf_root : ∃ r, h !! root = Some r ∧ mParent r = None;
  wf_child : ∀ i s name q, h !! i = Some s → mSections s !! name = Some q →
             ∃ c, h !! q = Some c ∧ mParent c = Some i ∧ mDepth c = mDepth s + 1;
  wf_parent : ∀ i s p, h !! i = Some s → mParent s = Some p →
              ∃ ps name, h !! p = Some ps ∧ mSections ps !! name = Some i;
  wf_orphan : ∀ i s, h !! i = Some s → mParent s = None → i = root ∧ mDepth s = 0;
  wf_ordered : ∀ i s, h !! i = Some s → ordered s
}.

(** [s'] is [s] after more input: both ordered views only grew at the end,
    the maps only gained entries, parent and depth are the same. *)
Record grows (s s' : Section) : Prop := mkGrows {
  grows_values : mOrderedValues s `prefix_of` mOrderedValues s';
  grows_sections : mOrderedSections s `prefix_of` mOrderedSections s';
  grows_mValues : mValues s ⊆ mValues s';
  grows_mSections : mSections s ⊆ mSections s';
  grows_mParent : mParent s' = mParent s;
  grows_mDepth : mDepth s' = mDepth s
}.

Definition store_grows (h h' : store) : Prop :=
  ∀ i s, h !! i = Some s → ∃ s', h' !! i = Some s' ∧ grows s s'.

(** The store after a header line opened the new section [name] below [P]. *)
Definition add_child (name : string) (q : ptr) (ps : Section) : Section :=
  set_mOrderedSections (λ l, l ++ [name]) (set_mSections (insert name q) ps).
Definition new_child (P : ptr) (depth : nat) : Section :=
  mkSection ∅ ∅ [] [] (Some P) depth.
Definition add_pair (key v : string) (s : Section) : Section :=
  set_mOrderedValues (λ l, l ++ [key]) (set_mValues (insert key v) s).

(** ** The log of a parse *)

(** What a line that is neither a comment nor empty adds to the tree: a
    section opened at a depth, or a key with its value. *)
Inductive entry : Type :=
  | Header (depth : nat) (name : string)
  | Pair (key value : string).

(** The store update of an entry, by the two functions [ParseSection] itself
    uses; the state is the store and the section that is reading. *)
Definition replay_entry (e : entry) (st : store * ptr) : outcome (store * ptr) :=
  let this := mkParser st.1 EmptyString 0 in
  match e with
  | Header d n => ParseSection_open this st.2 n d
  | Pair k v => h ← ParseSection_insert this st.2 k v; Ok (h, st.2)
  end.

Fixpoint replay (L : list entry) (st : store * ptr) : outcome (store * ptr) :=
  match L with
  | [] => Ok st
  | e :: L => st ← replay_entry e st; replay L st
  end.

(** [ParseSection], returning also the section that was reading when the
    stream ended. *)
Fixpoint ParseSection_run (lines : list string) (this : Parser) (xi_section : ptr) : outcome (Parser * ptr) :=
  match lines with
  | [] => Ok (this, xi_section)
  | line :: lines =>
      '(this, next) ← ParseSection_iteration
                        (mkParser (sections this) line (S (mLineNumber this))) xi_section;
      ParseSection_run lines this next
  end.

(** The text [ExportSection] writes for an entry, and for a log. *)
Definition render_entry (e : entry) : string :=
  match e with
  | Header d n => ExportSection_head d n EmptyString
  | Pair k v => k +:+ "=" +:+ v +:+ endl
  end.

Definition render (L : list entry) : string :=
  foldr (λ e r, render_entry e +:+ r) EmptyString L.

Definition header_line (d : nat) (n : string) : string :=
  repeat_char d "[" +:+ n +:+ repeat_char d "]".

Definition entry_in_store (e : entry) (h : store) : Prop :=
  match e with
  | Header _ n => ∃ i s q, h !! i = Some s ∧ mSections s !! n = Some q
  | Pair k v => ∃ i s, h !! i = Some s ∧ mValues s !! k = Some v
  end.

Definition positive_depth (e : entry) : Prop :=
  match e with
  | Header d _ => 0 < d
  | Pair _ _ => True
  end.

(** ** Strings the parser stores, and strings that survive export and parse *)

Definition no_nl (s : string) : Prop := find "010" s = None.

(** The characters [TrimString] removes at both ends. *)
Definition trimmable (c : ascii) : bool := strchr toTrim c.

(** [s] is empty or begins with a character that [TrimString] keeps. *)
Definition keeps_first (s : string) : Prop :=
  match s with
  | EmptyString => True
  | String c _ => trimmable c = false
  end.

(** [s] is empty or ends with a character that [TrimString] keeps. *)
Fixpoint keeps_last (s : string) : Prop :=
  match s with
  | EmptyString => True
  | String c EmptyString => trimmable c = false
  | String _ s' => keeps_last s'
  end.

#[global] Instance keeps_first_dec s : Decision (keeps_first s).
Proof. destruct s; simpl; apply _. Defined.

#[global] Instance keeps_last_dec s : Decision (keeps_last s).
Proof.
  induction s as [|c s IH]; [left; exact I|].
  destruct s as [|d s]; [simpl; apply _|exact IH].
Defined.

(** What holds of every key, value and name that [ParseSection] stores. *)
Definition lexical_key (k : string) : Prop :=
  no_nl k ∧ find "=" k = None ∧ keeps_first k ∧ keeps_last k ∧ at_ k 0 ≠ "[".
Definition lexical_value (v : string) : Prop :=
  no_nl v ∧ keeps_first v ∧ find "#" v = None.
Definition lexical_name (n : string) : Prop :=
  no_nl n ∧ at_ n 0 ≠ "[".
Definition lexical (e : entry) : Prop :=
  match e with
  | Header d n => 0 < d ∧ lexical_name n
  | Pair k v => lexical_key k ∧ lexical_value v
  end.

(** What the parser does not guarantee and the round trip needs: a key
    that does not look like a comment line, a value that trimming and comment
    stripping leave alone, a name that is not empty. *)
Definition clean_key (k : string) : Prop := at_ k 0 ≠ "#" ∧ at_ k 0 ≠ ";".
Definition clean_value (v : string) : Prop := keeps_last v ∧ find ";" v = None.
Definition clean_name (n : string) : Prop := n ≠ EmptyString.

Definition clean_section (s : Section) : Prop :=
  map_Forall (λ k v, clean_key k ∧ clean_value v) (mValues s) ∧
  map_Forall (λ n _, clean_name n) (mSections s).

Definition clean_store (h : store) : Prop := Forall clean_section h.

#[global] Instance clean_key_dec k : Decision (clean_key k).
Proof. unfold clean_key. apply _. Defined.
#[global] Instance clean_value_dec v : Decision (clean_value v).
Proof. unfold clean_value. apply _. Defined.
#[global] Instance clean_name_dec n : Decision (clean_name n).
Proof. unfold clean_name. apply _. Defined.
#[global] Instance clean_section_dec s : Decision (clean_section s).
Proof. unfold clean_section. apply _. Defined.
#[global] Instance clean_store_dec h : Decision (clean_store h).
Proof. unfold clean_store. apply _. Defined.

(** Both together: an entry whose rendered line is parsed back to it. *)
Definition good_key (k : string) : Prop :=
  no_nl k ∧ find "=" k = None ∧ keeps_first k ∧ keeps_last k ∧
  at_ k 0 ≠ "[" ∧ at_ k 0 ≠ "#" ∧ at_ k 0 ≠ ";".
Definition good_value (v : string) : Prop :=
  no_nl v ∧ keeps_first v ∧ keeps_last v ∧ find "#" v = None ∧ find ";" v = None.
Definition good_name (n : string) : Prop :=
  no_nl n ∧ n ≠ EmptyString ∧ at_ n 0 ≠ "[".
Definition good (e : entry) : Prop :=
  match e with
  | Header d n => 0 < d ∧ good_name n
  | Pair k v => good_key k ∧ good_value v
  end.

(** ** The path to the reading section *)

(** The section that is reading is a leaf, every section on the path from
    the root down to it is the last child of its parent, and a section maps
    different names to different children. *)
Record spine_ok (h : store) (cur : ptr) : Prop := mkSpine {
  spine_wf : wf_store h;
  spine_inj : ∀ i s n1 n2 q,
    h !! i = Some s → mSections s !! n1 = Some q → mSections s !! n2 = Some q → n1 = n2;
  spine_leaf : ∃ cs, h !! cur = Some cs ∧ mOrderedSections cs = [];
  spine_last : ∀ n c cs a s,
    ancestor h n cur = Ok c → h !! c = Some cs → mParent cs = Some a → h !! a = Some s →
    ∃ nm, last (mOrderedSections s) = Some nm ∧ mSections s !! nm = Some c;
  spine_depth : ∀ i s, h !! i = Some s → mDepth s < length h
}.

(** Exporting the store writes the rendering of the log, with any bound on
    the recursion that is at least the number of sections. *)
Definition exported (NDEBUG : bool) (h : store) (L : list entry) : Prop :=
  ∀ fuel, length h ≤ fuel →
    ExportSection NDEBUG fuel h EmptyString root EmptyString = Some (Ok (render L)).

(** Inputs on which export followed by parse does not give the tree back. *)
Definition indented_hash_input : string := text [" #k=v"]%string.
Definition empty_name_input : string := text ["[]"; "k=v"]%string.
Definition inline_comment_input : string := text ["b=1 # note"]%string.
Definition semicolon_input : string := text ["k=a;b#c"]%string.

(** ** Strings by their characters *)

Fixpoint all_chars (P : ascii → bool) (s : string) : bool :=
  match s with
  | EmptyString => true
  | String c s' => P c && all_chars P s'
  end.

(** Every character of [s] is one that [TrimString] removes. *)
Definition blank (s : string) : bool := all_chars trimmable s.

(** The characters below 128: as an index they are the same whether [char]
    is signed or not, which [isspace] and the table of [Tokenize] rely on. *)
Definition seven_bit_char (c : ascii) : bool :=
  match c with
  | Ascii _ _ _ _ _ _ _ b7 => negb b7
  end.
Definition seven_bit (s : string) : bool := all_chars seven_bit_char s.

(** ** Array texts *)

(** The text of an array as the test program writes it: the elements
    between braces, a comma and a blank between two of them. *)
Definition array_text (elems : list string) : string :=
  "{" +:+ String.concat ", " elems +:+ "}".

Definition bool_text (b : bool) : string := if b then "true" else "false".

(** The elements with the closing brace added to the last of them, and the
    brace alone when there is none. *)
Fixpoint close_last (elems : list string) : list string :=
  match elems with
  | [] => ["}"%string]
  | [e] => [e +:+ "}"]
  | e :: elems' => e :: close_last elems'
  end.

(** ** Lines as entries *)

(** What a line adds to the tree, by the expressions [ParseSection]
    evaluates on it: nothing for a comment or an empty line, a header with
    the depth and the name of [ParseLine], or a pair with its trimmed key
    and its value. *)
Definition line_entry (line : string) : option entry :=
  if decide (at_ line 0 = "#" ∨ at_ line 0 = ";") then None
  else
    match TrimString line with
    | Throw _ => None
    | Ok line =>
        if decide (line = EmptyString) then None
        else if decide (at_ line 0 = "[") then
          match ParseLine (mkParser [] line 0) with
          | Ok (name, depth) => Some (Header depth name)
          | Throw _ => None
          end
        else
          match find "=" line with
          | None => None
          | Some n =>
              match
                rhs ← substr line (n + 1) (size_t (Z.of_nat (size line) - Z.of_nat n - 1));
                rhs ← TrimString rhs;
                v ← ParseValue rhs;
                lhs ← substr line 0 (Z.of_nat n);
                key ← TrimString lhs;
                Ok (Pair key v)
              with
              | Ok e => Some e
              | Throw _ => None
              end
          end
    end.

(** Two runs of the parse loop end alike: both throw, or both return, with
    the same store and the same reading section. *)
Definition same_tree (r r' : outcome (Parser * ptr)) : Prop :=
  match r, r' with
  | Ok (p, xi), Ok (p', xi') => sections p = sections p' ∧ xi = xi'
  | Throw _, Throw _ => True
  | _, _ => False
  end.

(** The labels [ParseSection] passes to [Error]. *)
Definition error_labels : list string :=
  ["Section with wrong depth."; "Duplicate section name on the same level.";
   "no '=' found"; "duplicated key found"]%string.

(** ** What ExportSection reads of a store *)

(** [h'] shows to [ExportSection] what [h] shows: the sections of [h] are
    in [h'] with the same depth, the same ordered lists and the same map
    entries under the listed keys and names. *)
Definition same_export (h h' : store) : Prop :=
  ∀ i s, h !! i = Some s →
    ∃ s', h' !! i = Some s' ∧ mDepth s' = mDepth s ∧
          mOrderedValues s' = mOrderedValues s ∧
          mOrderedSections s' = mOrderedSections s ∧
          (∀ k, k ∈ mOrderedValues s → mValues s' !! k = mValues s !! k) ∧
          (∀ n, n ∈ mOrderedSections s → mSections s' !! n = mSections s !! n).

(** ** Lookups on sections of the store *)

(** [section(n1)(n2)...(nk)], from the section at [p]. *)
Fixpoint Section_calls (h : store) (p : ptr) (names : list string) : outcome (store * ptr) :=
  match names with
  | [] => Ok (h, p)
  | name :: names' => '(h, q) ← Section_call h p name; Section_calls h q names'
  end.

(** [section[key]] on the section at [p]. *)
Definition subscript_at (h : store) (p : ptr) (xi_key : string) : outcome (string * store) :=
  s ← deref h p;
  let r := Section_subscript s xi_key in
  Ok (r.1, <[p := r.2]> h).

(** ** test.cpp *)

(** The text [main] streams into [ss]. *)
Definition main_ss : string := text [
    "# defining a configuration file                            ";
    "a-b*2=1 # an original named key!                           ";
    "b=1                                                        ";
    "";
    "# section 'e'                                              ";
    "[e]                                                        ";
    "ea=1 ; middle line comment                                 ";
    "eb=1                                                       ";
    "";
    "# section 'c'                                              ";
    "[c]                                                        ";
    "ca=2                                                       ";
    "cb=2 # another middle line comment                         ";
    "";
    "# nested section in 'e' called 'd'                         ";
    "[[d]]                                                      ";
    "da=3.0                                                     ";
    "db={3, 4, 5}  ; <- look an integer vector...               ";
    "";
    "# section 'e'                                              ";
    "[A]                                                        ";
    "Aa=true                                                    ";
    "A-b=foo-bar # a key with an unusual character inside it    "
  ]%string.

(** What a run of [main] leaves: the text sent to [std::cout], the local
    variables, [config] after [Clear()] with its stream members, and the
    returned value. *)
Record main_result (float : Type) : Type := mkMainResult {
  main_cout : string;
  main_a : Z;
  main_da : float;
  main_db : list Z;
  main_aa : bool;
  main_ab : string;
  main_config : Parser;
  main_config_streams : Parser_streams;
  main_return : Z
}.
Arguments mkMainResult {float}.
Arguments main_cout {float}.
Arguments main_a {float}.
Arguments main_da {float}.
Arguments main_db {float}.
Arguments main_aa {float}.
Arguments main_ab {float}.
Arguments main_config {float}.
Arguments main_config_streams {float}.
Arguments main_return {float}.

Section Test.

Variable float : Type.
Variable stof : string → outcome float.
Variable NDEBUG : bool.

(** [int main()]; [config $] is [config.Get()], and [config], constructed
    on the stream [ss], has the stream members [Parser_streams_new]. *)
Definition main : option (outcome (main_result float)) :=
  match Parser_new main_ss with
  | Throw e => Some (Throw e)
  | Ok config =>
      match Export NDEBUG config with
      | None => None
      | Some (Throw e) => Some (Throw e)
      | Some (Ok out) =>
          Some (
            let h := sections config in
            '(v, h) ← subscript_at h (Get config) "a-b*2";
            a ← GetAs_int v;
            '(h, c) ← Section_call h (Get config) "c";
            '(h, d) ← Section_call h c "d";
            '(v, h) ← subscript_at h d "da";
            da ← GetAs_float float stof v;
            '(h, c) ← Section_call h (Get config) "c";
            '(h, d) ← Section_call h c "d";
            '(v, h) ← subscript_at h d "db";
            db ← GetAs_vector_int NDEBUG v;
            '(h, A) ← Section_call h (Get config) "A";
            '(v, h) ← subscript_at h A "Aa";
            let aa := GetAs_bool v in
            '(h, A) ← Section_call h (Get config) "A";
            '(ab, h) ← subscript_at h A "A-b";
            '(config, streams) ← Clear (mkParser h (mConfigLine config) (mLineNumber config))
                                   Parser_streams_new;
            Ok (mkMainResult out a da db aa ab config streams 1))
      end
  end.

End Test.

(** * Properties *)

(** ** String primitives *)

Lemma find_lt c s i : find c s = Some i → i < size s.
Proof.
  unfold size. revert i. induction s as [|d s IH]; intros i; simpl; [done|].
  case_decide; [intros [= <-]; lia|].
  destruct (find c s) as [j|]; simpl; [|done].
  intros [= <-]. specialize (IH j eq_refl). lia.
Qed.

Lemma substr_prefix s n : n ≤ size s → substr s 0 (Z.of_nat n) = Ok (take_str n s).
Proof.
  intros Hn. unfold substr. case_decide; [lia|]. simpl.
  do 2 f_equal. lia.
Qed.

Lemma erase_remove_if_without_space s t :
  without_space s t ↔ erase_remove_if isspace s = t.
Proof.
  split.
  - induction 1 as [|c s t Hc _ IH|c s t Hc _ IH]; simpl; [done|..]; rewrite Hc; congruence.
  - intros <-. induction s as [|c s IH]; simpl; [constructor|].
    destruct (isspace c) eqn:Hc; by constructor.
Qed.

(** ** ParseValue *)

(** What the loop of [ParseValue] computes: the cut is at the first ['#']
    when there is one, and at the first [';'] only when there is no ['#']. *)
Lemma ParseValue_cut s :
  ParseValue s =
    Ok match find "#" s with
       | Some i => take_str i s
       | None => match find ";" s with
                 | Some i => take_str i s
                 | None => s
                 end
       end.
Proof.
  unfold ParseValue, coment. simpl.
  destruct (find "#" s) as [i|] eqn:Hi.
  { apply substr_prefix. apply find_lt in Hi. lia. }
  destruct (find ";" s) as [j|] eqn:Hj; [|done].
  apply substr_prefix. apply find_lt in Hj. lia.
Qed.

Lemma stripComment_spec_no_comment s :
  find "#" s = None → find ";" s = None → stripComment_spec s = s.
Proof.
  induction s as [|c s IH]; simpl; [done|].
  destruct (decide (c = "#")) as [->|Hc]; [done|].
  destruct (decide (c = ";")) as [->|Hc']; [done|].
  rewrite decide_False by (intros [?|?]; congruence).
  destruct (find "#" s); simpl; [done|]. destruct (find ";" s); simpl; [done|].
  intros _ _. by rewrite IH.
Qed.

Lemma stripComment_spec_hash_first s i :
  find "#" s = Some i →
  (∀ j, find ";" s = Some j → i < j) →
  stripComment_spec s = take_str i s.
Proof.
  revert i. induction s as [|c s IH]; intros i; simpl; [done|].
  destruct (decide (c = "#")) as [->|Hc].
  { intros [= <-] _. by rewrite decide_True by auto. }
  destruct (find "#" s) as [i'|]; simpl; [|done].
  intros [= <-] Hlt.
  destruct (decide (c = ";")) as [->|Hc'].
  { specialize (Hlt 0 eq_refl). lia. }
  rewrite decide_False by (intros [?|?]; congruence). simpl. f_equal.
  apply IH; [done|]. intros j Hj. rewrite Hj in Hlt. specialize (Hlt (S j) eq_refl). lia.
Qed.

Lemma stripComment_spec_semicolon_only s j :
  find "#" s = None → find ";" s = Some j → stripComment_spec s = take_str j s.
Proof.
  revert j. induction s as [|c s IH]; intros j; simpl; [done|].
  destruct (decide (c = "#")) as [->|Hc]; [done|].
  destruct (decide (c = ";")) as [->|Hc'].
  { intros _ [= <-]. by rewrite decide_True by auto. }
  rewrite decide_False by (intros [?|?]; congruence).
  destruct (find "#" s); simpl; [done|]. destruct (find ";" s) as [j'|]; simpl; [|done].
  intros _ [= <-]. simpl. f_equal. by apply IH.
Qed.

(** [ParseValue] agrees with the specification's stripping on every value
    whose first comment character is a ['#'] or that has no ['#'] at all. *)
Lemma ParseValue_agrees s :
  (∀ i j, find "#" s = Some i → find ";" s = Some j → i < j) →
  ParseValue s = Ok (stripComment_spec s).
Proof.
  intros H. rewrite ParseValue_cut. f_equal.
  destruct (find "#" s) as [i|] eqn:Hi.
  - symmetry. apply stripComment_spec_hash_first; [done|]. intros j Hj. by apply H.
  - destruct (find ";" s) as [j|] eqn:Hj.
    + symmetry. by apply stripComment_spec_semicolon_only.
    + symmetry. by apply stripComment_spec_no_comment.
Qed.

(** C3: on the value ["a;b#c"], whose [';'] comes before its ['#'],
    [ParseValue] cuts at the ['#'] and returns ["a;b"], although the prefix
    before the earliest comment character is ["a"]. *)
Theorem ParseValue_semicolon_before_hash :
  ParseValue "a;b#c" = Ok "a;b"%string ∧ stripComment_spec "a;b#c" = "a"%string.
Proof. split; reflexivity. Qed.

(** ** Casting *)

(** The condition asserted by [CleanArrayString] only says that the string
    is not empty: its other two disjuncts cannot hold when it is empty. *)
Lemma CleanArrayString_assert_cond s :
  negb (bool_decide (s = EmptyString))
  || bool_decide (at_ s 0 = "{")
  || bool_decide (at_ s (size s) = "}") = negb (bool_decide (s = EmptyString)).
Proof. by destruct s. Qed.

(** No shape of a non-empty value is rejected. *)
Lemma CleanArrayString_nonempty (NDEBUG : bool) s :
  s ≠ EmptyString → ∃ vec, CleanArrayString NDEBUG s = Ok vec.
Proof.
  intros Hs. unfold CleanArrayString.
  rewrite CleanArrayString_assert_cond, bool_decide_eq_false_2 by done.
  replace (assert NDEBUG (negb false)) with (Ok tt : outcome unit) by (by destruct NDEBUG).
  unfold substr. rewrite decide_False; [by eexists|].
  destruct s; [done|]. unfold size. simpl. lia.
Qed.

(** C4: the values ["3,4"], ["{3,4"] and ["x3,4}"] are not empty and lack the
    opening or the closing brace, yet casting each of them to an integer
    array returns a result instead of failing; only the empty value fails. *)
Theorem GetAs_vector_int_without_braces (NDEBUG : bool) :
  GetAs_vector_int NDEBUG "3,4" = Ok [4%Z] ∧
  GetAs_vector_int NDEBUG "{3,4" = Ok [3%Z; 4%Z] ∧
  GetAs_vector_int NDEBUG "x3,4}" = Ok [3%Z; 4%Z] ∧
  (∃ e, GetAs_vector_int NDEBUG "" = Throw e).
Proof. destruct NDEBUG; repeat split; try reflexivity; eexists; reflexivity. Qed.

(** C6, as the specification words it, fails on its own example: with both
    braces stripped the tokens of ["{3, 4, 5}"] would be ["3"], ["4"] and
    ["5"], but [CleanArrayString] cuts off the first character only and
    delivers ["3"], ["4"] and ["5}"]: the closing brace is not stripped. *)
Lemma CleanArrayString_keeps_closing_brace :
  CleanArrayString_spec "{3, 4, 5}" = ["3"; "4"; "5"]%string ∧
  CleanArrayString false "{3, 4, 5}" = Ok ["3"; "4"; "5}"]%string ∧
  CleanArrayString true "{3, 4, 5}" = Ok ["3"; "4"; "5}"]%string ∧
  CleanArrayString false "{3, 4, 5}" ≠ Ok (CleanArrayString_spec "{3, 4, 5}").
Proof. by split_and!. Qed.

(** C6, amended: casting ["{3, 4, 5}"] to an integer array yields
    [3; 4; 5], step by step: [substr] cuts off the opening brace and nothing
    else, the white space is removed, the rest is split at the commas into
    ["3"], ["4"] and ["5}"], the closing brace staying at the end of the last
    token, where [std::stoi] ignores it, and the tokens are cast in order. *)
Theorem GetAs_vector_int_3_4_5 (NDEBUG : bool) :
  substr "{3, 4, 5}" 1 (size_t (Z.of_nat (size "{3, 4, 5}") - 1)) = Ok "3, 4, 5}"%string ∧
  erase_remove_if isspace "3, 4, 5}" = "3,4,5}"%string ∧
  Tokenize "3,4,5}" "," = ["3"; "4"; "5}"]%string ∧
  CleanArrayString NDEBUG "{3, 4, 5}" = Ok ["3"; "4"; "5}"]%string ∧
  cast_each stoi ["3"; "4"; "5}"]%string = Ok [3%Z; 4%Z; 5%Z] ∧
  GetAs_vector_int NDEBUG "{3, 4, 5}" = Ok [3%Z; 4%Z; 5%Z].
Proof. by destruct NDEBUG. Qed.

(** In a vector of booleans the brace left in the last token shows: the
    last ["true"] of ["{true, false, true}"] is read as [false]. *)
Lemma GetAs_vector_bool_last_token (NDEBUG : bool) :
  GetAs_vector_bool NDEBUG "{true, false, true}" = Ok [true; false; false].
Proof. by destruct NDEBUG. Qed.

Lemma GetAs_int_examples :
  GetAs_int " 4 2 " = Ok 42%Z ∧ GetAs_int "-7x" = Ok (-7)%Z ∧
  GetAs_int "abc" = Throw invalid_argument ∧
  GetAs_int "2147483648" = Throw out_of_range.
Proof. by split_and!. Qed.

(** C7: casting to boolean yields [true] exactly when the input without its
    white space is the text ["true"]; ["true"] yields [true], ["True"] and
    ["false"] yield [false]; the cast is a total function. *)
Theorem GetAs_bool_true_iff :
  (∀ s, GetAs_bool s = true ↔ without_space s "true") ∧
  (∀ s, GetAs_bool s = true ↔ erase_remove_if isspace s = "true"%string) ∧
  GetAs_bool "true" = true ∧ GetAs_bool "True" = false ∧ GetAs_bool "false" = false.
Proof.
  assert (∀ s, GetAs_bool s = true ↔ erase_remove_if isspace s = "true"%string) as H.
  { intros s. unfold GetAs_bool. case_decide; naive_solver. }
  split_and!; try done.
  intros s. by rewrite erase_remove_if_without_space.
Qed.

(** ** Section::operator[] *)

(** C5: looking up a key that is absent returns the empty string and leaves
    the section with an empty-valued entry for the key in [mValues], while
    [mOrderedValues] and every other member are unchanged. *)
Theorem Section_subscript_absent (s : Section) (xi_key : string) :
  mValues s !! xi_key = None →
  ∃ s', Section_subscript s xi_key = (EmptyString, s') ∧
        mValues s' = <[xi_key := EmptyString]> (mValues s) ∧
        mValues s' !! xi_key = Some EmptyString ∧
        mOrderedValues s' = mOrderedValues s ∧
        mSections s' = mSections s ∧ mOrderedSections s' = mOrderedSections s ∧
        mParent s' = mParent s ∧ mDepth s' = mDepth s.
Proof.
  intros Hk. unfold Section_subscript. rewrite Hk. eexists. split; [done|].
  simpl. split_and!; try done.
  by rewrite lookup_insert_eq.
Qed.

Lemma Section_subscript_absent_witness :
  mValues Section_default !! "k"%string = None ∧
  ∃ s', Section_subscript Section_default "k" = (EmptyString, s') ∧
        mValues s' = <["k"%string := EmptyString]> (mValues Section_default) ∧
        mValues s' !! "k"%string = Some EmptyString ∧
        mOrderedValues s' = mOrderedValues Section_default ∧
        mSections s' = mSections Section_default ∧
        mOrderedSections s' = mOrderedSections Section_default ∧
        mParent s' = mParent Section_default ∧ mDepth s' = mDepth Section_default.
Proof.
  split; [reflexivity|].
  apply (Section_subscript_absent Section_default "k"). reflexivity.
Defined.

(** ** Tokenize *)

Lemma size_0 t : size t = 0 ↔ t = EmptyString.
Proof. by destruct t. Qed.

Lemma modify_back_snoc f init b : modify_back f (init ++ [b]) = init ++ [f b].
Proof.
  induction init as [|x init IH]; [done|].
  simpl. rewrite IH. by destruct init.
Qed.

Lemma back_size_snoc init b : back_size (init ++ [b]) = size b.
Proof. unfold back_size. by rewrite last_snoc. Qed.

Lemma pop_empty_back_snoc init b :
  Forall nonempty init →
  pop_empty_back (init ++ [b]) = if decide (size b = 0) then init else init ++ [b].
Proof.
  induction 1 as [|x v Hx Hv IH]; simpl.
  { by case_decide. }
  rewrite IH. case_decide.
  - destruct v; [|done]. rewrite decide_False; [done|]. by rewrite size_0.
  - by destruct v.
Qed.

(** Throughout the loop the vector is not empty and only its last token
    can be empty. *)
Lemma Tokenize_loop_tokens ds s init b :
  Forall nonempty init →
  ∃ init' b', Tokenize_loop ds s (init ++ [b]) = init' ++ [b'] ∧ Forall nonempty init'.
Proof.
  revert init b. induction s as [|ch s IH]; intros init b Hinit; simpl; [by eauto|].
  destruct (delimiter_map ds ch); simpl.
  - rewrite back_size_snoc. case_decide as Hb.
    + rewrite <-(assoc_L (++)). simpl.
      replace (init ++ [b; EmptyString]) with ((init ++ [b]) ++ [EmptyString])
        by by rewrite <-(assoc_L (++)).
      apply IH. apply Forall_app. split; [done|]. apply Forall_singleton.
      unfold nonempty. by rewrite <-size_0.
    + by apply IH.
  - rewrite modify_back_snoc. by apply IH.
Qed.

Lemma Tokenize_nonempty s ds : Forall nonempty (Tokenize s ds).
Proof.
  unfold Tokenize.
  destruct (Tokenize_loop_tokens ds s [] EmptyString) as (init & b & Heq & Hinit); [done|].
  simpl in Heq. rewrite Heq.
  rewrite pop_empty_back_snoc by done. case_decide as Hb; [done|].
  apply Forall_app. split; [done|]. apply Forall_singleton.
  unfold nonempty. by rewrite <-size_0.
Qed.

(** C10: [Tokenize] never returns an empty token, whatever the string and
    the delimiters, so the empty tokens of consecutive or leading commas are
    dropped; casting ["{1,,2}"] to an integer array yields [1; 2], and
    ["{,1}"] yields [1]. *)
Theorem GetAs_vector_int_drops_empty_tokens :
  (∀ s ds, Forall (λ t, t ≠ EmptyString) (Tokenize s ds)) ∧
  (∀ NDEBUG, GetAs_vector_int NDEBUG "{1,,2}" = Ok [1%Z; 2%Z]) ∧
  (∀ NDEBUG, GetAs_vector_int NDEBUG "{,1}" = Ok [1%Z]) ∧
  (∀ NDEBUG, CleanArrayString NDEBUG "{1,,2}" = Ok ["1"; "2}"]%string).
Proof.
  split_and!; [apply Tokenize_nonempty|by intros []..].
Qed.

(** ** The parsed tree *)

#[global] Instance grows_refl : Reflexive grows.
Proof. intros s. by split. Qed.

#[global] Instance grows_trans : Transitive grows.
Proof.
  intros s1 s2 s3 [] []. split; try (etrans; eassumption); congruence.
Qed.

#[global] Instance store_grows_refl : Reflexive store_grows.
Proof. intros h i s Hs. by exists s. Qed.

#[global] Instance store_grows_trans : Transitive store_grows.
Proof.
  intros h1 h2 h3 H12 H23 i s Hs.
  destruct (H12 i s Hs) as (s2 & Hs2 & Hg2).
  destruct (H23 i s2 Hs2) as (s3 & Hs3 & Hg3).
  exists s3. split; [done|]. by etrans.
Qed.

Lemma grows_add_child name q ps :
  mSections ps !! name = None → grows ps (add_child name q ps).
Proof.
  intros Hn. split; simpl; try done.
  - by apply prefix_app_r.
  - by apply insert_subseteq.
Qed.

Lemma grows_add_pair key v s :
  mValues s !! key = None → grows s (add_pair key v s).
Proof.
  intros Hn. split; simpl; try done.
  - by apply prefix_app_r.
  - by apply insert_subseteq.
Qed.

Lemma ordered_add_child name q ps :
  mSections ps !! name = None → ordered ps → ordered (add_child name q ps).
Proof.
  intros Hn [H1 H2 H3 H4]. split; simpl; try done.
  - apply NoDup_app. split_and!; [done| |apply NoDup_singleton].
    intros k Hk ->%list_elem_of_singleton.
    apply H4, elem_of_dom in Hk. rewrite Hn in Hk. by destruct Hk.
  - intros k. rewrite elem_of_app, list_elem_of_singleton, dom_insert, elem_of_union, elem_of_singleton, H4. tauto.
Qed.

Lemma ordered_add_pair key v s :
  mValues s !! key = None → ordered s → ordered (add_pair key v s).
Proof.
  intros Hn [H1 H2 H3 H4]. split; simpl; try done.
  - apply NoDup_app. split_and!; [done| |apply NoDup_singleton].
    intros k Hk ->%list_elem_of_singleton.
    apply H2, elem_of_dom in Hk. rewrite Hn in Hk. by destruct Hk.
  - intros k. rewrite elem_of_app, list_elem_of_singleton, dom_insert, elem_of_union, elem_of_singleton, H2. tauto.
Qed.

Lemma store_grows_insert h i s s' :
  h !! i = Some s → grows s s' → store_grows h (<[i := s']> h).
Proof.
  intros Hi Hg j sj Hj. destruct (decide (i = j)) as [->|Hne].
  - exists s'. rewrite list_lookup_insert_eq by by eapply lookup_lt_Some.
    split; [done|]. congruence.
  - exists sj. by rewrite list_lookup_insert_ne.
Qed.

Lemma store_grows_app h l : store_grows h (h ++ l).
Proof. intros i s Hs. exists s. split; [|done]. by apply lookup_app_l_Some. Qed.

(** *** The two store updates of [ParseSection] in closed form *)

Lemma ParseLine_depth_pos line : at_ line 0 = "[" → 0 < ParseLine_depth line.
Proof. destruct line as [|c line]; simpl; [done|]. intros ->. lia. Qed.

Lemma wf_parent_depth h i s p :
  wf_store h → h !! i = Some s → mParent s = Some p →
  ∃ ps, h !! p = Some ps ∧ mDepth s = mDepth ps + 1.
Proof.
  intros Hwf Hi Hp.
  destruct (wf_parent h Hwf i s p Hi Hp) as (ps & name & Hps & Hname).
  destruct (wf_child h Hwf p ps name i Hps Hname) as (c & Hc & _ & Hd).
  exists ps. split; [done|]. congruence.
Qed.

Lemma wf_depth_parent h i s :
  wf_store h → h !! i = Some s → 0 < mDepth s →
  ∃ p ps, mParent s = Some p ∧ h !! p = Some ps ∧ mDepth s = mDepth ps + 1.
Proof.
  intros Hwf Hi Hd. destruct (mParent s) as [p|] eqn:Hp.
  - destruct (wf_parent_depth h i s p Hwf Hi Hp) as (ps & ? & ?). eauto.
  - destruct (wf_orphan h Hwf i s Hi Hp). lia.
Qed.

Lemma deref_Some h p s : h !! p = Some s → deref h p = Ok s.
Proof. intros H. unfold deref. by rewrite H. Qed.

Lemma ancestor_Ok h n i s :
  wf_store h → h !! i = Some s → n ≤ mDepth s →
  ∃ q qs, ancestor h n i = Ok q ∧ h !! q = Some qs ∧ mDepth qs + n = mDepth s.
Proof.
  intros Hwf. revert i s. induction n as [|n IH]; intros i s Hi Hn; simpl.
  { exists i, s. split_and!; [done..|lia]. }
  destruct (wf_depth_parent h i s Hwf Hi) as (p & ps & Hp & Hps & Hd); [lia|].
  rewrite (deref_Some _ _ _ Hi). simpl. rewrite Hp. simpl.
  destruct (IH p ps Hps) as (q & qs & Hq & Hqs & Hdq); [lia|].
  exists q, qs. split_and!; [done..|lia].
Qed.

Lemma update_lookup h p f s : h !! p = Some s → update h p f = <[p := f s]> h.
Proof. intros Hp. unfold update. by rewrite Hp. Qed.

Lemma bind_Ok {A B} (m : outcome A) (f : A → outcome B) b :
  m ≫= f = Ok b → ∃ a, m = Ok a ∧ f a = Ok b.
Proof. destruct m as [a|e]; [by exists a|done]. Qed.

(** A header that is accepted allocates one node: the parent [P] is the
    section read so far or one of its ancestors, it lies one level above the
    header's depth, it had no child of that name, and the new node becomes
    its last child. *)
Lemma ParseSection_open_Ok this xi name depth h' lp :
  wf_store (sections this) →
  is_Some (sections this !! xi) →
  0 < depth →
  ParseSection_open this xi name depth = Ok (h', lp) →
  ∃ P ps n,
    ancestor (sections this) n xi = Ok P ∧
    sections this !! P = Some ps ∧ mDepth ps + 1 = depth ∧
    mSections ps !! name = None ∧
    lp = length (sections this) ∧
    h' = <[P := add_child name lp ps]> (sections this) ++ [new_child P depth].
Proof.
  intros Hwf [cur Hcur] Hpos.
  unfold ParseSection_open.
  rewrite (deref_Some _ _ _ Hcur). simpl.
  case_decide as Hdeep; [done|].
  assert (∃ P ps n, (if decide (mDepth cur = depth - 1) then Ok xi
                   else deref_opt (mParent cur) ≫= λ lp, ancestor (sections this) (mDepth cur - depth) lp)
                  = Ok P ∧ ancestor (sections this) n xi = Ok P ∧
                  sections this !! P = Some ps ∧ mDepth ps + 1 = depth)
    as (P & ps & n & -> & Hn & HP & Hd).
  { case_decide as Hlevel.
    - exists xi, cur, 0. split_and!; [done..|lia].
    - destruct (wf_depth_parent _ xi cur Hwf Hcur) as (p & ps & Hp & Hps & Hdp); [lia|].
      rewrite Hp. simpl.
      destruct (ancestor_Ok _ (mDepth cur - depth) p ps Hwf Hps) as (q & qs & Hq & Hqs & Hdq); [lia|].
      exists q, qs, (S (mDepth cur - depth)). split_and!; [done| |done|lia].
      simpl. rewrite (deref_Some _ _ _ Hcur). simpl. by rewrite Hp. }
  simpl. unfold Section_call. rewrite (deref_Some _ _ _ HP). simpl.
  destruct (mSections ps !! name) as [q|] eqn:Hname; simpl.
  { destruct (wf_child _ Hwf P ps name q HP Hname) as (c & Hc & _ & Hdc).
    rewrite (deref_Some _ _ _ Hc). simpl. rewrite decide_True by lia. done. }
  pose proof (lookup_lt_Some _ _ _ HP) as HPlt.
  set (len := length (sections this)) in *.
  set (ps1 := set_mSections (insert name len) ps).
  assert ((<[P:=ps1]> (sections this) ++ [Section_default]) !! len = Some Section_default) as Hlen.
  { rewrite lookup_app_r by (by rewrite length_insert).
    by rewrite length_insert, Nat.sub_diag. }
  rewrite (deref_Some _ _ _ Hlen). simpl.
  intros [= <- <-]. exists P, ps, n. split_and!; [done..|].
  rewrite (update_lookup _ len _ _ Hlen).
  replace len with (length (<[P:=ps1]> (sections this)) + 0) at 1
    by (rewrite length_insert; unfold len; lia).
  rewrite insert_app_r. simpl.
  erewrite update_lookup; last first.
  { rewrite lookup_app_l by (by rewrite length_insert).
    by apply list_lookup_insert_eq. }
  rewrite insert_app_l by (by rewrite length_insert).
  by rewrite list_insert_insert_eq.
Qed.

Lemma ParseSection_insert_Ok this xi cur key v h' :
  sections this !! xi = Some cur →
  ParseSection_insert this xi key v = Ok h' →
  mValues cur !! key = None ∧ h' = <[xi := add_pair key v cur]> (sections this).
Proof.
  intros Hcur. unfold ParseSection_insert.
  rewrite (deref_Some _ _ _ Hcur). simpl.
  destruct (mValues cur !! key) eqn:Hkey; [done|].
  intros [= <-]. split; [done|]. by apply update_lookup.
Qed.

Lemma ParseSection_header_Ok this xi h' lp :
  at_ (mConfigLine this) 0 = "[" →
  ParseSection_header this xi = Ok (h', lp) →
  ∃ name depth, 0 < depth ∧ ParseSection_open this xi name depth = Ok (h', lp).
Proof.
  intros Hline%ParseLine_depth_pos. unfold ParseSection_header, ParseLine.
  intros Hrun. apply bind_Ok in Hrun as ([name depth] & Hpl & Hrun).
  apply bind_Ok in Hpl as (name' & _ & [= <- <-]). eauto.
Qed.

Lemma ParseSection_pair_Ok this xi h' :
  ParseSection_pair this xi = Ok h' →
  ∃ key v, ParseSection_insert this xi key v = Ok h'.
Proof.
  unfold ParseSection_pair.
  destruct (find _ _) as [n|]; [|done]. intros Hrun.
  apply bind_Ok in Hrun as (rhs & _ & Hrun).
  apply bind_Ok in Hrun as (rhs' & _ & Hrun).
  apply bind_Ok in Hrun as (v & _ & Hrun).
  apply bind_Ok in Hrun as (lhs & _ & Hrun).
  apply bind_Ok in Hrun as (key & _ & Hrun). eauto.
Qed.

(** *** Both updates keep the store well formed *)

Lemma wf_store_add_pair h xi s key v :
  wf_store h → h !! xi = Some s → mValues s !! key = None →
  wf_store (<[xi := add_pair key v s]> h).
Proof.
  intros Hwf Hxi Hkey.
  pose proof (lookup_lt_Some _ _ _ Hxi) as Hlt.
  assert (∀ i s', <[xi := add_pair key v s]> h !! i = Some s' →
            ∃ s0, h !! i = Some s0 ∧ mSections s' = mSections s0 ∧
                  mParent s' = mParent s0 ∧ mDepth s' = mDepth s0 ∧
                  (ordered s0 → ordered s')) as Hback.
  { intros i s' Hi. destruct (decide (xi = i)) as [<-|Hne].
    - rewrite list_lookup_insert_eq in Hi by done. injection Hi as <-.
      exists s. split_and!; try done. by apply ordered_add_pair.
    - rewrite list_lookup_insert_ne in Hi by done. by exists s'. }
  pose proof (store_grows_insert h xi s _ Hxi (grows_add_pair key v s Hkey)) as Hfwd.
  split.
  - destruct (wf_root h Hwf) as (r & Hr & Hrp).
    destruct (Hfwd _ _ Hr) as (r' & Hr' & Hg). exists r'. split; [done|].
    by rewrite (grows_mParent _ _ Hg).
  - intros i s' name q Hi Hname.
    destruct (Hback i s' Hi) as (s0 & Hs0 & HS & HP & HD & _).
    rewrite HS in Hname.
    destruct (wf_child h Hwf i s0 name q Hs0 Hname) as (c & Hc & Hcp & Hcd).
    destruct (Hfwd _ _ Hc) as (c' & Hc' & Hg). exists c'. split; [done|].
    rewrite (grows_mParent _ _ Hg), (grows_mDepth _ _ Hg). split; [done|]. lia.
  - intros i s' p Hi Hp.
    destruct (Hback i s' Hi) as (s0 & Hs0 & HS & HP & HD & _).
    rewrite HP in Hp.
    destruct (wf_parent h Hwf i s0 p Hs0 Hp) as (ps & name & Hps & Hname).
    destruct (Hfwd _ _ Hps) as (ps' & Hps' & Hg). exists ps', name. split; [done|].
    eapply lookup_weaken; [done|]. apply Hg.
  - intros i s' Hi Hp.
    destruct (Hback i s' Hi) as (s0 & Hs0 & HS & HP & HD & _).
    rewrite HP in Hp. rewrite HD. by apply (wf_orphan h Hwf i s0).
  - intros i s' Hi.
    destruct (Hback i s' Hi) as (s0 & Hs0 & _ & _ & _ & Ho).
    apply Ho. by apply (wf_ordered h Hwf i).
Qed.

Lemma store_grows_add_child h P ps name :
  h !! P = Some ps → mSections ps !! name = None →
  store_grows h (<[P := add_child name (length h) ps]> h ++ [new_child P (mDepth ps + 1)]).
Proof.
  intros HP Hname. etrans; [|apply store_grows_app].
  eapply store_grows_insert; [done|]. by apply grows_add_child.
Qed.

Lemma wf_store_add_child h P ps name :
  wf_store h → h !! P = Some ps → mSections ps !! name = None →
  wf_store (<[P := add_child name (length h) ps]> h ++ [new_child P (mDepth ps + 1)]).
Proof.
  intros Hwf HP Hname.
  pose proof (lookup_lt_Some _ _ _ HP) as Hlt.
  set (h' := <[P := add_child name (length h) ps]> h ++ [new_child P (mDepth ps + 1)]).
  pose proof (store_grows_add_child h P ps name HP Hname) as Hfwd. fold h' in Hfwd.
  assert (h' !! P = Some (add_child name (length h) ps)) as HP'.
  { unfold h'. rewrite lookup_app_l by (by rewrite length_insert).
    by apply list_lookup_insert_eq. }
  assert (h' !! length h = Some (new_child P (mDepth ps + 1))) as Hnew.
  { unfold h'. rewrite lookup_app_r by (by rewrite length_insert).
    by rewrite length_insert, Nat.sub_diag. }
  assert (∀ i s', h' !! i = Some s' →
            (i = length h ∧ s' = new_child P (mDepth ps + 1)) ∨
            (i = P ∧ s' = add_child name (length h) ps) ∨
            (i ≠ P ∧ h !! i = Some s')) as Hcases.
  { intros i s' Hi. unfold h' in Hi.
    apply lookup_app_Some in Hi as [Hi|[Hge Hi]].
    - destruct (decide (P = i)) as [<-|Hne].
      + rewrite list_lookup_insert_eq in Hi by done. injection Hi as <-. auto.
      + rewrite list_lookup_insert_ne in Hi by done. auto.
    - rewrite length_insert in Hge, Hi.
      apply list_lookup_singleton_Some in Hi as [Hi <-]. left. split; [lia|done]. }
  split.
  - destruct (wf_root h Hwf) as (r & Hr & Hrp).
    destruct (Hfwd _ _ Hr) as (r' & Hr' & Hg). exists r'. split; [done|].
    by rewrite (grows_mParent _ _ Hg).
  - intros i s' n q Hi Hn.
    destruct (Hcases i s' Hi) as [[-> ->]|[[-> ->]|[Hne Hi0]]].
    + done.
    + simpl in Hn. apply lookup_insert_Some in Hn as [[<- <-]|[Hnn Hn]].
      * eexists. split; [done|]. simpl. done.
      * destruct (wf_child h Hwf P ps n q HP Hn) as (c & Hc & Hcp & Hcd).
        destruct (Hfwd _ _ Hc) as (c' & Hc' & Hg). exists c'. split; [done|].
        rewrite (grows_mParent _ _ Hg), (grows_mDepth _ _ Hg). done.
    + destruct (wf_child h Hwf i s' n q Hi0 Hn) as (c & Hc & Hcp & Hcd).
      destruct (Hfwd _ _ Hc) as (c' & Hc' & Hg). exists c'. split; [done|].
      rewrite (grows_mParent _ _ Hg), (grows_mDepth _ _ Hg). done.
  - assert (∀ i s p, h !! i = Some s → mParent s = Some p →
              ∃ ps' n, h' !! p = Some ps' ∧ mSections ps' !! n = Some i) as Hold.
    { intros i s p Hi Hp.
      destruct (wf_parent h Hwf i s p Hi Hp) as (pp & n & Hpp & Hn).
      destruct (Hfwd _ _ Hpp) as (pp' & Hpp' & Hg). exists pp', n. split; [done|].
      eapply lookup_weaken; [done|]. apply Hg. }
    intros i s' p Hi Hp.
    destruct (Hcases i s' Hi) as [[-> ->]|[[-> ->]|[Hne Hi0]]].
    + simpl in Hp. injection Hp as <-. eexists _, name. split; [done|].
      simpl. by rewrite lookup_insert_eq.
    + simpl in Hp. by apply (Hold P ps).
    + by apply (Hold i s').
  - intros i s' Hi Hp.
    destruct (Hcases i s' Hi) as [[-> ->]|[[-> ->]|[Hne Hi0]]].
    + done.
    + simpl in Hp |- *. by apply (wf_orphan h Hwf P ps).
    + by apply (wf_orphan h Hwf i s').
  - intros i s' Hi.
    destruct (Hcases i s' Hi) as [[-> ->]|[[-> ->]|[Hne Hi0]]].
    + split; simpl; try apply NoDup_nil_2; intros k; rewrite dom_empty; set_solver.
    + apply ordered_add_child; [done|]. by apply (wf_ordered h Hwf P).
    + by apply (wf_ordered h Hwf i).
Qed.

(** *** The parse loop *)

Lemma wf_store_init : wf_store (sections Parser_init).
Proof.
  split; simpl.
  - by exists Section_default.
  - intros [|[|i]] s name q [= <-]; done.
  - intros [|[|i]] s p [= <-]; done.
  - intros [|[|i]] s [= <-]; done.
  - intros [|[|i]] s [= <-]. split; simpl; try apply NoDup_nil_2; intros k; rewrite dom_empty; set_solver.
Qed.

Lemma ParseSection_iteration_wf this xi this' xi' :
  wf_store (sections this) → is_Some (sections this !! xi) →
  ParseSection_iteration this xi = Ok (this', xi') →
  wf_store (sections this') ∧ is_Some (sections this' !! xi') ∧
  store_grows (sections this) (sections this').
Proof.
  intros Hwf Hxi. unfold ParseSection_iteration.
  case_decide as Hcomment; [by intros [= <- <-]|].
  intros Hrun. apply bind_Ok in Hrun as (line & _ & Hrun).
  case_decide as Hempty; [by injection Hrun as <- <-|].
  case_decide as Hopen.
  - apply bind_Ok in Hrun as ([h lp] & Hh & Hrun). injection Hrun as <- <-. simpl.
    apply ParseSection_header_Ok in Hh as (name & depth & Hpos & Hh); [|done].
    apply ParseSection_open_Ok in Hh as (P & ps & n & _ & HP & <- & Hname & -> & ->); [|done..].
    split_and!.
    + by apply wf_store_add_child.
    + rewrite lookup_app_r by (by rewrite length_insert).
      by rewrite length_insert, Nat.sub_diag.
    + by apply store_grows_add_child.
  - apply bind_Ok in Hrun as (h & Hh & Hrun). injection Hrun as <- <-. simpl.
    destruct Hxi as [cur Hcur].
    apply ParseSection_pair_Ok in Hh as (key & v & Hh).
    eapply ParseSection_insert_Ok in Hh as [Hkey ->]; [|done].
    split_and!.
    + by apply wf_store_add_pair.
    + rewrite list_lookup_insert_eq by (by eapply lookup_lt_Some). eauto.
    + eapply store_grows_insert; [done|]. by apply grows_add_pair.
Qed.

Lemma ParseSection_wf lines this xi p :
  wf_store (sections this) → is_Some (sections this !! xi) →
  ParseSection lines this xi = Ok p →
  wf_store (sections p) ∧ store_grows (sections this) (sections p).
Proof.
  revert this xi. induction lines as [|line lines IH]; intros this xi Hwf Hxi; simpl.
  { by intros [= <-]. }
  intros H. apply bind_Ok in H as ([this' xi'] & Hit & H).
  apply ParseSection_iteration_wf in Hit as (Hwf' & Hxi' & Hg); [|done..].
  destruct (IH _ _ Hwf' Hxi' H) as [Hwfp Hgp]. split; [done|]. by etrans.
Qed.

(** A parse that succeeds on [l1 ++ l2] succeeds on [l1], and goes on from
    the parser reached there. *)
Lemma ParseSection_app l1 l2 this xi p :
  wf_store (sections this) → is_Some (sections this !! xi) →
  ParseSection (l1 ++ l2) this xi = Ok p →
  ∃ p1 xi1, ParseSection l1 this xi = Ok p1 ∧ wf_store (sections p1) ∧
            is_Some (sections p1 !! xi1) ∧ ParseSection l2 p1 xi1 = Ok p.
Proof.
  revert this xi. induction l1 as [|line l1 IH]; intros this xi Hwf Hxi; simpl.
  { intros H. by exists this, xi. }
  intros H. apply bind_Ok in H as ([this' xi'] & Hit & H). rewrite Hit. simpl.
  apply ParseSection_iteration_wf in Hit as (Hwf' & Hxi' & _); [|done..].
  by apply IH.
Qed.

(** C8: in the tree of a successful parse the root has depth 0 and no
    parent; every other section has a parent, is registered in that parent's
    [mSections], and its depth is the parent's depth plus one; the same
    holds from parent to child, for every entry of every [mSections]. *)
Theorem parsed_depths (xi_file : string) (p : Parser) :
  Parser_new xi_file = Ok p →
  (∃ r, sections p !! root = Some r ∧ mDepth r = 0 ∧ mParent r = None) ∧
  (∀ i s, sections p !! i = Some s → i ≠ root →
     ∃ P ps name, mParent s = Some P ∧ sections p !! P = Some ps ∧
                  mSections ps !! name = Some i ∧ mDepth s = mDepth ps + 1) ∧
  (∀ i s name q, sections p !! i = Some s → mSections s !! name = Some q →
     ∃ c, sections p !! q = Some c ∧ mParent c = Some i ∧ mDepth c = mDepth s + 1).
Proof.
  intros Hp. apply ParseSection_wf in Hp as [Hwf _]; [|apply wf_store_init|by eexists].
  split_and!.
  - destruct (wf_root _ Hwf) as (r & Hr & Hrp). exists r. split_and!; [done| |done].
    by destruct (wf_orphan _ Hwf _ _ Hr Hrp).
  - intros i s Hi Hne. destruct (mParent s) as [P|] eqn:HP.
    + destruct (wf_parent _ Hwf i s P Hi HP) as (ps & name & Hps & Hname).
      destruct (wf_parent_depth _ i s P Hwf Hi HP) as (ps' & Hps' & Hd).
      exists P, ps, name. split_and!; try done. congruence.
    + by destruct (wf_orphan _ Hwf _ _ Hi HP).
  - apply Hwf.
Qed.

Lemma parsed_depths_witness :
  ∃ p, Parser_new scenario = Ok p ∧
       (∃ r, sections p !! root = Some r ∧ mDepth r = 0 ∧ mParent r = None) ∧
       (∀ i s, sections p !! i = Some s → i ≠ root →
          ∃ P ps name, mParent s = Some P ∧ sections p !! P = Some ps ∧
                       mSections ps !! name = Some i ∧ mDepth s = mDepth ps + 1) ∧
       (∀ i s name q, sections p !! i = Some s → mSections s !! name = Some q →
          ∃ c, sections p !! q = Some c ∧ mParent c = Some i ∧ mDepth c = mDepth s + 1).
Proof.
  eexists. split; [vm_compute; reflexivity|].
  apply (parsed_depths scenario).
  vm_compute. reflexivity.
Defined.

(** C9: in the tree of a successful parse, [mOrderedValues] of every section
    has no duplicates and holds exactly the keys of [mValues], and
    [mOrderedSections] has no duplicates and holds exactly the names of
    [mSections].  Both are in insertion order: after any leading part of the
    input lines each of the two lists was a prefix of its final value, and
    the keys of each map were among the final ones. *)
Theorem parsed_orders (xi_file : string) (p : Parser) :
  Parser_new xi_file = Ok p →
  (∀ i s, sections p !! i = Some s →
     NoDup (mOrderedValues s) ∧ (∀ k, k ∈ mOrderedValues s ↔ k ∈ dom (mValues s)) ∧
     NoDup (mOrderedSections s) ∧ (∀ k, k ∈ mOrderedSections s ↔ k ∈ dom (mSections s))) ∧
  (∀ l1 l2, getlines xi_file = l1 ++ l2 →
     ∃ p1, ParseSection l1 Parser_init root = Ok p1 ∧
       ∀ i s1, sections p1 !! i = Some s1 →
         (∀ k, k ∈ mOrderedValues s1 ↔ k ∈ dom (mValues s1)) ∧
         (∀ k, k ∈ mOrderedSections s1 ↔ k ∈ dom (mSections s1)) ∧
         ∃ s, sections p !! i = Some s ∧
              mOrderedValues s1 `prefix_of` mOrderedValues s ∧
              mOrderedSections s1 `prefix_of` mOrderedSections s).
Proof.
  intros Hp. split.
  - apply ParseSection_wf in Hp as [Hwf _]; [|apply wf_store_init|by eexists].
    intros i s Hi. by destruct (wf_ordered _ Hwf i s Hi).
  - intros l1 l2 Hl. unfold Parser_new in Hp. rewrite Hl in Hp.
    apply ParseSection_app in Hp as (p1 & xi1 & Hp1 & Hwf1 & Hxi1 & Hp2);
      [|apply wf_store_init|by eexists].
    exists p1. split; [done|].
    apply ParseSection_wf in Hp2 as [_ Hg]; [|done..].
    intros i s1 Hi. destruct (wf_ordered _ Hwf1 i s1 Hi) as [_ Hv _ Hs].
    split_and!; [done..|].
    destruct (Hg i s1 Hi) as (s & Hs' & [H1 H2 _ _ _ _]). by exists s.
Qed.

Lemma parsed_orders_witness :
  ∃ p, Parser_new ordered_input = Ok p ∧
       (∃ r, sections p !! root = Some r ∧
             mOrderedValues r = ["b"; "a"]%string ∧
             mOrderedSections r = ["e"; "c"; "A"]%string) ∧
       (∀ i s, sections p !! i = Some s →
          NoDup (mOrderedValues s) ∧ (∀ k, k ∈ mOrderedValues s ↔ k ∈ dom (mValues s)) ∧
          NoDup (mOrderedSections s) ∧ (∀ k, k ∈ mOrderedSections s ↔ k ∈ dom (mSections s))).
Proof.
  eexists. split; [vm_compute; reflexivity|]. split.
  { eexists. split_and!.
    - vm_compute; reflexivity.
    - vm_compute; reflexivity.
    - vm_compute; reflexivity. }
  apply (parsed_orders ordered_input).
  vm_compute. reflexivity.
Defined.

(** ** Key/value lines with a comment *)

(** C2: parsing the line ["b=1 # note"] stores the key ["b"] with the value
    ["1 "]: the comment is cut off, the blank in front of it is kept, because
    the right-hand side is trimmed before the comment is removed. *)
Theorem pair_line_with_comment :
  ∃ p r, Parser_new "b=1 # note" = Ok p ∧ sections p !! root = Some r ∧
         mOrderedValues r = ["b"%string] ∧
         mValues r !! "b"%string = Some "1 "%string ∧
         mValues r !! "b"%string ≠ Some "1"%string.
Proof.
  do 2 eexists. split_and!.
  - vm_compute; reflexivity.
  - vm_compute; reflexivity.
  - vm_compute; reflexivity.
  - vm_compute; reflexivity.
  - by vm_compute.
Qed.

(** The scenario of the specification is exported and parsed back to the
    very same store. *)
Lemma export_parse_scenario (NDEBUG : bool) :
  ∃ p out p',
    Parser_new scenario = Ok p ∧
    Export NDEBUG p = Some (Ok out) ∧
    Parser_new out = Ok p' ∧ sections p' = sections p.
Proof.
  do 3 eexists. split_and!.
  - vm_compute; reflexivity.
  - destruct NDEBUG; vm_compute; reflexivity.
  - vm_compute; reflexivity.
  - vm_compute; reflexivity.
Qed.

(** The tree parsed from ["b=1 # note"] is exported as the line ["b=1 "],
    and parsing that text gives a tree whose value for ["b"] is ["1"], not
    the ["1 "] of the exported tree. *)
Lemma export_parse_loses_blank (NDEBUG : bool) :
  ∃ p out p' r r',
    Parser_new inline_comment_input = Ok p ∧
    Export NDEBUG p = Some (Ok out) ∧ out = text ["b=1 "]%string ∧
    Parser_new out = Ok p' ∧
    sections p !! root = Some r ∧ sections p' !! root = Some r' ∧
    mValues r !! "b"%string = Some "1 "%string ∧
    mValues r' !! "b"%string = Some "1"%string ∧
    sections p' ≠ sections p.
Proof.
  do 5 eexists. split_and!.
  - vm_compute; reflexivity.
  - destruct NDEBUG; vm_compute; reflexivity.
  - vm_compute; reflexivity.
  - vm_compute; reflexivity.
  - vm_compute; reflexivity.
  - vm_compute; reflexivity.
  - vm_compute; reflexivity.
  - vm_compute; reflexivity.
  - intros H. vm_compute in H. discriminate H.
Qed.

(** * Export followed by parse *)

(** ** Strings: append, size and the primitives *)

Lemma append_nil_l s : EmptyString +:+ s = s.
Proof. done. Qed.

Lemma append_cons c a b : String c a +:+ b = String c (a +:+ b).
Proof. done. Qed.

Lemma append_nil_r s : s +:+ EmptyString = s.
Proof. induction s as [|c s IH]; [done|]. by rewrite append_cons, IH. Qed.

Lemma append_assoc a b c : (a +:+ b) +:+ c = a +:+ b +:+ c.
Proof. induction a as [|x a IH]; [done|]. by rewrite !append_cons, IH. Qed.

Lemma size_app a b : size (a +:+ b) = size a + size b.
Proof. unfold size. induction a as [|x a IH]; [done|]. rewrite append_cons. simpl. by rewrite IH. Qed.

Lemma size_cons c s : size (String c s) = S (size s).
Proof. done. Qed.

Lemma size_repeat_char n c : size (repeat_char n c) = n.
Proof. unfold size. induction n as [|n IH]; [done|]. simpl. by rewrite IH. Qed.

Lemma take_str_app a b : take_str (size a) (a +:+ b) = a.
Proof. induction a as [|x a IH]; [by destruct b|]. rewrite append_cons. simpl. by rewrite IH. Qed.

Lemma take_str_all s : take_str (size s) s = s.
Proof. rewrite <-(append_nil_r s) at 2. apply take_str_app. Qed.

Lemma drop_str_app a b : drop_str (size a) (a +:+ b) = b.
Proof. induction a as [|x a IH]; [done|]. rewrite append_cons. simpl. by rewrite IH. Qed.

Lemma size_t_small z : (0 ≤ z < 2 ^ 64)%Z → size_t z = z.
Proof. intros. unfold size_t. by apply Z.mod_small. Qed.

(** [substr] of the second and of the first part of an append. *)
Lemma substr_app_r a b :
  (Z.of_nat (size b) < 2 ^ 64)%Z →
  substr (a +:+ b) (size a) (size_t (Z.of_nat (size b))) = Ok b.
Proof.
  intros Hb. unfold substr. rewrite size_app. case_decide; [lia|].
  rewrite size_t_small by lia. rewrite drop_str_app. f_equal.
  replace (Z.to_nat _) with (size b) by lia. apply take_str_all.
Qed.

Lemma substr_app_l a b : substr (a +:+ b) 0 (Z.of_nat (size a)) = Ok a.
Proof.
  rewrite substr_prefix by (rewrite size_app; lia). by rewrite take_str_app.
Qed.

Lemma find_app_None c a b : find c a = None → find c (a +:+ b) = (λ i, size a + i) <$> find c b.
Proof.
  induction a as [|x a IH]; simpl.
  { intros _. rewrite ?append_nil_l. by destruct (find c b). }
  rewrite ?append_cons. simpl. case_decide; [done|].
  destruct (find c a); [done|]. intros _. rewrite IH by done.
  destruct (find c b); done.
Qed.

Lemma find_app_cons c a b : find c a = None → find c (a +:+ String c b) = Some (size a).
Proof.
  intros Ha. rewrite find_app_None by done. simpl. rewrite decide_True by done. simpl.
  f_equal. lia.
Qed.

(** ** Lines *)

Lemma getlines_line s t : no_nl s → getlines (s +:+ String "010" t) = s :: getlines t.
Proof.
  unfold no_nl. induction s as [|c s IH]; simpl.
  { intros _. rewrite ?append_nil_l. simpl. try rewrite decide_True by done. done. }
  rewrite ?append_cons. simpl. case_decide as Hc; [done|].
  destruct (find "010" s) eqn:Hs; [done|]. intros _. by rewrite IH.
Qed.

(** ** TrimString on a string with nothing to trim *)

Lemma TrimString_sp_keeps s : keeps_first s → TrimString_sp s = 0.
Proof. destruct s as [|c s]; cbn [TrimString_sp keeps_first]; [done|]. unfold trimmable. by intros ->. Qed.

Lemma TrimString_ep_keeps s : keeps_last s → TrimString_ep s = (Z.of_nat (size s) - 1)%Z.
Proof.
  induction s as [|c s IH]; [done|].
  destruct s as [|d s].
  { cbn [TrimString_ep keeps_last]. unfold trimmable. by intros ->. }
  intros Hs. specialize (IH Hs). change (keeps_last (String c (String d s))) with (keeps_last (String d s)) in Hs.
  cbn [TrimString_ep] in IH |- *. rewrite size_cons in IH. cbn [TrimString_ep].
  rewrite !size_cons.
  destruct (0 <=? _)%Z eqn:Hle.
  - rewrite Z.leb_le in Hle.
    match goal with |- context [(0 <=? ?x + 1)%Z] => replace (0 <=? x + 1)%Z with true by (symmetry; apply Z.leb_le; lia) end.
    lia.
  - rewrite Z.leb_gt in Hle.
    destruct (trimmable d) eqn:Hd; unfold trimmable in Hd; rewrite Hd in IH |- *; simpl in *; lia.
Qed.

Lemma TrimString_id s :
  keeps_first s → keeps_last s → (Z.of_nat (size s) < 2 ^ 64)%Z → TrimString s = Ok s.
Proof.
  intros Hf Hl Hb. unfold TrimString.
  rewrite TrimString_sp_keeps, TrimString_ep_keeps by done.
  replace (_ - 1 - _ + 1)%Z with (Z.of_nat (size s)) by lia.
  rewrite size_t_small by lia. rewrite substr_prefix by done. by rewrite take_str_all.
Qed.

Lemma keeps_last_app a b : b ≠ EmptyString → keeps_last b → keeps_last (a +:+ b).
Proof.
  intros Hb Hl. induction a as [|c a IH]; [done|].
  rewrite append_cons. destruct (a +:+ b) eqn:Hab; [|done].
  destruct a; [|done]. rewrite append_nil_l in Hab. done.
Qed.

Lemma keeps_last_cons_nonempty c s : s ≠ EmptyString → keeps_last (String c s) ↔ keeps_last s.
Proof. by destruct s. Qed.

(** ** The parse loop with its last reading section *)

Lemma ParseSection_run_ParseSection lines this xi :
  ParseSection lines this xi = ParseSection_run lines this xi ≫= λ r, Ok r.1.
Proof.
  revert this xi. induction lines as [|line lines IH]; intros this xi; simpl; [done|].
  destruct (ParseSection_iteration _ _) as [[this' xi']|]; simpl; [|done]. apply IH.
Qed.

(** The store updates do not look at the line or its number, except to
    report an error. *)
Lemma ParseSection_insert_indep this this' xi k v h :
  sections this = sections this' →
  ParseSection_insert this xi k v = Ok h → ParseSection_insert this' xi k v = Ok h.
Proof.
  unfold ParseSection_insert. intros <-.
  destruct (deref _ _) as [cur|]; simpl; [|done].
  by destruct (mValues cur !! k).
Qed.

Lemma ParseSection_open_indep this this' xi n d r :
  sections this = sections this' →
  ParseSection_open this xi n d = Ok r → ParseSection_open this' xi n d = Ok r.
Proof.
  unfold ParseSection_open. intros <-.
  destruct (deref _ _) as [cur|]; simpl; [|done].
  case_decide; [done|].
  destruct (if decide (mDepth cur = d - 1) then _ else _) as [P|]; simpl; [|done].
  destruct (Section_call _ _ _) as [[h lp]|]; simpl; [|done].
  destruct (deref h lp) as [child|]; simpl; [|done].
  by case_decide.
Qed.

(** ** Parsing a rendered line *)

Lemma bind_Ok_l {A B} (a : A) (f : A → outcome B) : Ok a ≫= f = f a.
Proof. done. Qed.

Lemma at_0_pair_line k v c :
  at_ (k +:+ String "=" v) 0 = c → c ≠ "=" → at_ k 0 = c.
Proof. destruct k; [by intros [= <-]|done]. Qed.

Lemma keeps_first_pair_line k v : keeps_first k → keeps_first (k +:+ String "=" v).
Proof. by destruct k. Qed.

Lemma keeps_last_pair_line k v : keeps_last v → keeps_last (k +:+ String "=" v).
Proof.
  intros Hv. apply keeps_last_app; [done|].
  destruct v; [done|]. by apply keeps_last_cons_nonempty.
Qed.

Lemma ParseValue_id v : find "#" v = None → find ";" v = None → ParseValue v = Ok v.
Proof. intros H1 H2. by rewrite ParseValue_cut, H1, H2. Qed.

Lemma ParseSection_pair_line this xi k v :
  good (Pair k v) →
  mConfigLine this = k +:+ String "=" v →
  (Z.of_nat (size (mConfigLine this)) < 2 ^ 64)%Z →
  ParseSection_pair this xi = ParseSection_insert this xi k v.
Proof.
  intros [(Hk1 & Hk2 & Hk3 & Hk4 & _) (Hv1 & Hv2 & Hv3 & Hv4 & Hv5)] Hline Hb.
  unfold ParseSection_pair. rewrite Hline in Hb |- *.
  rewrite size_app, size_cons in Hb.
  rewrite find_app_cons by done.
  replace (size k + 1) with (size (k +:+ String "=" EmptyString))
    by (rewrite size_app, size_cons; change (size EmptyString) with 0; lia).
  replace (k +:+ String "=" v) with ((k +:+ String "=" EmptyString) +:+ v) at 1 2
    by (by rewrite append_assoc).
  replace (Z.of_nat (size ((k +:+ String "=" EmptyString) +:+ v)) - Z.of_nat (size k) - 1)%Z
    with (Z.of_nat (size v))
    by (rewrite !size_app, size_cons; change (size EmptyString) with 0; lia).
  assert (Z.of_nat (size v) < 2 ^ 64)%Z as Hbv by lia.
  assert (Z.of_nat (size k) < 2 ^ 64)%Z as Hbk by lia.
  rewrite substr_app_r, bind_Ok_l by done.
  rewrite TrimString_id, bind_Ok_l by done.
  rewrite ParseValue_id, bind_Ok_l by done.
  rewrite substr_app_l, bind_Ok_l.
  by rewrite TrimString_id, bind_Ok_l by done.
Qed.

Lemma ParseSection_iteration_pair this xi k v :
  good (Pair k v) →
  mConfigLine this = k +:+ String "=" v →
  (Z.of_nat (size (mConfigLine this)) < 2 ^ 64)%Z →
  ParseSection_iteration this xi =
    h ← ParseSection_insert this xi k v;
    Ok (mkParser h (mConfigLine this) (mLineNumber this), xi).
Proof.
  intros Hgood Hline Hb.
  pose proof Hgood as [(Hk1 & Hk2 & Hk3 & Hk4 & Hk5 & Hk6 & Hk7) (Hv1 & Hv2 & Hv3 & Hv4 & Hv5)].
  destruct this as [h line ln]. simpl in Hline, Hb. subst line.
  unfold ParseSection_iteration. cbn [mConfigLine sections mLineNumber].
  rewrite decide_False by (intros [Hc|Hc]; by apply at_0_pair_line in Hc).
  rewrite TrimString_id, bind_Ok_l;
    [|by apply keeps_first_pair_line|by apply keeps_last_pair_line|done].
  rewrite decide_False by (by destruct k).
  rewrite decide_False by (intros Hc; by apply at_0_pair_line in Hc).
  by erewrite ParseSection_pair_line.
Qed.

Lemma render_entry_Header d n :
  n ≠ EmptyString →
  render_entry (Header d n) = String "010" (header_line d n +:+ String "010" EmptyString).
Proof.
  intros Hn. unfold render_entry, ExportSection_head, header_line.
  rewrite bool_decide_eq_false_2 by done. cbn [negb].
  rewrite !append_nil_l. unfold endl. rewrite !append_assoc. by rewrite append_cons, append_nil_l.
Qed.

Lemma substr_app_m a b c :
  (Z.of_nat (size b) < 2 ^ 64)%Z →
  substr (a +:+ b +:+ c) (size a) (size_t (Z.of_nat (size b))) = Ok b.
Proof.
  intros Hb. unfold substr. rewrite !size_app. case_decide; [lia|].
  rewrite size_t_small by lia. rewrite drop_str_app. f_equal.
  replace (Z.to_nat _) with (size b) by lia. apply take_str_app.
Qed.

Lemma ParseLine_depth_header d n rest :
  n ≠ EmptyString → at_ n 0 ≠ "[" →
  ParseLine_depth (repeat_char d "[" +:+ n +:+ rest) = d.
Proof.
  intros Hn Hn0. induction d as [|d IH]; simpl.
  - rewrite ?append_nil_l. destruct n as [|c n]; [done|]. rewrite ?append_cons. simpl in *.
    destruct c as [[] [] [] [] [] [] [] []]; try done.
  - rewrite ?append_cons. simpl. by rewrite IH.
Qed.

Lemma keeps_last_repeat d : 0 < d → keeps_last (repeat_char d "]").
Proof.
  induction d as [|d IH]; [lia|]. intros _. simpl.
  destruct d as [|d]; [done|]. apply IH. lia.
Qed.

Lemma find_app_None' c a b : find c a = None → find c b = None → find c (a +:+ b) = None.
Proof. intros Ha Hb. by rewrite find_app_None, Hb. Qed.

Lemma find_repeat_char c d n : c ≠ d → find c (repeat_char n d) = None.
Proof.
  intros Hne. induction n as [|n IH]; [done|]. simpl.
  rewrite decide_False by done. by rewrite IH.
Qed.

Lemma no_nl_header_line d n : no_nl n → no_nl (header_line d n).
Proof.
  intros Hn. unfold no_nl, header_line.
  repeat apply find_app_None'; try done; by apply find_repeat_char.
Qed.

Lemma size_header_line d n : size (header_line d n) = d + size n + d.
Proof. unfold header_line. rewrite !size_app, !size_repeat_char. lia. Qed.

Lemma ParseLine_header this d n :
  n ≠ EmptyString → at_ n 0 ≠ "[" →
  mConfigLine this = header_line d n →
  (Z.of_nat (size (mConfigLine this)) < 2 ^ 64)%Z →
  ParseLine this = Ok (n, d).
Proof.
  intros Hn Hn0 Hline Hb. unfold ParseLine. rewrite Hline in Hb |- *.
  rewrite size_header_line in Hb |- *.
  unfold header_line. rewrite ParseLine_depth_header by done.
  replace (Z.of_nat (d + size n + d) - 2 * Z.of_nat d)%Z with (Z.of_nat (size n)) by lia.
  pose proof (substr_app_m (repeat_char d "[") n (repeat_char d "]")) as Hs.
  rewrite size_repeat_char in Hs. by rewrite Hs, bind_Ok_l by lia.
Qed.

Lemma ParseSection_iteration_header this xi d n :
  good (Header d n) →
  mConfigLine this = header_line d n →
  (Z.of_nat (size (mConfigLine this)) < 2 ^ 64)%Z →
  ParseSection_iteration this xi =
    r ← ParseSection_open this xi n d;
    Ok (mkParser r.1 (mConfigLine this) (mLineNumber this), r.2).
Proof.
  intros (Hd & Hn1 & Hn2 & Hn3) Hline Hb.
  destruct this as [h line ln]. simpl in Hline, Hb. subst line.
  assert (at_ (header_line d n) 0 = "[") as H0.
  { unfold header_line. destruct d; [lia|done]. }
  unfold ParseSection_iteration. cbn [mConfigLine sections mLineNumber].
  rewrite H0. rewrite decide_False by (by intros [?|?]).
  rewrite TrimString_id, bind_Ok_l; [| | |done].
  2: { unfold header_line. destruct d; [lia|done]. }
  2: { unfold header_line. rewrite <-append_assoc. apply keeps_last_app.
       - destruct d; [lia|done].
       - by apply keeps_last_repeat. }
  rewrite decide_False by (unfold header_line; destruct d; [lia|done]).
  rewrite decide_True by done.
  unfold ParseSection_header.
  rewrite (ParseLine_header _ d n), bind_Ok_l by done.
  destruct (ParseSection_open _ _ _ _) as [[h' lp]|]; done.
Qed.

Lemma ParseSection_iteration_empty this xi :
  mConfigLine this = EmptyString →
  ParseSection_iteration this xi = Ok (this, xi).
Proof. destruct this as [h line ln]. simpl. by intros ->. Qed.

Lemma render_cons e L : render (e :: L) = render_entry e +:+ render L.
Proof. done. Qed.

(** Replaying a log of good entries and parsing its rendering reach the
    same store and the same section. *)
Lemma replay_ParseSection_run L h cur h' cur' this :
  replay L (h, cur) = Ok (h', cur') →
  Forall good L →
  (Z.of_nat (size (render L)) < 2 ^ 64)%Z →
  sections this = h →
  ∃ this', ParseSection_run (getlines (render L)) this cur = Ok (this', cur') ∧
           sections this' = h'.
Proof.
  revert h cur this. induction L as [|e L IH]; intros h cur this Hrep Hgood Hb Hh.
  { injection Hrep as <- <-. by exists this. }
  apply Forall_cons in Hgood as [He HL].
  simpl in Hrep. apply bind_Ok in Hrep as ([h1 cur1] & Hstep & Hrep).
  rewrite render_cons in Hb |- *. rewrite size_app in Hb.
  destruct e as [d n|k v].
  - pose proof He as (Hd & Hn1 & Hn2 & Hn3).
    rewrite render_entry_Header in Hb |- * by done.
    rewrite !size_cons, size_app in Hb.
    rewrite append_cons, append_assoc, append_cons, append_nil_l.
    change (String "010" ?s) with (EmptyString +:+ String "010" s) at 1.
    rewrite getlines_line by done.
    rewrite getlines_line by (by apply no_nl_header_line).
    cbn [ParseSection_run].
    rewrite ParseSection_iteration_empty, bind_Ok_l by done.
    cbn [ParseSection_run sections mLineNumber].
    rewrite ParseSection_iteration_header with (d := d) (n := n); [|done|done|simpl; lia].
    simpl in Hstep. eapply ParseSection_open_indep in Hstep as ->; [|by rewrite <-Hh].
    rewrite !bind_Ok_l. cbn [fst snd].
    apply (IH h1 cur1); [done|done|lia|done].
  - unfold render_entry in Hb |- *. unfold endl in *.
    rewrite !size_app, size_cons in Hb.
    replace ((k +:+ "=" +:+ v +:+ String "010" EmptyString) +:+ render L)
      with ((k +:+ String "=" v) +:+ String "010" (render L)).
    2: { rewrite !append_assoc. by rewrite !append_cons, !append_nil_l. }
    pose proof He as [(Hk1 & Hk2 & _) (Hv1 & _)].
    rewrite getlines_line.
    2: { apply find_app_None'; [done|]. simpl. unfold no_nl in Hv1. by rewrite Hv1. }
    cbn [ParseSection_run].
    rewrite ParseSection_iteration_pair with (k := k) (v := v); [|done|done|].
    2: { simpl. rewrite size_app, size_cons. change (size EmptyString) with 0 in Hb. lia. }
    simpl in Hstep. apply bind_Ok in Hstep as (h1' & Hstep & [= <- <-]).
    eapply ParseSection_insert_indep in Hstep as ->; [|by rewrite <-Hh].
    rewrite !bind_Ok_l.
    apply (IH h1' cur); [done|done|lia|done].
Qed.

(** ** Ancestors *)

Lemma ancestor_snoc h n x :
  ancestor h (S n) x = c ← ancestor h n x; s ← deref h c; deref_opt (mParent s).
Proof.
  revert x. induction n as [|n IH]; intros x.
  { simpl. destruct (deref h x) as [s|]; simpl; [|done]. by destruct (mParent s). }
  change (ancestor h (S (S n)) x)
    with (s ← deref h x; q ← deref_opt (mParent s); ancestor h (S n) q).
  cbn [ancestor].
  destruct (deref h x) as [s|]; simpl; [|done].
  destruct (deref_opt (mParent s)) as [q|]; simpl; [|done].
  apply IH.
Qed.

Lemma deref_Ok h p s : deref h p = Ok s ↔ h !! p = Some s.
Proof. unfold deref. destruct (h !! p); naive_solver. Qed.

Lemma deref_opt_Ok p q : deref_opt p = Ok q ↔ p = Some q.
Proof. destruct p; naive_solver. Qed.

Lemma ancestor_S_inv h n x a :
  ancestor h (S n) x = Ok a →
  ∃ c cs, ancestor h n x = Ok c ∧ h !! c = Some cs ∧ mParent cs = Some a.
Proof.
  rewrite ancestor_snoc. intros H.
  apply bind_Ok in H as (c & Hc & H). apply bind_Ok in H as (cs & Hcs & H).
  exists c, cs. by rewrite <-deref_Ok, <-deref_opt_Ok.
Qed.

Lemma ancestor_succ h n x c cs a :
  ancestor h n x = Ok c → h !! c = Some cs → mParent cs = Some a →
  ancestor h (S n) x = Ok a.
Proof.
  intros Hc Hcs Ha. rewrite ancestor_snoc, Hc. simpl.
  rewrite (deref_Some _ _ _ Hcs). simpl. by rewrite Ha.
Qed.

Lemma ancestor_depth h n x xs a :
  wf_store h → h !! x = Some xs → ancestor h n x = Ok a →
  ∃ s, h !! a = Some s ∧ mDepth s + n = mDepth xs.
Proof.
  intros Hwf Hx. revert a. induction n as [|n IH]; intros a.
  { intros [= <-]. exists xs. split; [done|lia]. }
  intros (c & cs & Hc & Hcs & Ha)%ancestor_S_inv.
  destruct (IH c Hc) as (cs' & Hcs' & Hd). simplify_eq.
  destruct (wf_parent_depth h c cs a Hwf Hcs Ha) as (s & Hs & Hds).
  exists s. split; [done|lia].
Qed.

Lemma ancestor_add h n m x a :
  ancestor h n x = Ok a → ancestor h m a = ancestor h (n + m) x.
Proof.
  revert x. induction n as [|n IH]; intros x; simpl.
  { by intros [= <-]. }
  intros H. apply bind_Ok in H as (s & Hs & H). apply bind_Ok in H as (q & Hq & H).
  rewrite Hs. simpl. rewrite Hq. simpl. by apply IH.
Qed.

(** The root is the ancestor of every section, [mDepth] levels up. *)
Lemma ancestor_root h x xs :
  wf_store h → h !! x = Some xs → ancestor h (mDepth xs) x = Ok root.
Proof.
  intros Hwf Hx.
  destruct (ancestor_Ok h (mDepth xs) x xs Hwf Hx) as (q & qs & Hq & Hqs & Hd); [lia|].
  rewrite Hq. f_equal.
  destruct (mParent qs) as [p|] eqn:Hp.
  - destruct (wf_parent_depth h q qs p Hwf Hqs Hp) as (ps & _ & Hdp). lia.
  - by destruct (wf_orphan h Hwf q qs Hqs Hp).
Qed.

(** ** ExportSection: unfolding, accumulator, fuel *)

Section ExportUnfold.
Variable NDEBUG : bool.

Lemma ExportSection_S fuel h out x name :
  ExportSection NDEBUG (S fuel) h out x name =
  match deref h x with
  | Throw e => Some (Throw e)
  | Ok s =>
      match ExportSection_values (mValues s) (mOrderedValues s)
              (ExportSection_head (mDepth s) name out) with
      | Throw e => Some (Throw e)
      | Ok out' =>
          ExportSection_sections NDEBUG (ExportSection NDEBUG fuel h) h s (mOrderedSections s) out'
      end
  end.
Proof. done. Qed.

Lemma ExportSection_sections_app export h s l1 l2 out :
  ExportSection_sections NDEBUG export h s (l1 ++ l2) out =
  match ExportSection_sections NDEBUG export h s l1 out with
  | Some (Ok out') => ExportSection_sections NDEBUG export h s l2 out'
  | r => r
  end.
Proof.
  revert out. induction l1 as [|nm l1 IH]; intros out; simpl; [done|].
  destruct (mSections s !! nm) as [q|]; [|done].
  destruct (deref h q) as [c|]; [|done].
  destruct (assert _ _); [|done].
  destruct (export out q nm) as [[out'|]|]; [|done..]. apply IH.
Qed.

Lemma ExportSection_head_app d name out :
  ExportSection_head d name out = out +:+ ExportSection_head d name EmptyString.
Proof.
  unfold ExportSection_head. destruct (negb _); rewrite ?append_nil_l, ?append_assoc; done.
Qed.

Lemma ExportSection_values_snoc m its out r k v :
  ExportSection_values m its out = Ok r → m !! k = None →
  ExportSection_values (<[k := v]> m) (its ++ [k]) out = Ok (r +:+ render_entry (Pair k v)).
Proof.
  intros Hr Hk. revert out Hr. induction its as [|k' its IH]; intros out; simpl.
  - intros [= <-]. by rewrite lookup_insert_eq.
  - destruct (m !! k') as [v'|] eqn:Hk'; [|done].
    rewrite lookup_insert_ne by congruence. rewrite Hk'. apply IH.
Qed.

(** The children loop gives the same result with another recursive call
    and another store, when both agree on the children listed. *)
Lemma ExportSection_sections_ext exp1 exp2 h1 h2 s1 s2 its out r :
  (∀ nm, nm ∈ its → mSections s2 !! nm = mSections s1 !! nm) →
  mDepth s2 = mDepth s1 →
  (∀ nm q c, nm ∈ its → mSections s1 !! nm = Some q → h1 !! q = Some c →
     ∃ c', h2 !! q = Some c' ∧ mDepth c' = mDepth c) →
  (∀ nm q o o', nm ∈ its → mSections s1 !! nm = Some q →
     exp1 o q nm = Some (Ok o') → exp2 o q nm = Some (Ok o')) →
  ExportSection_sections NDEBUG exp1 h1 s1 its out = Some (Ok r) →
  ExportSection_sections NDEBUG exp2 h2 s2 its out = Some (Ok r).
Proof.
  intros HS HD. revert out. induction its as [|nm its IH]; intros out Hc He; simpl; [done|].
  rewrite HS by left.
  destruct (mSections s1 !! nm) as [q|] eqn:Hq; [|done].
  destruct (deref h1 q) as [c|] eqn:Hcq; [|done]. apply deref_Ok in Hcq.
  destruct (Hc nm q c) as (c' & Hc' & Hdc'); [left|done..|].
  rewrite (deref_Some _ _ _ Hc'). rewrite Hdc', HD.
  destruct (assert _ _); [|done].
  destruct (exp1 out q nm) as [[out'|]|] eqn:Hexp; [|done..].
  rewrite (He nm q out out') by (done || left).
  apply IH.
  - intros nm' Hnm'. apply HS. by right.
  - intros nm' q' c0 Hnm'. apply Hc. by right.
  - intros nm' q' o o' Hnm'. apply He. by right.
Qed.

End ExportUnfold.

(** ** Exporting after a change on the path to the reading section *)

Section Append.
Variable NDEBUG : bool.
Variables (h h' : store) (x : ptr) (δ : nat) (suffix : string).
Hypothesis Hwf : wf_store h.
Hypothesis Hframe : ∀ i s, h !! i = Some s → i ≠ x → h' !! i = Some s.
Hypothesis Hgrows : store_grows h h'.

(** A subtree that does not hold [x] is exported as before. *)
Lemma ExportSection_frame fuel out v name r :
  (∀ n, ancestor h n x ≠ Ok v) →
  ExportSection NDEBUG fuel h out v name = Some (Ok r) →
  ExportSection NDEBUG (δ + fuel) h' out v name = Some (Ok r).
Proof.
  revert out v name r. induction fuel as [|fuel IH]; intros out v name r Hv; [done|].
  rewrite Nat.add_succ_r, !ExportSection_S.
  destruct (deref h v) as [s|] eqn:Hs; [|done]. apply deref_Ok in Hs.
  assert (v ≠ x) as Hvx by (intros ->; by apply (Hv 0)).
  rewrite (deref_Some _ _ _ (Hframe v s Hs Hvx)).
  destruct (ExportSection_values _ _ _) as [out'|]; [|done].
  apply ExportSection_sections_ext; [done|done|..].
  - intros nm q c _ Hq Hc. destruct (Hgrows q c Hc) as (c' & Hc' & Hg).
    exists c'. split; [done|]. apply Hg.
  - intros nm q o o' _ Hq. apply IH. intros n Hn.
    destruct (wf_child h Hwf v s nm q Hs Hq) as (c & Hc & Hcp & _).
    apply (Hv (S n)). by eapply ancestor_succ.
Qed.

Hypothesis Hinj : ∀ i s n1 n2 q,
  h !! i = Some s → mSections s !! n1 = Some q → mSections s !! n2 = Some q → n1 = n2.
Hypothesis Hlast : ∀ n c cs a s,
  ancestor h n x = Ok c → h !! c = Some cs → mParent cs = Some a → h !! a = Some s →
  ∃ nm, last (mOrderedSections s) = Some nm ∧ mSections s !! nm = Some c.
Hypothesis Hbase : ∀ fuel out name r,
  ExportSection NDEBUG fuel h out x name = Some (Ok r) →
  ExportSection NDEBUG (δ + fuel) h' out x name = Some (Ok (r +:+ suffix)).
Hypothesis Hx : is_Some (h !! x).

(** Every section on the path from the root to [x] is exported as before,
    followed by what [x] has gained. *)
Lemma ExportSection_spine n a fuel out name r :
  ancestor h n x = Ok a →
  ExportSection NDEBUG fuel h out a name = Some (Ok r) →
  ExportSection NDEBUG (δ + fuel) h' out a name = Some (Ok (r +:+ suffix)).
Proof.
  revert a fuel out name r. induction n as [|n IH]; intros a fuel out name r Ha.
  { injection Ha as <-. apply Hbase. }
  apply ancestor_S_inv in Ha as (c & cs & Hc & Hcs & Hpa).
  destruct fuel as [|fuel]; [done|].
  rewrite Nat.add_succ_r, !ExportSection_S.
  destruct (deref h a) as [s|] eqn:Hs; [|done]. apply deref_Ok in Hs.
  destruct Hx as [xs Hxs].
  destruct (ancestor_depth h n x xs c Hwf Hxs Hc) as (cs' & Hcs' & Hdc). simplify_eq.
  destruct (wf_parent_depth h c cs a Hwf Hcs Hpa) as (s' & Hs' & Hda). simplify_eq.
  assert (a ≠ x) as Hax by (intros ->; simplify_eq; lia).
  rewrite (deref_Some _ _ _ (Hframe a s Hs Hax)).
  destruct (ExportSection_values _ _ _) as [out'|]; [|done].
  destruct (Hlast n c cs a s Hc Hcs Hpa Hs) as (nm & Hnm & Hq).
  apply last_Some in Hnm as [init Hinit]. rewrite Hinit.
  pose proof (ordered_sections_NoDup s (wf_ordered h Hwf a s Hs)) as Hnd.
  rewrite Hinit in Hnd. apply NoDup_app in Hnd as (_ & Hnd & _).
  rewrite !ExportSection_sections_app.
  destruct (ExportSection_sections NDEBUG (ExportSection NDEBUG fuel h) h s init out')
    as [[o1|]|] eqn:Hinit_exp; [|done..].
  erewrite (ExportSection_sections_ext NDEBUG (ExportSection NDEBUG fuel h)
              (ExportSection NDEBUG (δ + fuel) h') h h' s s init out' o1); [|done|done|..|done].
  - simpl. rewrite Hq, (deref_Some _ _ _ Hcs).
    destruct (Hgrows c cs Hcs) as (cs' & Hcs' & Hg).
    rewrite (deref_Some _ _ _ Hcs'), (grows_mDepth _ _ Hg).
    destruct (assert _ _); [|done].
    destruct (ExportSection NDEBUG fuel h o1 c nm) as [[o2|]|] eqn:Hexp; [|done..].
    rewrite (IH c fuel o1 nm o2 Hc Hexp). by intros [= <-].
  - intros nm' q c' _ Hq' Hc'. destruct (Hgrows q c' Hc') as (c'' & Hc'' & Hg).
    exists c''. split; [done|]. apply Hg.
  - intros nm' q o o' Hnm' Hq'. apply ExportSection_frame.
    intros m Hm.
    destruct (wf_child h Hwf a s nm' q Hs Hq') as (qs & Hqs & _ & Hdq).
    destruct (ancestor_depth h m x xs q Hwf Hxs Hm) as (qs' & Hqs' & Hdm). simplify_eq.
    assert (m = n) as -> by lia. rewrite Hc in Hm. injection Hm as <-.
    assert (nm' = nm) as -> by by eapply (Hinj a s).
    by apply (Hnd nm), list_elem_of_singleton.
Qed.

End Append.

(** ** Export after each entry of the log *)

Lemma render_app L1 L2 : render (L1 ++ L2) = render L1 +:+ render L2.
Proof.
  induction L1 as [|e L1 IH]; [done|].
  rewrite <-app_comm_cons, !render_cons, IH. by rewrite append_assoc.
Qed.

Lemma render_snoc L e : render (L ++ [e]) = render L +:+ render_entry e.
Proof. rewrite render_app. unfold render at 2. simpl. by rewrite append_nil_r. Qed.

Lemma assert_true NDEBUG : assert NDEBUG true = Ok tt.
Proof. by destruct NDEBUG. Qed.

(** Walking up from an old section gives the same result in a store that
    kept the parents of the old sections. *)
Lemma ancestor_old h h' n y a :
  wf_store h → is_Some (h !! y) →
  (∀ i s', h' !! i = Some s' → is_Some (h !! i) → ∃ s, h !! i = Some s ∧ mParent s' = mParent s) →
  ancestor h' n y = Ok a → ancestor h n y = Ok a.
Proof.
  intros Hwf Hy Hold. revert y Hy. induction n as [|n IH]; intros y Hy; [done|].
  simpl. intros H. apply bind_Ok in H as (s' & Hs' & H). apply bind_Ok in H as (q & Hq & H).
  apply deref_Ok in Hs'. apply deref_opt_Ok in Hq.
  destruct (Hold y s' Hs' Hy) as (s & Hs & Hp).
  rewrite (deref_Some _ _ _ Hs). simpl. rewrite <-Hp, Hq. simpl.
  apply IH; [|done]. rewrite Hp in Hq.
  destruct (wf_parent h Hwf y s q Hs Hq) as (ps & ? & Hps & _). by eexists.
Qed.

Section Steps.
Variable NDEBUG : bool.

Lemma spine_ok_init : spine_ok (sections Parser_init) root.
Proof.
  split.
  - apply wf_store_init.
  - intros [|[|i]] s n1 n2 q [= <-]; done.
  - by exists Section_default.
  - intros n c cs a s Hc Hcs Hp Hs. simpl in *.
    destruct a as [|[|a]]; [|done..]. destruct c as [|[|c]]; [|done..].
    by injection Hcs as <-.
  - intros [|[|i]] s [= <-]; simpl; lia.
Qed.

Lemma exported_init : exported NDEBUG (sections Parser_init) [].
Proof. intros [|fuel] Hf; [simpl in Hf; lia|done]. Qed.

Lemma spine_ok_add_pair h cur cs k v :
  spine_ok h cur → h !! cur = Some cs → mValues cs !! k = None →
  spine_ok (<[cur := add_pair k v cs]> h) cur.
Proof.
  intros [Hwf Hinj (cs' & Hcs' & Hleaf) Hlast Hdepth] Hcs Hk.
  rewrite Hcs in Hcs'. injection Hcs' as <-.
  pose proof (lookup_lt_Some _ _ _ Hcs) as Hlt.
  assert (∀ i s', <[cur := add_pair k v cs]> h !! i = Some s' →
            ∃ s, h !! i = Some s ∧ mSections s' = mSections s ∧
                 mOrderedSections s' = mOrderedSections s ∧
                 mParent s' = mParent s ∧ mDepth s' = mDepth s) as Hback.
  { intros i s' Hi. destruct (decide (cur = i)) as [<-|Hne].
    - rewrite list_lookup_insert_eq in Hi by done. injection Hi as <-. by exists cs.
    - rewrite list_lookup_insert_ne in Hi by done. by exists s'. }
  split.
  - by apply wf_store_add_pair.
  - intros i s' n1 n2 q Hi H1 H2.
    destruct (Hback i s' Hi) as (s & Hs & HS & _). rewrite HS in H1, H2. by eapply Hinj.
  - exists (add_pair k v cs). split; [by apply list_lookup_insert_eq|done].
  - intros n c cs' a s' Hc Hcs' Hp Hs'.
    apply (ancestor_old h) in Hc; [|done|by eexists|].
    2: { intros i s1 Hi _. destruct (Hback i s1 Hi) as (s0 & ? & _ & _ & ? & _). eauto. }
    destruct (Hback c cs' Hcs') as (cs0 & Hcs0 & _ & _ & HP0 & _).
    destruct (Hback a s' Hs') as (s0 & Hs0 & HS0 & HO0 & _).
    rewrite HP0 in Hp. rewrite HO0, HS0. by eapply Hlast.
  - intros i s' Hi. rewrite length_insert.
    destruct (Hback i s' Hi) as (s & Hs & _ & _ & _ & ->). by eapply Hdepth.
Qed.

Lemma exported_add_pair h cur cs k v L :
  spine_ok h cur → h !! cur = Some cs → mValues cs !! k = None →
  exported NDEBUG h L →
  exported NDEBUG (<[cur := add_pair k v cs]> h) (L ++ [Pair k v]).
Proof.
  intros [Hwf Hinj (cs' & Hcs' & Hleaf) Hlast Hdepth] Hcs Hk Hexp fuel Hfuel.
  rewrite Hcs in Hcs'. injection Hcs' as <-.
  pose proof (lookup_lt_Some _ _ _ Hcs) as Hlt.
  rewrite length_insert in Hfuel. rewrite render_snoc.
  apply (ExportSection_spine NDEBUG h _ cur 0 _ Hwf) with (n := mDepth cs).
  - intros i s Hi Hne. by rewrite list_lookup_insert_ne.
  - eapply store_grows_insert; [done|]. by apply grows_add_pair.
  - done.
  - done.
  - intros [|f] out name r; [done|]. change (0 + S f) with (S f).
    rewrite !ExportSection_S.
    rewrite (deref_Some _ _ _ Hcs).
    rewrite (deref_Some _ _ (add_pair k v cs)) by (by apply list_lookup_insert_eq).
    destruct (ExportSection_values _ _ _) as [out'|] eqn:Hv; [|done].
    simpl. rewrite (ExportSection_values_snoc _ _ _ _ _ _ Hv Hk).
    rewrite Hleaf. simpl. by intros [= <-].
  - by eexists.
  - by apply ancestor_root.
  - by apply Hexp.
Qed.

Lemma spine_ok_add_child h cur n P ps name :
  spine_ok h cur → ancestor h n cur = Ok P → h !! P = Some ps →
  mSections ps !! name = None →
  spine_ok (<[P := add_child name (length h) ps]> h ++ [new_child P (mDepth ps + 1)]) (length h).
Proof.
  intros [Hwf Hinj (cs & Hcs & Hleaf) Hlast Hdepth] HnP HP Hname.
  pose proof (lookup_lt_Some _ _ _ HP) as Hlt.
  set (h' := <[P := add_child name (length h) ps]> h ++ [new_child P (mDepth ps + 1)]).
  assert (h' !! P = Some (add_child name (length h) ps)) as HP'.
  { unfold h'. rewrite lookup_app_l by (by rewrite length_insert).
    by apply list_lookup_insert_eq. }
  assert (h' !! length h = Some (new_child P (mDepth ps + 1))) as Hnew.
  { unfold h'. rewrite lookup_app_r by (by rewrite length_insert).
    by rewrite length_insert, Nat.sub_diag. }
  assert (∀ i s', h' !! i = Some s' →
            (i = length h ∧ s' = new_child P (mDepth ps + 1)) ∨
            (i = P ∧ s' = add_child name (length h) ps) ∨
            (i ≠ P ∧ h !! i = Some s')) as Hcases.
  { intros i s' Hi. unfold h' in Hi.
    apply lookup_app_Some in Hi as [Hi|[Hge Hi]].
    - destruct (decide (P = i)) as [<-|Hne].
      + rewrite list_lookup_insert_eq in Hi by done. injection Hi as <-. auto.
      + rewrite list_lookup_insert_ne in Hi by done. auto.
    - rewrite length_insert in Hge, Hi.
      apply list_lookup_singleton_Some in Hi as [Hi <-]. left. split; [lia|done]. }
  assert (length h' = S (length h)) as Hlen.
  { unfold h'. rewrite length_app, length_insert. simpl. lia. }
  split.
  - by apply wf_store_add_child.
  - intros i s' n1 n2 q Hi H1 H2.
    destruct (Hcases i s' Hi) as [[-> ->]|[[-> ->]|[Hne Hi0]]].
    + done.
    + simpl in H1, H2.
      apply lookup_insert_Some in H1 as [[<- <-]|[Hn1 H1]];
        apply lookup_insert_Some in H2 as [[<- Hq]|[Hn2 H2]]; try done.
      * destruct (wf_child h Hwf P ps n2 _ HP H2) as (c & Hc & _).
        apply lookup_lt_Some in Hc. lia.
      * subst q. destruct (wf_child h Hwf P ps n1 _ HP H1) as (c & Hc & _).
        apply lookup_lt_Some in Hc. lia.
      * by eapply Hinj.
    + by eapply Hinj.
  - by exists (new_child P (mDepth ps + 1)).
  - intros m c cs' a s' Hc Hcs' Hp Hs'.
    destruct m as [|m].
    { injection Hc as <-. rewrite Hnew in Hcs'. injection Hcs' as <-.
      simpl in Hp. injection Hp as <-. rewrite HP' in Hs'. injection Hs' as <-.
      exists name. simpl. split; [by rewrite last_snoc|by rewrite lookup_insert_eq]. }
    simpl in Hc. rewrite (deref_Some _ _ _ Hnew) in Hc. simpl in Hc.
    apply (ancestor_old h) in Hc; [|done|by eexists|].
    2: { intros i s1 Hi [s0 Hs0].
         destruct (Hcases i s1 Hi) as [[-> ->]|[[-> ->]|[Hne Hi0]]].
         - apply lookup_lt_Some in Hs0. lia.
         - by exists ps.
         - by exists s1. }
    assert (ancestor h (n + m) cur = Ok c) as Hc' by by rewrite <-(ancestor_add h n m cur P).
    assert (is_Some (h !! c)) as [cs0 Hcs0].
    { destruct (ancestor_depth h m P ps c Hwf HP Hc) as (? & ? & _). by eexists. }
    assert (mParent cs' = mParent cs0) as HPc.
    { destruct (Hcases c cs' Hcs') as [[-> ->]|[[-> ->]|[Hne Hi0]]].
      - apply lookup_lt_Some in Hcs0. lia.
      - by simplify_eq.
      - by simplify_eq. }
    rewrite HPc in Hp.
    destruct (wf_parent_depth h c cs0 a Hwf Hcs0 Hp) as (s0 & Hs0 & Hd0).
    destruct (ancestor_depth h m P ps c Hwf HP Hc) as (cs1 & Hcs1 & Hd1). simplify_eq.
    assert (a ≠ P) as HaP by (intros ->; simplify_eq; lia).
    destruct (Hcases a s' Hs') as [[-> ->]|[[-> ->]|[Hne Hi0]]].
    + apply lookup_lt_Some in Hs0. lia.
    + done.
    + by eapply Hlast.
  - intros i s' Hi. rewrite Hlen.
    destruct (Hcases i s' Hi) as [[-> ->]|[[-> ->]|[Hne Hi0]]].
    + simpl. pose proof (Hdepth P ps HP). lia.
    + simpl. pose proof (Hdepth P ps HP). lia.
    + pose proof (Hdepth i s' Hi0). lia.
Qed.

Lemma exported_add_child h cur n P ps name L :
  spine_ok h cur → ancestor h n cur = Ok P → h !! P = Some ps →
  mSections ps !! name = None →
  exported NDEBUG h L →
  exported NDEBUG (<[P := add_child name (length h) ps]> h ++ [new_child P (mDepth ps + 1)])
    (L ++ [Header (mDepth ps + 1) name]).
Proof.
  intros [Hwf Hinj (cs & Hcs & Hleaf) Hlast Hdepth] HnP HP Hname Hexp fuel Hfuel.
  pose proof (lookup_lt_Some _ _ _ HP) as Hlt.
  set (h' := <[P := add_child name (length h) ps]> h ++ [new_child P (mDepth ps + 1)]) in *.
  assert (h' !! P = Some (add_child name (length h) ps)) as HP'.
  { unfold h'. rewrite lookup_app_l by (by rewrite length_insert).
    by apply list_lookup_insert_eq. }
  assert (h' !! length h = Some (new_child P (mDepth ps + 1))) as Hnew.
  { unfold h'. rewrite lookup_app_r by (by rewrite length_insert).
    by rewrite length_insert, Nat.sub_diag. }
  assert (length h' = S (length h)) as Hlen.
  { unfold h'. rewrite length_app, length_insert. simpl. lia. }
  assert (∀ i s, h !! i = Some s → i ≠ P → h' !! i = Some s) as Hframe.
  { intros i s Hi Hne. unfold h'. apply lookup_app_l_Some. by rewrite list_lookup_insert_ne. }
  pose proof (store_grows_add_child h P ps name HP Hname) as Hgrows. fold h' in Hgrows.
  rewrite Hlen in Hfuel. destruct fuel as [|fuel]; [lia|].
  rewrite render_snoc. change (S fuel) with (1 + fuel).
  apply (ExportSection_spine NDEBUG h h' P 1 _ Hwf Hframe Hgrows Hinj) with (n := mDepth ps).
  - intros m c cs' a s Hc. apply (Hlast (n + m)). by rewrite <-(ancestor_add h n m cur P).
  - intros [|f] out nm r; [done|]. change (1 + S f) with (S (S f)).
    rewrite !ExportSection_S.
    rewrite (deref_Some _ _ _ HP), (deref_Some _ _ _ HP').
    change (mValues (add_child name (length h) ps)) with (mValues ps).
    change (mOrderedValues (add_child name (length h) ps)) with (mOrderedValues ps).
    change (mDepth (add_child name (length h) ps)) with (mDepth ps).
    destruct (ExportSection_values _ _ _) as [out'|] eqn:Hv; [|done].
    change (mOrderedSections (add_child name (length h) ps))
      with (mOrderedSections ps ++ [name]).
    rewrite ExportSection_sections_app. intros Hold.
    erewrite (ExportSection_sections_ext NDEBUG (ExportSection NDEBUG f h)
                (ExportSection NDEBUG (S f) h') h h' ps (add_child name (length h) ps));
      [| | | | |exact Hold].
    + simpl. rewrite lookup_insert_eq, (deref_Some _ _ _ Hnew). simpl.
      rewrite bool_decide_eq_true_2 by done. rewrite assert_true.
      rewrite ExportSection_head_app. unfold render_entry. by rewrite ?append_assoc.
    + intros nm' Hnm'. simpl. apply lookup_insert_ne. intros <-.
      apply (ordered_sections_dom ps (wf_ordered h Hwf P ps HP)), elem_of_dom in Hnm'.
      rewrite Hname in Hnm'. by destruct Hnm'.
    + done.
    + intros nm' q c _ Hq Hc. destruct (Hgrows q c Hc) as (c' & Hc' & Hg).
      exists c'. split; [done|]. apply Hg.
    + intros nm' q o o' _ Hq.
      apply (ExportSection_frame NDEBUG h h' P 1 Hwf Hframe Hgrows).
      intros m Hm.
      destruct (wf_child h Hwf P ps nm' q HP Hq) as (qs & Hqs & _ & Hdq).
      destruct (ancestor_depth h m P ps q Hwf HP Hm) as (qs' & Hqs' & Hdm).
      simplify_eq. lia.
  - by eexists.
  - by apply ancestor_root.
  - apply Hexp. lia.
Qed.

End Steps.

(** ** From the parse to its log, and from the log to the exported text *)

Lemma entry_in_store_grows e h h' :
  store_grows h h' → entry_in_store e h → entry_in_store e h'.
Proof.
  intros Hg. destruct e as [d n|k v]; simpl.
  - intros (i & s & q & Hs & Hq). destruct (Hg i s Hs) as (s' & Hs' & Hgs).
    exists i, s', q. split; [done|]. eapply lookup_weaken; [done|]. apply Hgs.
  - intros (i & s & Hs & Hk). destruct (Hg i s Hs) as (s' & Hs' & Hgs).
    exists i, s'. split; [done|]. eapply lookup_weaken; [done|]. apply Hgs.
Qed.

Lemma replay_snoc L e st : replay (L ++ [e]) st = replay L st ≫= replay_entry e.
Proof.
  revert st. induction L as [|e' L IH]; intros st; simpl.
  { by destruct (replay_entry e st). }
  destruct (replay_entry e' st) as [st'|]; simpl; [|done]. apply IH.
Qed.

Lemma replay_entry_spine NDEBUG e h cur h' cur' L :
  positive_depth e →
  spine_ok h cur → exported NDEBUG h L →
  replay_entry e (h, cur) = Ok (h', cur') →
  spine_ok h' cur' ∧ exported NDEBUG h' (L ++ [e]) ∧
  store_grows h h' ∧ entry_in_store e h'.
Proof.
  intros Hpos Hsp Hexp Hstep.
  pose proof (spine_wf _ _ Hsp) as Hwf.
  destruct (spine_leaf _ _ Hsp) as (cs & Hcs & _).
  destruct e as [d n|k v]; simpl in Hstep.
  - apply ParseSection_open_Ok in Hstep
      as (P & ps & m & Hm & HP & <- & Hname & -> & ->); [|done|by eexists|done].
    simpl in *. split_and!.
    + by eapply spine_ok_add_child.
    + by eapply exported_add_child.
    + by apply store_grows_add_child.
    + exists P, (add_child n (length h) ps), (length h). split.
      * rewrite lookup_app_l by (rewrite length_insert; by eapply lookup_lt_Some).
        apply list_lookup_insert_eq. by eapply lookup_lt_Some.
      * simpl. by rewrite lookup_insert_eq.
  - apply bind_Ok in Hstep as (h1 & Hstep & [= <- <-]).
    eapply ParseSection_insert_Ok in Hstep as [Hk ->]; [|done].
    simpl in *. split_and!.
    + by apply spine_ok_add_pair.
    + by apply exported_add_pair.
    + eapply store_grows_insert; [done|]. by apply grows_add_pair.
    + exists cur, (add_pair k v cs). split.
      * apply list_lookup_insert_eq. by eapply lookup_lt_Some.
      * simpl. by rewrite lookup_insert_eq.
Qed.

Lemma replay_spine NDEBUG L h cur :
  Forall positive_depth L →
  replay L (sections Parser_init, root) = Ok (h, cur) →
  spine_ok h cur ∧ exported NDEBUG h L ∧ Forall (λ e, entry_in_store e h) L.
Proof.
  revert h cur. induction L as [|e L IH] using rev_ind; intros h cur Hpos.
  { intros [= <- <-]. split_and!; [apply spine_ok_init|apply exported_init|done]. }
  apply Forall_app in Hpos as [HposL [Hpose _]%Forall_cons].
  rewrite replay_snoc. intros Hrep. apply bind_Ok in Hrep as ([h1 cur1] & HL & Hstep).
  destruct (IH h1 cur1 HposL HL) as (Hsp & Hexp & Hin).
  destruct (replay_entry_spine NDEBUG e h1 cur1 h cur L Hpose Hsp Hexp Hstep)
    as (Hsp' & Hexp' & Hg & Hine).
  split_and!; [done..|].
  apply Forall_app. split; [|by apply Forall_singleton].
  eapply Forall_impl; [done|]. intros e'. by apply entry_in_store_grows.
Qed.

(** Every successful run of the parse loop is the replay of a log. *)
Lemma ParseSection_run_replay lines this xi this' xi' :
  ParseSection_run lines this xi = Ok (this', xi') →
  ∃ L, replay L (sections this, xi) = Ok (sections this', xi') ∧
       Forall positive_depth L.
Proof.
  revert this xi. induction lines as [|line lines IH]; intros this xi; simpl.
  { intros [= <- <-]. by exists []. }
  intros Hrun. apply bind_Ok in Hrun as ([this1 xi1] & Hit & Hrun).
  destruct (IH _ _ Hrun) as (L & HL & Hpos).
  unfold ParseSection_iteration in Hit. cbn [mConfigLine sections mLineNumber] in Hit.
  case_decide as Hcomment.
  { injection Hit as <- <-. by exists L. }
  apply bind_Ok in Hit as (line' & Hline' & Hit).
  case_decide as Hempty.
  { injection Hit as <- <-. by exists L. }
  case_decide as Hopen.
  - apply bind_Ok in Hit as ([h1 lp] & Hh & [= <- <-]).
    apply ParseSection_header_Ok in Hh as (name & depth & Hd & Hh); [|done].
    exists (Header depth name :: L). split; [|by apply Forall_cons].
    simpl. eapply ParseSection_open_indep in Hh as ->; [|done]. done.
  - apply bind_Ok in Hit as (h1 & Hh & [= <- <-]).
    apply ParseSection_pair_Ok in Hh as (key & v & Hh).
    exists (Pair key v :: L). split; [|by apply Forall_cons].
    simpl. eapply ParseSection_insert_indep in Hh as ->; [|done]. done.
Qed.

#[local] Arguments strchr : simpl never.

(** ** What the parser can store *)

Lemma find_take_str c n s : find c s = None → find c (take_str n s) = None.
Proof.
  revert n. induction s as [|d s IH]; intros [|n]; simpl; try done.
  case_decide; [done|]. destruct (find c s); [done|]. intros _. by rewrite IH.
Qed.

Lemma find_drop_str c n s : find c s = None → find c (drop_str n s) = None.
Proof.
  revert n. induction s as [|d s IH]; intros [|n]; simpl; try done.
  case_decide; [done|]. destruct (find c s); [done|]. intros _. by apply IH.
Qed.

Lemma find_take_before c n s : find c s = Some n → find c (take_str n s) = None.
Proof.
  revert n. induction s as [|d s IH]; intros n; simpl; [done|].
  case_decide as Hd; [by intros [= <-]|].
  destruct (find c s) as [m|]; simpl; [|done]. intros [= <-]. simpl.
  rewrite decide_False by done. by rewrite IH.
Qed.

Lemma size_take_str n s : size (take_str n s) ≤ size s.
Proof.
  unfold size. revert n. induction s as [|d s IH]; intros [|n]; simpl; try lia.
  specialize (IH n). lia.
Qed.

Lemma size_drop_str n s : size (drop_str n s) ≤ size s.
Proof.
  unfold size. revert n. induction s as [|d s IH]; intros [|n]; simpl; try lia.
  specialize (IH n). lia.
Qed.

Lemma substr_Ok s pos cnt t :
  substr s pos cnt = Ok t → ∃ n, t = take_str n (drop_str pos s).
Proof. unfold substr. case_decide; [done|]. intros [= <-]. eauto. Qed.

Lemma substr_find c s pos cnt t : substr s pos cnt = Ok t → find c s = None → find c t = None.
Proof. intros [n ->]%substr_Ok Hs. by apply find_take_str, find_drop_str. Qed.

Lemma substr_size s pos cnt t : substr s pos cnt = Ok t → size t ≤ size s.
Proof.
  intros [n ->]%substr_Ok. pose proof (size_take_str n (drop_str pos s)).
  pose proof (size_drop_str pos s). lia.
Qed.

Lemma keeps_first_take_str n s : keeps_first s → keeps_first (take_str n s).
Proof. destruct s, n; done. Qed.

Lemma at_0_take_str n s : take_str n s = EmptyString ∨ at_ (take_str n s) 0 = at_ s 0.
Proof. destruct s, n; auto. Qed.

(** *** TrimString *)

Lemma keeps_first_drop_sp s : keeps_first (drop_str (TrimString_sp s) s).
Proof.
  induction s as [|c s IH]; [done|]. cbn [TrimString_sp].
  destruct (strchr toTrim c) eqn:Hc; [done|]. by simpl.
Qed.

Lemma TrimString_ep_range s : (-1 ≤ TrimString_ep s < Z.of_nat (size s))%Z.
Proof.
  unfold size. induction s as [|c s IH]; [simpl; lia|]. cbn [TrimString_ep String.length].
  destruct (0 <=? TrimString_ep s)%Z eqn:Hle; [lia|].
  destruct (strchr toTrim c); lia.
Qed.

Lemma TrimString_ep_neg s : (TrimString_ep s < 0)%Z → TrimString_sp s = size s.
Proof.
  unfold size. induction s as [|c s IH]; [done|]. cbn [TrimString_ep TrimString_sp String.length].
  destruct (0 <=? TrimString_ep s)%Z eqn:Hle.
  { apply Z.leb_le in Hle. lia. }
  apply Z.leb_gt in Hle. destruct (strchr toTrim c); [|lia]. intros _. by rewrite IH.
Qed.

Lemma TrimString_ep_drop_sp s :
  (0 ≤ TrimString_ep s)%Z →
  TrimString_ep (drop_str (TrimString_sp s) s) = (TrimString_ep s - Z.of_nat (TrimString_sp s))%Z.
Proof.
  induction s as [|c s IH]; [simpl; lia|]. cbn [TrimString_sp].
  destruct (strchr toTrim c) eqn:Hc; [|simpl; lia].
  cbn [drop_str TrimString_ep]. rewrite Hc.
  destruct (0 <=? TrimString_ep s)%Z eqn:Hle; [|lia].
  apply Z.leb_le in Hle. intros _. rewrite IH by done. lia.
Qed.

Lemma keeps_last_take_ep s :
  (0 ≤ TrimString_ep s)%Z → keeps_last (take_str (S (Z.to_nat (TrimString_ep s))) s).
Proof.
  induction s as [|c s IH]; [simpl; lia|]. cbn [TrimString_ep].
  destruct (0 <=? TrimString_ep s)%Z eqn:Hle.
  - apply Z.leb_le in Hle. intros _.
    replace (Z.to_nat (TrimString_ep s + 1)) with (S (Z.to_nat (TrimString_ep s))) by lia.
    specialize (IH Hle). cbn [take_str] in IH |- *.
    destruct s as [|d s]; [simpl in Hle; lia|]. cbn [take_str] in IH |- *. done.
  - destruct (strchr toTrim c) eqn:Hc; [lia|]. intros _. simpl. by destruct s.
Qed.

Lemma TrimString_ep_keeps_first s :
  s ≠ EmptyString → keeps_first s → (0 ≤ TrimString_ep s)%Z.
Proof.
  destruct s as [|c s]; [done|]. intros _ Hc. cbn [TrimString_ep keeps_first] in *.
  unfold trimmable in Hc. rewrite Hc.
  pose proof (TrimString_ep_range s). destruct (0 <=? TrimString_ep s)%Z; lia.
Qed.

Lemma TrimString_sp_le_ep s :
  (0 ≤ TrimString_ep s)%Z → (Z.of_nat (TrimString_sp s) ≤ TrimString_ep s)%Z.
Proof.
  induction s as [|c s IH]; [simpl; lia|]. cbn [TrimString_sp TrimString_ep].
  destruct (0 <=? TrimString_ep s)%Z eqn:Hle.
  - apply Z.leb_le in Hle. destruct (strchr toTrim c); lia.
  - destruct (strchr toTrim c); lia.
Qed.

Lemma TrimString_Ok s t :
  (Z.of_nat (size s) < 2 ^ 64)%Z →
  TrimString s = Ok t →
  keeps_first t ∧ keeps_last t ∧ size t ≤ size s ∧
  (∀ c, find c s = None → find c t = None) ∧
  (s ≠ EmptyString → keeps_first s → at_ t 0 = at_ s 0 ∧ t ≠ EmptyString).
Proof.
  intros Hb Ht.
  assert (size t ≤ size s ∧ ∀ c, find c s = None → find c t = None) as [Hsz Hfind].
  { split; [by eapply substr_size|]. intros c. by eapply substr_find. }
  unfold TrimString, substr in Ht. case_decide as Hsp; [done|]. injection Ht as <-.
  pose proof (TrimString_ep_range s) as Hep.
  destruct (decide (TrimString_ep s < 0)%Z) as [Hneg|Hpos].
  { rewrite (TrimString_ep_neg s Hneg).
    pose proof (drop_str_app s EmptyString) as Hall. rewrite append_nil_r in Hall.
    rewrite Hall.
    assert (∀ n, take_str n EmptyString = EmptyString) as Hnil by (by intros []).
    rewrite Hnil. split_and!; try done.
    { unfold size. simpl. lia. }
    intros Hs Hf. pose proof (TrimString_ep_keeps_first s Hs Hf). lia. }
  assert (0 ≤ TrimString_ep s)%Z as Hep0 by lia.
  pose proof (TrimString_ep_drop_sp s Hep0) as Hdrop.
  pose proof (TrimString_sp_le_ep s Hep0) as Hle.
  pose proof (TrimString_ep_range (drop_str (TrimString_sp s) s)) as Hep'.
  pose proof (size_drop_str (TrimString_sp s) s) as Hsd.
  assert (size (drop_str (TrimString_sp s) s) + TrimString_sp s = size s) as Hsz'.
  { clear. unfold size. induction s as [|c s IH]; [done|]. cbn [TrimString_sp].
    destruct (strchr toTrim c); simpl; lia. }
  rewrite size_t_small by lia.
  match goal with |- context [take_str ?n _] =>
    replace n with (S (Z.to_nat (TrimString_ep (drop_str (TrimString_sp s) s)))) by lia end.
  split_and!.
  - apply keeps_first_take_str, keeps_first_drop_sp.
  - apply keeps_last_take_ep. lia.
  - etrans; [apply size_take_str|apply size_drop_str].
  - intros c Hc. by apply find_take_str, find_drop_str.
  - intros Hs Hf. rewrite (TrimString_sp_keeps s Hf). simpl. by destruct s.
Qed.

(** *** Keys, values and names out of a line *)

Lemma lexical_positive_depth e : lexical e → positive_depth e.
Proof. destruct e; simpl; tauto. Qed.

Lemma ParseValue_Ok s v :
  ParseValue s = Ok v → ∃ n, v = take_str n s ∧ find "#" v = None.
Proof.
  rewrite ParseValue_cut. intros [= <-].
  destruct (find "#" s) as [i|] eqn:Hi.
  { exists i. split; [done|]. by apply find_take_before. }
  destruct (find ";" s) as [j|] eqn:Hj.
  { exists j. split; [done|]. by apply find_take_str. }
  exists (size s). by rewrite take_str_all.
Qed.

Lemma at_0_drop_depth s : at_ (drop_str (ParseLine_depth s) s) 0 ≠ "[".
Proof.
  induction s as [|c s IH]; [done|].
  destruct (decide (c = "[")) as [->|Hc]; [done|].
  replace (ParseLine_depth (String c s)) with 0; [done|].
  simpl. destruct c as [[] [] [] [] [] [] [] []]; done.
Qed.

Lemma ParseSection_header_lexical this xi r :
  no_nl (mConfigLine this) →
  at_ (mConfigLine this) 0 = "[" →
  ParseSection_header this xi = Ok r →
  ∃ name depth, ParseSection_open this xi name depth = Ok r ∧ lexical (Header depth name).
Proof.
  intros Hnl Hline%ParseLine_depth_pos. unfold ParseSection_header, ParseLine.
  intros Hrun. apply bind_Ok in Hrun as ([name depth] & Hpl & Hrun).
  apply bind_Ok in Hpl as (name' & Hname & [= <- <-]).
  exists name', (ParseLine_depth (mConfigLine this)). split; [done|].
  split; [done|]. split; [by eapply substr_find|].
  apply substr_Ok in Hname as [n ->].
  destruct (at_0_take_str n (drop_str (ParseLine_depth (mConfigLine this)) (mConfigLine this)))
    as [->| ->]; [done|apply at_0_drop_depth].
Qed.

Lemma ParseSection_pair_lexical this xi h' :
  no_nl (mConfigLine this) → keeps_first (mConfigLine this) →
  at_ (mConfigLine this) 0 ≠ "[" →
  (Z.of_nat (size (mConfigLine this)) < 2 ^ 64)%Z →
  ParseSection_pair this xi = Ok h' →
  ∃ key v, ParseSection_insert this xi key v = Ok h' ∧ lexical (Pair key v).
Proof.
  intros Hnl Hfirst Hopen Hb. unfold ParseSection_pair.
  destruct (find "=" _) as [n|] eqn:Hn; [|done]. intros Hrun.
  apply bind_Ok in Hrun as (rhs & Hrhs & Hrun).
  apply bind_Ok in Hrun as (rhs' & Hrhs' & Hrun).
  apply bind_Ok in Hrun as (v & Hv & Hrun).
  apply bind_Ok in Hrun as (lhs & Hlhs & Hrun).
  apply bind_Ok in Hrun as (key & Hkey & Hrun).
  exists key, v. split; [done|].
  pose proof (substr_size _ _ _ _ Hrhs) as Hsr.
  pose proof (substr_size _ _ _ _ Hlhs) as Hsl.
  apply TrimString_Ok in Hrhs' as (Hr1 & Hr2 & Hr3 & Hr4 & _); [|lia].
  apply TrimString_Ok in Hkey as (Hk1 & Hk2 & Hk3 & Hk4 & Hk5); [|lia].
  apply ParseValue_Ok in Hv as (m & -> & Hhash).
  split.
  - split_and!; try done.
    + apply Hk4. by eapply substr_find.
    + apply Hk4. rewrite substr_prefix in Hlhs by (apply find_lt in Hn; lia).
      injection Hlhs as <-. by apply find_take_before.
    + rewrite substr_prefix in Hlhs by (apply find_lt in Hn; lia).
      injection Hlhs as <-.
      destruct (decide (take_str n (mConfigLine this) = EmptyString)) as [Hnil|Hnn].
      { rewrite Hnil in *. clear -Hk3. destruct key; [done|]. unfold size in Hk3. simpl in Hk3. lia. }
      destruct Hk5 as [-> _]; [done|by apply keeps_first_take_str|].
      destruct (at_0_take_str n (mConfigLine this)) as [?| ->]; done.
  - split_and!; [|by apply keeps_first_take_str|done].
    apply find_take_str, Hr4. by eapply substr_find.
Qed.

Lemma getlines_lines s : Forall (λ l, no_nl l ∧ size l ≤ size s) (getlines s).
Proof.
  unfold no_nl, size. induction s as [|c s IH]; [done|]. simpl.
  case_decide as Hc.
  - apply Forall_cons. split; [simpl; split; [done|lia]|].
    eapply Forall_impl; [done|]. simpl. intros l [??]. split; [done|lia].
  - destruct (getlines s) as [|l ls].
    + apply Forall_singleton. simpl. rewrite decide_False by done. split; [done|lia].
    + apply Forall_cons in IH as [[Hl1 Hl2] Hls]. apply Forall_cons. split.
      * simpl. rewrite decide_False by done. rewrite Hl1. split; [done|lia].
      * eapply Forall_impl; [done|]. simpl. intros l' [??]. split; [done|lia].
Qed.

(** Every successful run of the parse loop over lines without line feed is
    the replay of a log of entries the parser can produce. *)
Lemma ParseSection_run_lexical lines this xi this' xi' :
  Forall (λ l, no_nl l ∧ (Z.of_nat (size l) < 2 ^ 64)%Z) lines →
  ParseSection_run lines this xi = Ok (this', xi') →
  ∃ L, replay L (sections this, xi) = Ok (sections this', xi') ∧ Forall lexical L.
Proof.
  revert this xi. induction lines as [|line lines IH]; intros this xi Hlines; simpl.
  { intros [= <- <-]. by exists []. }
  apply Forall_cons in Hlines as [[Hnl Hb] Hlines].
  intros Hrun. apply bind_Ok in Hrun as ([this1 xi1] & Hit & Hrun).
  destruct (IH _ _ Hlines Hrun) as (L & HL & Hlex).
  unfold ParseSection_iteration in Hit. cbn [mConfigLine sections mLineNumber] in Hit.
  case_decide as Hcomment.
  { injection Hit as <- <-. by exists L. }
  apply bind_Ok in Hit as (line' & Hline' & Hit).
  apply TrimString_Ok in Hline' as (Ht1 & Ht2 & Ht3 & Ht4 & _); [|done].
  case_decide as Hempty.
  { injection Hit as <- <-. by exists L. }
  case_decide as Hopen.
  - apply bind_Ok in Hit as ([h1 lp] & Hh & [= <- <-]).
    apply ParseSection_header_lexical in Hh as (name & depth & Hh & He); [|by apply Ht4|done].
    exists (Header depth name :: L). split; [|by apply Forall_cons].
    simpl. eapply ParseSection_open_indep in Hh as ->; [|done]. done.
  - apply bind_Ok in Hit as (h1 & Hh & [= <- <-]).
    apply ParseSection_pair_lexical in Hh as (key & v & Hh & He);
      [|by apply Ht4|done|done|simpl; lia].
    exists (Pair key v :: L). split; [|by apply Forall_cons].
    simpl. eapply ParseSection_insert_indep in Hh as ->; [|done]. done.
Qed.

(** ** Trees that survive the round trip *)

Lemma clean_store_entry h e :
  clean_store h → entry_in_store e h → lexical e → good e.
Proof.
  intros Hclean Hin Hlex. destruct e as [d n|k v]; simpl in *.
  - destruct Hin as (i & s & q & Hs & Hq). destruct Hlex as (Hd & Hn1 & Hn2).
    destruct (Forall_lookup_1 _ _ _ _ Hclean Hs) as [_ Hnames].
    specialize (Hnames n q Hq). by split_and!.
  - destruct Hin as (i & s & Hs & Hk).
    destruct Hlex as [(Hk1 & Hk2 & Hk3 & Hk4 & Hk5) (Hv1 & Hv2 & Hv3)].
    destruct (Forall_lookup_1 _ _ _ _ Hclean Hs) as [Hvalues _].
    destruct (Hvalues k v Hk) as [[Hc1 Hc2] [Hc3 Hc4]]. by split_and!.
Qed.

(** Export of a parsed tree always returns a text: the recursion ends
    within the bound, no iterator dangles and the [assert] holds. *)
Lemma Export_parsed (NDEBUG : bool) (xi_file : string) (p : Parser) :
  Parser_new xi_file = Ok p → ∃ out, Export NDEBUG p = Some (Ok out).
Proof.
  intros Hp. unfold Parser_new in Hp.
  rewrite ParseSection_run_ParseSection in Hp.
  apply bind_Ok in Hp as ([p0 cur] & Hrun & [= ->]).
  apply ParseSection_run_replay in Hrun as (L & HL & Hpos). simpl in HL.
  destruct (replay_spine NDEBUG L (sections p) cur) as (_ & Hexp & _); [done..|].
  exists (render L). by apply Hexp.
Qed.

(** The round trip on the model, for texts shorter than 2^64 characters. *)
Lemma export_parse_roundtrip_size_t (NDEBUG : bool) (xi_file : string) (p : Parser) :
  Parser_new xi_file = Ok p →
  (Z.of_nat (size xi_file) < 2 ^ 64)%Z →
  clean_store (sections p) →
  ∃ out, Export NDEBUG p = Some (Ok out) ∧
         ((Z.of_nat (size out) < 2 ^ 64)%Z →
          ∃ p', Parser_new out = Ok p' ∧ sections p' = sections p).
Proof.
  intros Hp Hb Hclean. unfold Parser_new in Hp.
  rewrite ParseSection_run_ParseSection in Hp.
  apply bind_Ok in Hp as ([p0 cur] & Hrun & [= ->]).
  apply ParseSection_run_lexical in Hrun as (L & HL & Hlex).
  2: { eapply Forall_impl; [apply getlines_lines|]. simpl. intros l [??]. split; [done|lia]. }
  simpl in HL.
  destruct (replay_spine NDEBUG L (sections p) cur) as (Hsp & Hexp & Hin); [|done|].
  { eapply Forall_impl; [done|]. apply lexical_positive_depth. }
  exists (render L). split; [by apply Hexp|].
  intros Hbout.
  assert (Forall good L) as Hgood.
  { apply Forall_forall. intros e He.
    apply (clean_store_entry (sections p)); [done|..].
    - by eapply (proj1 (Forall_forall _ _) Hin).
    - by eapply (proj1 (Forall_forall _ _) Hlex). }
  destruct (replay_ParseSection_run L _ _ _ _ Parser_init HL Hgood Hbout eq_refl)
    as (p' & Hrun' & Hsec).
  exists p'. split; [|done].
  unfold Parser_new. rewrite ParseSection_run_ParseSection, Hrun'. done.
Qed.

(** C1, as amended: take a tree built by a successful parse of a text
    shorter than 2^31 characters (the range of the [int] cursors of
    [TrimString]), in which no section name is empty, no key begins with
    ['#'] or [';'], and no value contains [';'] or ends with a character
    that [TrimString] removes.  Its export succeeds, and when the exported
    text is again shorter than 2^31 characters, parsing it succeeds and
    builds the very same store: the same sections at the same addresses,
    with the same names, parents, depths, keys, values and ordered lists. *)
Theorem export_parse_roundtrip (NDEBUG : bool) (xi_file : string) (p : Parser) :
  Parser_new xi_file = Ok p →
  (Z.of_nat (size xi_file) < 2 ^ 31)%Z →
  clean_store (sections p) →
  ∃ out, Export NDEBUG p = Some (Ok out) ∧
         ((Z.of_nat (size out) < 2 ^ 31)%Z →
          ∃ p', Parser_new out = Ok p' ∧ sections p' = sections p).
Proof.
  intros Hp Hb Hclean.
  destruct (export_parse_roundtrip_size_t NDEBUG xi_file p Hp) as (out & Hout & Hback);
    [lia|done|].
  exists out. split; [done|]. intros Hbout. apply Hback. lia.
Qed.

Lemma export_parse_roundtrip_witness :
  ∃ p, Parser_new scenario = Ok p ∧
       (Z.of_nat (size scenario) < 2 ^ 31)%Z ∧
       clean_store (sections p) ∧
       ∃ out, Export false p = Some (Ok out) ∧
              (Z.of_nat (size out) < 2 ^ 31)%Z ∧
              ∃ p', Parser_new out = Ok p' ∧ sections p' = sections p.
Proof.
  eexists. split; [vm_compute; reflexivity|].
  assert (Z.of_nat (size scenario) < 2 ^ 31)%Z as Hb by (by vm_compute).
  split; [exact Hb|].
  match goal with |- clean_store ?h ∧ _ =>
    assert (clean_store h) as Hclean by (apply (bool_decide_unpack _); vm_compute; exact I)
  end.
  split; [exact Hclean|].
  match goal with |- ∃ out, Export false ?p = _ ∧ _ =>
    destruct (export_parse_roundtrip false scenario p) as (out & Hout & Hback);
      [vm_compute; reflexivity|exact Hb|exact Hclean|]
  end.
  exists out.
  assert (Z.of_nat (size out) < 2 ^ 31)%Z as Hbout.
  { vm_compute in Hout. injection Hout as <-. by vm_compute. }
  split; [exact Hout|]. split; [exact Hbout|]. exact (Hback Hbout).
Defined.

(** C1, as stated, fails: a key that begins with ['#'] (read from an
    indented line) is exported as a line that is then read as a comment, so
    the key is lost; a section with the empty name is exported without its
    line ends, so its first key/value line is read back as part of a
    section header; a value with a blank before an inline comment comes back
    without the blank; a value with a [';'] before the ['#'] that ended it
    comes back cut at the [';']. *)
Lemma export_parse_changes_tree :
  (∃ p out p' r r',
     Parser_new indented_hash_input = Ok p ∧ Export false p = Some (Ok out) ∧
     Parser_new out = Ok p' ∧
     sections p !! root = Some r ∧ sections p' !! root = Some r' ∧
     mOrderedValues r = ["#k"%string] ∧ mOrderedValues r' = []) ∧
  (∃ p out p' r r',
     Parser_new empty_name_input = Ok p ∧ Export false p = Some (Ok out) ∧
     Parser_new out = Ok p' ∧
     sections p !! root = Some r ∧ sections p' !! root = Some r' ∧
     mOrderedSections r = [EmptyString] ∧ mOrderedSections r' = ["]k="%string]) ∧
  (∃ p out p' r r',
     Parser_new inline_comment_input = Ok p ∧ Export false p = Some (Ok out) ∧
     Parser_new out = Ok p' ∧
     sections p !! root = Some r ∧ sections p' !! root = Some r' ∧
     mValues r !! "b"%string = Some "1 "%string ∧
     mValues r' !! "b"%string = Some "1"%string) ∧
  (∃ p out p' r r',
     Parser_new semicolon_input = Ok p ∧ Export false p = Some (Ok out) ∧
     Parser_new out = Ok p' ∧
     sections p !! root = Some r ∧ sections p' !! root = Some r' ∧
     mValues r !! "k"%string = Some "a;b"%string ∧
     mValues r' !! "k"%string = Some "a"%string).
Proof.
  split_and!.
  - do 5 eexists. split_and!.
    + vm_compute; reflexivity.
    + vm_compute; reflexivity.
    + vm_compute; reflexivity.
    + vm_compute; reflexivity.
    + vm_compute; reflexivity.
    + vm_compute; reflexivity.
    + vm_compute; reflexivity.
  - do 5 eexists. split_and!.
    + vm_compute; reflexivity.
    + vm_compute; reflexivity.
    + vm_compute; reflexivity.
    + vm_compute; reflexivity.
    + vm_compute; reflexivity.
    + vm_compute; reflexivity.
    + vm_compute; reflexivity.
  - do 5 eexists. split_and!.
    + vm_compute; reflexivity.
    + vm_compute; reflexivity.
    + vm_compute; reflexivity.
    + vm_compute; reflexivity.
    + vm_compute; reflexivity.
    + vm_compute; reflexivity.
    + vm_compute; reflexivity.
  - do 5 eexists. split_and!.
    + vm_compute; reflexivity.
    + vm_compute; reflexivity.
    + vm_compute; reflexivity.
    + vm_compute; reflexivity.
    + vm_compute; reflexivity.
    + vm_compute; reflexivity.
    + vm_compute; reflexivity.
Qed.

(** * Further properties *)

(** ** The string helpers on any string *)

Lemma trimmable_chars c :
  trimmable c = true ↔ c ∈ [" "; "009"; "013"; "010"; "000"].
Proof.
  unfold trimmable, toTrim, strchr.
  rewrite !elem_of_cons, elem_of_nil, !orb_true_iff, !bool_decide_eq_true.
  intuition congruence.
Qed.

Lemma blank_take_sp s : blank (take_str (TrimString_sp s) s) = true.
Proof.
  unfold blank. induction s as [|c s IH]; [done|]. cbn [TrimString_sp].
  destruct (strchr toTrim c) eqn:Hc; [|done].
  cbn [take_str all_chars]. unfold trimmable at 1. by rewrite Hc.
Qed.

Lemma blank_drop_ep s : blank (drop_str (Z.to_nat (TrimString_ep s + 1)) s) = true.
Proof.
  unfold blank. induction s as [|c s IH]; [done|]. cbn [TrimString_ep].
  pose proof (TrimString_ep_range s) as Hr.
  destruct (0 <=? TrimString_ep s)%Z eqn:Hle.
  - apply Z.leb_le in Hle.
    replace (Z.to_nat (TrimString_ep s + 1 + 1)) with (S (Z.to_nat (TrimString_ep s + 1))) by lia.
    done.
  - apply Z.leb_gt in Hle. replace (TrimString_ep s) with (-1)%Z in IH by lia.
    simpl in IH. destruct (strchr toTrim c) eqn:Hc; simpl.
    + unfold trimmable at 1. by rewrite Hc.
    + done.
Qed.

Lemma take_drop_str n s : take_str n s +:+ drop_str n s = s.
Proof.
  revert n. induction s as [|c s IH]; intros [|n]; try done.
  cbn [take_str drop_str]. rewrite append_cons. by rewrite IH.
Qed.

(** X1: on a string shorter than 2^31 characters [TrimString] does not
    throw; it removes a leading and a trailing run of the characters of
    [toTrim] (blank, tab, carriage return, line feed, and the NUL that
    [strchr] always finds) and nothing else; what it returns neither begins
    nor ends with such a character, so trimming again changes nothing. *)
Theorem TrimString_strips (s : string) :
  (Z.of_nat (size s) < 2 ^ 31)%Z →
  ∃ a t b, TrimString s = Ok t ∧ s = a +:+ t +:+ b ∧
           blank a = true ∧ blank b = true ∧ keeps_first t ∧ keeps_last t ∧
           TrimString t = Ok t.
Proof.
  intros Hb.
  destruct (TrimString s) as [t|e] eqn:Ht.
  2: { unfold TrimString, substr in Ht. case_decide as Hsp; [|done].
       clear -Hsp. exfalso. revert Hsp. unfold size.
       induction s as [|c s IH]; cbn [TrimString_sp String.length]; [lia|].
       destruct (strchr toTrim c); lia. }
  pose proof Ht as Ht'.
  apply TrimString_Ok in Ht' as (Hf & Hl & Hsz & _); [|lia].
  assert (TrimString t = Ok t) as Hid by (apply TrimString_id; [done..|lia]).
  unfold TrimString, substr in Ht. case_decide as Hsp; [done|]. injection Ht as Ht.
  pose proof (TrimString_ep_range s) as Hep.
  assert (size (drop_str (TrimString_sp s) s) + TrimString_sp s = size s) as Hsz'.
  { clear. unfold size. induction s as [|c s IH]; [done|]. cbn [TrimString_sp].
    destruct (strchr toTrim c); simpl; lia. }
  destruct (decide (TrimString_ep s < 0)%Z) as [Hneg|Hpos].
  { pose proof (TrimString_ep_neg s Hneg) as Hall.
    exists s, t, EmptyString.
    assert (t = EmptyString) as ->.
    { rewrite <-Ht. rewrite Hall.
      pose proof (drop_str_app s EmptyString) as Hd. rewrite append_nil_r in Hd.
      rewrite Hd. generalize (Z.to_nat (Z.min (size_t (TrimString_ep s - Z.of_nat (size s) + 1))
                                          (Z.of_nat (size s) - Z.of_nat (size s)))).
      by intros []. }
    split_and!; try done.
    - by rewrite append_nil_l, append_nil_r.
    - pose proof (blank_take_sp s) as Hbl. rewrite Hall in Hbl. by rewrite take_str_all in Hbl. }
  assert (0 ≤ TrimString_ep s)%Z as Hep0 by lia.
  pose proof (TrimString_sp_le_ep s Hep0) as Hle.
  pose proof (TrimString_ep_drop_sp s Hep0) as Hdrop.
  rewrite size_t_small in Ht by lia.
  set (sp := TrimString_sp s) in *. set (d := drop_str sp s) in *.
  set (n := Z.to_nat (Z.min (TrimString_ep s - Z.of_nat sp + 1) (Z.of_nat (size s) - Z.of_nat sp))) in *.
  exists (take_str sp s), t, (drop_str n d).
  split_and!; try done.
  - rewrite <-Ht. rewrite take_drop_str. by rewrite take_drop_str.
  - apply blank_take_sp.
  - pose proof (blank_drop_ep d) as Hbl. rewrite Hdrop in Hbl.
    replace n with (Z.to_nat (TrimString_ep s - Z.of_nat sp + 1)) by lia. done.
Qed.

Lemma TrimString_strips_witness :
  (Z.of_nat (size " a b  ") < 2 ^ 31)%Z ∧
  ∃ a t b, TrimString " a b  " = Ok t ∧ " a b  "%string = a +:+ t +:+ b ∧
           blank a = true ∧ blank b = true ∧ keeps_first t ∧ keeps_last t ∧
           TrimString t = Ok t.
Proof.
  split; [by vm_compute|]. apply (TrimString_strips " a b  "). by vm_compute.
Defined.

Lemma find_split c s i :
  find c s = Some i → s = take_str i s +:+ drop_str i s ∧ at_ (drop_str i s) 0 = c.
Proof.
  revert i. induction s as [|d s IH]; intros i; simpl; [done|].
  case_decide as Hd; [by intros [= <-]|].
  destruct (find c s) as [j|]; simpl; [|done]. intros [= <-].
  destruct (IH j eq_refl) as [H1 H2]. cbn [take_str drop_str]. rewrite append_cons.
  split; [by rewrite <-H1|done].
Qed.

Lemma find_None_app c a b : find c (a +:+ b) = None → find c a = None ∧ find c b = None.
Proof.
  induction a as [|d a IH]; [by rewrite append_nil_l|].
  rewrite append_cons. simpl. case_decide; [done|].
  destruct (find c (a +:+ b)) eqn:Hab; [done|]. intros _.
  destruct (IH eq_refl) as [-> ->]. done.
Qed.

(** X2: [ParseValue] never throws and returns a prefix of its argument that
    holds no ['#']; what it cuts off begins with ['#'] or [';']; it returns
    the whole argument exactly when that holds neither character; and a
    [';'] can stay in the result only when a ['#'] follows it. *)
Theorem ParseValue_prefix (s : string) :
  ∃ v rest, ParseValue s = Ok v ∧ s = v +:+ rest ∧ find "#" v = None ∧
            (rest = EmptyString ∨ at_ rest 0 = "#" ∨ at_ rest 0 = ";") ∧
            (rest = EmptyString ↔ find "#" s = None ∧ find ";" s = None) ∧
            (find "#" s = None → find ";" v = None).
Proof.
  rewrite ParseValue_cut.
  destruct (find "#" s) as [i|] eqn:Hi.
  { destruct (find_split _ _ _ Hi) as [Hs H0].
    exists (take_str i s), (drop_str i s). split_and!; try done.
    - by apply find_take_before.
    - auto.
    - split; [|by intros [? _]]. intros Hr. rewrite Hr in H0. done. }
  destruct (find ";" s) as [j|] eqn:Hj.
  { destruct (find_split _ _ _ Hj) as [Hs H0].
    exists (take_str j s), (drop_str j s). split_and!; try done.
    - by apply find_take_str.
    - auto.
    - split; [|by intros [_ ?]]. intros Hr. rewrite Hr in H0. done.
    - intros _. by apply find_take_before. }
  exists s, EmptyString. split_and!; try done.
  - by rewrite append_nil_r.
  - auto.
Qed.

Lemma ParseLine_depth_repeat d rest :
  at_ rest 0 ≠ "[" → ParseLine_depth (repeat_char d "[" +:+ rest) = d.
Proof.
  intros H0. induction d as [|d IH]; simpl.
  - rewrite append_nil_l. destruct rest as [|c rest]; [done|]. simpl in *.
    destruct c as [[] [] [] [] [] [] [] []]; try done.
  - rewrite ?append_cons. simpl. by rewrite IH.
Qed.

(** X3: [ParseLine] counts the opening brackets and never looks at the
    closing ones: on a line of [d] brackets followed by [rest], the name is
    [rest] without its last [d] characters, whatever they are, and all of
    [rest] when it is shorter than [d] (the length [length() - 2 * depth]
    wraps around). *)
Theorem ParseLine_closing_brackets (this : Parser) (d : nat) (rest : string) :
  mConfigLine this = repeat_char d "[" +:+ rest →
  at_ rest 0 ≠ "[" →
  (Z.of_nat (size (mConfigLine this)) < 2 ^ 31)%Z →
  ParseLine this =
    Ok (if decide (d ≤ size rest) then take_str (size rest - d) rest else rest, d).
Proof.
  intros Hline H0 Hb. unfold ParseLine. rewrite Hline in Hb |- *.
  rewrite ParseLine_depth_repeat by done.
  rewrite size_app, size_repeat_char in Hb |- *.
  unfold substr. rewrite size_app, size_repeat_char.
  rewrite decide_False by lia. rewrite bind_Ok_l. do 2 f_equal.
  pose proof (drop_str_app (repeat_char d "[") rest) as Hd.
  rewrite size_repeat_char in Hd. rewrite Hd.
  case_decide as Hle.
  - rewrite size_t_small by lia. f_equal. lia.
  - unfold size_t.
    replace ((Z.of_nat (d + size rest) - 2 * Z.of_nat d) mod 2 ^ 64)%Z
      with (2 ^ 64 + Z.of_nat (size rest) - Z.of_nat d)%Z.
    2: { apply Z.mod_unique with (q := (-1)%Z); lia. }
    replace (Z.to_nat _) with (size rest) by lia. apply take_str_all.
Qed.

Lemma ParseLine_closing_brackets_witness :
  ParseLine (mkParser [] "[[ab)" 0) = Ok ("a"%string, 2) ∧
  ParseLine (mkParser [] "[[[a" 0) = Ok ("a"%string, 3).
Proof.
  split.
  - apply (ParseLine_closing_brackets (mkParser [] "[[ab)" 0) 2 "ab)"); [reflexivity|done|by vm_compute].
  - apply (ParseLine_closing_brackets (mkParser [] "[[[a" 0) 3 "a"); [reflexivity|done|by vm_compute].
Defined.

(** ** Tokenize on any string *)

Lemma all_chars_app P a b : all_chars P (a +:+ b) = all_chars P a && all_chars P b.
Proof.
  induction a as [|c a IH]; [by rewrite append_nil_l|].
  rewrite append_cons. simpl. by rewrite IH, andb_assoc.
Qed.

Lemma erase_remove_if_app P a b :
  erase_remove_if P (a +:+ b) = erase_remove_if P a +:+ erase_remove_if P b.
Proof.
  induction a as [|c a IH]; [by rewrite !append_nil_l|].
  rewrite append_cons. simpl. destruct (P c); [done|]. by rewrite append_cons, IH.
Qed.

Lemma erase_remove_if_none P s :
  all_chars (λ c, negb (P c)) s = true → erase_remove_if P s = s.
Proof.
  induction s as [|c s IH]; [done|]. simpl.
  destruct (P c); [done|]. simpl. intros H. by rewrite IH.
Qed.

Lemma concat_cons t v : String.concat EmptyString (t :: v) = t +:+ String.concat EmptyString v.
Proof. destruct v as [|u v]; [by rewrite append_nil_r|]. simpl. by rewrite ?append_nil_l. Qed.

Lemma concat_app v w :
  String.concat EmptyString (v ++ w) = String.concat EmptyString v +:+ String.concat EmptyString w.
Proof.
  induction v as [|t v IH]; [by rewrite append_nil_l|].
  rewrite <-app_comm_cons, !concat_cons, IH. by rewrite append_assoc.
Qed.

(** The loop keeps the characters that are not delimiters, in order. *)
Lemma Tokenize_loop_concat ds s init b :
  ∃ init' b', Tokenize_loop ds s (init ++ [b]) = init' ++ [b'] ∧
    String.concat EmptyString (init' ++ [b']) =
      String.concat EmptyString (init ++ [b]) +:+ erase_remove_if (delimiter_map ds) s ∧
    (Forall (λ t, all_chars (λ c, negb (delimiter_map ds c)) t = true) (init ++ [b]) →
     Forall (λ t, all_chars (λ c, negb (delimiter_map ds c)) t = true) (init' ++ [b'])).
Proof.
  revert init b. induction s as [|ch s IH]; intros init b.
  { exists init, b. simpl. by rewrite append_nil_r. }
  cbn [Tokenize_loop erase_remove_if].
  destruct (delimiter_map ds ch) eqn:Hch; cbn [negb].
  - rewrite back_size_snoc. case_decide as Hb.
    + destruct (IH (init ++ [b]) EmptyString) as (init' & b' & Heq & Hcat & Hall).
      exists init', b'. split_and!; [done| |].
      * rewrite Hcat. f_equal. rewrite concat_app. simpl. by rewrite append_nil_r.
      * intros H. apply Hall. apply Forall_app. split; [done|]. by apply Forall_singleton.
    + apply IH.
  - rewrite modify_back_snoc.
    destruct (IH init (push_back_char ch b)) as (init' & b' & Heq & Hcat & Hall).
    exists init', b'. split_and!; [done| |].
    + rewrite Hcat. rewrite !concat_app. simpl. unfold push_back_char.
      by rewrite !append_assoc.
    + intros H. apply Hall. apply Forall_app in H as [H1 [H2 _]%Forall_cons].
      apply Forall_app. split; [done|]. apply Forall_singleton.
      cbv beta in H2 |- *. unfold push_back_char. rewrite all_chars_app, H2. simpl. by rewrite Hch.
Qed.

Lemma pop_empty_back_concat v :
  String.concat EmptyString (pop_empty_back v) = String.concat EmptyString v.
Proof.
  induction v as [|x v IH]; [done|]. cbn [pop_empty_back].
  rewrite concat_cons, <-IH.
  destruct (pop_empty_back v) as [|y r] eqn:Hr.
  - case_decide as Hx.
    + apply size_0 in Hx as ->. done.
    + simpl. by rewrite append_nil_r.
  - by rewrite concat_cons.
Qed.

Lemma pop_empty_back_Forall (P : string → Prop) v : Forall P v → Forall P (pop_empty_back v).
Proof.
  induction 1 as [|x v Hx Hv IH]; [done|]. cbn [pop_empty_back].
  destruct (pop_empty_back v) as [|y r].
  - case_decide; [done|]. by apply Forall_singleton.
  - by apply Forall_cons.
Qed.

(** X4: [Tokenize] only removes delimiters: the tokens, put end to end, are
    the string without its delimiter characters, and no token holds a
    delimiter. *)
Theorem Tokenize_keeps_the_rest (xi_string xi_delimiters : string) :
  seven_bit xi_string = true → seven_bit xi_delimiters = true →
  String.concat EmptyString (Tokenize xi_string xi_delimiters) =
    erase_remove_if (delimiter_map xi_delimiters) xi_string ∧
  Forall (λ t, all_chars (λ c, negb (delimiter_map xi_delimiters c)) t = true)
    (Tokenize xi_string xi_delimiters).
Proof.
  intros _ _. unfold Tokenize.
  destruct (Tokenize_loop_concat xi_delimiters xi_string [] EmptyString)
    as (init & b & Heq & Hcat & Hall).
  simpl in Heq, Hcat, Hall. rewrite Heq. split.
  - rewrite pop_empty_back_concat, Hcat. by rewrite append_nil_l.
  - apply pop_empty_back_Forall, Hall. by apply Forall_singleton.
Qed.

Lemma Tokenize_keeps_the_rest_witness :
  String.concat EmptyString (Tokenize ",a,,b;c," ",;") = "abc"%string ∧
  Forall (λ t, all_chars (λ c, negb (delimiter_map ",;" c)) t = true) (Tokenize ",a,,b;c," ",;").
Proof.
  apply (Tokenize_keeps_the_rest ",a,,b;c," ",;"); reflexivity.
Defined.

(** Splitting what was joined. *)
Lemma Tokenize_loop_token ds t rest init b :
  all_chars (λ c, negb (delimiter_map ds c)) t = true →
  Tokenize_loop ds (t +:+ rest) (init ++ [b]) = Tokenize_loop ds rest (init ++ [b +:+ t]).
Proof.
  revert b. induction t as [|c t IH]; intros b; [by rewrite append_nil_l, append_nil_r|].
  cbn [all_chars]. intros [Hc Ht]%andb_true_iff.
  rewrite append_cons. cbn [Tokenize_loop]. rewrite Hc. rewrite modify_back_snoc.
  rewrite IH by done. unfold push_back_char. do 3 f_equal.
  rewrite append_assoc. by rewrite append_cons, append_nil_l.
Qed.

Lemma Tokenize_loop_joined ds (d : ascii) ts init :
  delimiter_map ds d = true →
  Forall (λ t, t ≠ EmptyString ∧ all_chars (λ c, negb (delimiter_map ds c)) t = true) ts →
  ts ≠ [] →
  Tokenize_loop ds (String.concat (String d EmptyString) ts) (init ++ [EmptyString]) = init ++ ts.
Proof.
  intros Hd Hts. revert init. induction Hts as [|t ts [Ht1 Ht2] Hts IH]; intros init Hne; [done|].
  destruct ts as [|u ts].
  { simpl. rewrite <-(append_nil_r t) at 1. rewrite Tokenize_loop_token by done.
    by rewrite append_nil_l. }
  change (String.concat (String d EmptyString) (t :: u :: ts))
    with (t +:+ String d EmptyString +:+ String.concat (String d EmptyString) (u :: ts)).
  rewrite Tokenize_loop_token by done. rewrite append_nil_l, append_cons, append_nil_l.
  cbn [Tokenize_loop]. rewrite Hd. cbn [negb]. rewrite back_size_snoc.
  rewrite decide_True by (by rewrite size_0).
  rewrite IH by done. by rewrite <-(assoc_L (++)).
Qed.

Lemma pop_empty_back_nonempty_id v : Forall nonempty v → pop_empty_back v = v.
Proof.
  induction 1 as [|x v Hx Hv IH]; [done|]. cbn [pop_empty_back]. rewrite IH.
  destruct v; [|done]. rewrite decide_False; [done|]. by rewrite size_0.
Qed.

Lemma Tokenize_concat (ds : string) (d : ascii) (ts : list string) :
  delimiter_map ds d = true →
  Forall (λ t, t ≠ EmptyString ∧ all_chars (λ c, negb (delimiter_map ds c)) t = true) ts →
  Tokenize (String.concat (String d EmptyString) ts) ds = ts.
Proof.
  intros Hd Hts. unfold Tokenize.
  destruct ts as [|t ts]; [done|].
  pose proof (Tokenize_loop_joined ds d (t :: ts) [] Hd) as Hloop.
  simpl app in Hloop. rewrite Hloop; [|done..].
  apply pop_empty_back_nonempty_id. eapply Forall_impl; [done|]. by intros ? [? _].
Qed.

(** X5: splitting what was joined: tokens that are not empty and hold no
    delimiter, written one after the other with one delimiter character
    between them, are given back by [Tokenize], in order. *)
Theorem Tokenize_joined (xi_delimiters : string) (d : ascii) (tokens : list string) :
  seven_bit xi_delimiters = true →
  delimiter_map xi_delimiters d = true →
  Forall (λ t, t ≠ EmptyString ∧ seven_bit t = true ∧
               all_chars (λ c, negb (delimiter_map xi_delimiters c)) t = true) tokens →
  Tokenize (String.concat (String d EmptyString) tokens) xi_delimiters = tokens.
Proof.
  intros _ Hd Hts. apply Tokenize_concat; [done|].
  eapply Forall_impl; [done|]. by intros ? (? & _ & ?).
Qed.

Lemma Tokenize_joined_witness :
  Tokenize "3,4,5}" "," = ["3"; "4"; "5}"]%string.
Proof.
  apply (Tokenize_joined "," "," ["3"; "4"; "5}"]%string); [reflexivity|reflexivity|].
  repeat constructor; done.
Defined.

(** ** CleanArrayString on any string *)

(** X6: [CleanArrayString] rejects the empty string only (a failed [assert],
    or [out_of_range] from [substr] under [NDEBUG]); of any other string it
    drops the first character, whatever it is, keeps the last one, removes
    the white space and splits at the commas. *)
Theorem CleanArrayString_braces_unchecked (NDEBUG : bool) (xi_string : string) :
  seven_bit xi_string = true →
  (Z.of_nat (size xi_string) < 2 ^ 64)%Z →
  CleanArrayString NDEBUG xi_string =
    match xi_string with
    | EmptyString => Throw (if NDEBUG then out_of_range else assertion_failure)
    | String _ str => Ok (Tokenize (erase_remove_if isspace str) ",")
    end.
Proof.
  intros _ Hb. unfold CleanArrayString. rewrite CleanArrayString_assert_cond.
  destruct xi_string as [|c str].
  { by destruct NDEBUG. }
  rewrite bool_decide_eq_false_2 by done. cbn [negb]. rewrite assert_true, bind_Ok_l.
  rewrite size_cons in Hb.
  unfold substr. rewrite size_cons. rewrite decide_False by lia. rewrite bind_Ok_l.
  cbn [drop_str]. rewrite size_t_small by lia.
  replace (Z.to_nat _) with (size str) by lia. by rewrite take_str_all.
Qed.

Lemma CleanArrayString_braces_unchecked_witness :
  CleanArrayString false "x3, 4" = Ok ["3"; "4"]%string ∧
  CleanArrayString true "" = Throw out_of_range.
Proof.
  split.
  - apply (CleanArrayString_braces_unchecked false "x3, 4"); [reflexivity|by vm_compute].
  - apply (CleanArrayString_braces_unchecked true ""); [reflexivity|by vm_compute].
Defined.

(** ** Numerals *)

Lemma pretty_N_char_digit m :
  (m < 10)%N →
  digit (pretty_N_char m) = Some (Z.of_N m) ∧ isspace (pretty_N_char m) = false ∧
  pretty_N_char m ≠ "-" ∧ pretty_N_char m ≠ "+" ∧ pretty_N_char m ≠ "," ∧
  seven_bit_char (pretty_N_char m) = true.
Proof.
  intros Hm.
  assert (m = 0 ∨ m = 1 ∨ m = 2 ∨ m = 3 ∨ m = 4 ∨ m = 5 ∨ m = 6 ∨ m = 7 ∨ m = 8 ∨ m = 9)%N
    as H by lia.
  repeat destruct H as [->|H]; try subst m; by split_and!.
Qed.

Lemma pretty_N_go_app x s r : pretty_N_go x s +:+ r = pretty_N_go x (s +:+ r).
Proof.
  revert s. induction (N.lt_wf_0 x) as [x _ IH]; intros s.
  destruct (decide (x = 0)%N) as [->|Hx]; [by rewrite !pretty_N_go_0|].
  rewrite (pretty_N_go_step x s), (pretty_N_go_step x (s +:+ r)) by lia.
  by rewrite IH by (apply N.div_lt; [lia|done]).
Qed.

Lemma strtol_digits_pretty x acc s :
  (0 < x)%N → default 0%Z acc = 0%Z →
  strtol_digits acc (pretty_N_go x s) = strtol_digits (Some (Z.of_N x)) s.
Proof.
  revert acc s. induction (N.lt_wf_0 x) as [x _ IH]; intros acc s Hx Hacc.
  rewrite pretty_N_go_step by done.
  destruct (pretty_N_char_digit (x `mod` 10)) as (Hd & _); [by apply N.mod_lt|].
  pose proof (N.div_mod x 10 ltac:(done)) as Hdm.
  assert (x `div` 10 < x)%N as Hlt by (by apply N.div_lt).
  revert Hd Hdm Hlt. generalize (x `mod` 10)%N (x `div` 10)%N. intros r q Hd Hdm Hlt.
  destruct (decide (q = 0)%N) as [Hq|Hq].
  - rewrite Hq, pretty_N_go_0. cbn [strtol_digits]. rewrite Hd, Hacc.
    replace (10 * 0 + Z.of_N r)%Z with (Z.of_N x) by lia. done.
  - rewrite (IH q Hlt acc _ ltac:(lia) Hacc).
    cbn [strtol_digits]. rewrite Hd. simpl default.
    replace (10 * Z.of_N q + Z.of_N r)%Z with (Z.of_N x) by lia. done.
Qed.

Lemma strtol_digits_stop v rest :
  digit (at_ rest 0) = None → strtol_digits (Some v) rest = Some v.
Proof. destruct rest as [|c rest]; [done|]. simpl. by intros ->. Qed.

Lemma pretty_N_go_head x s :
  (0 < x)%N → ∃ m t, (m < 10)%N ∧ pretty_N_go x s = String (pretty_N_char m) t.
Proof.
  revert s. induction (N.lt_wf_0 x) as [x _ IH]; intros s Hx.
  rewrite pretty_N_go_step by done.
  destruct (decide (x `div` 10 = 0)%N) as [Hq|Hq].
  - rewrite Hq, pretty_N_go_0. eexists _, _. split; [|done]. by apply N.mod_lt.
  - apply IH; [by apply N.div_lt|by apply N.neq_0_lt_0].
Qed.

(** The numeral of a natural number is read back by the digit loop. *)
Lemma strtol_digits_numeral (n : N) rest :
  digit (at_ rest 0) = None →
  ∃ m t, (m < 10)%N ∧ pretty n +:+ rest = String (pretty_N_char m) t ∧
         strtol_digits None (pretty n +:+ rest) = Some (Z.of_N n).
Proof.
  intros Hrest. unfold pretty, pretty_N. case_decide as Hn.
  { subst n. exists 0%N, rest. split_and!; [lia|done|].
    simpl. by apply strtol_digits_stop. }
  rewrite pretty_N_go_app, append_nil_l.
  destruct (pretty_N_go_head n rest) as (m & t & Hm & Ht); [lia|].
  exists m, t. split_and!; [done..|].
  rewrite strtol_digits_pretty by (done || lia). by apply strtol_digits_stop.
Qed.

Lemma stoi_unsigned c t :
  isspace c = false → c ≠ "-" → c ≠ "+" →
  stoi (String c t) =
    match strtol_digits None (String c t) with
    | None => Throw invalid_argument
    | Some v => if decide (- 2 ^ 31 ≤ v < 2 ^ 31)%Z then Ok v else Throw out_of_range
    end.
Proof.
  intros Hsp Hm Hp. unfold stoi. cbn [skip_space]. rewrite Hsp.
  destruct c as [[] [] [] [] [] [] [] []]; try done.
Qed.

Lemma stoi_numeral (z : Z) rest :
  digit (at_ rest 0) = None →
  stoi (pretty z +:+ rest) =
    if decide (- 2 ^ 31 ≤ z < 2 ^ 31)%Z then Ok z else Throw out_of_range.
Proof.
  intros Hrest. destruct z as [|p|p].
  - change (pretty 0%Z) with (pretty 0%N).
    destruct (strtol_digits_numeral 0 rest Hrest) as (m & t & Hm & Ht & Hv).
    destruct (pretty_N_char_digit m Hm) as (_ & ? & ? & ? & _).
    rewrite Ht in Hv |- *. rewrite stoi_unsigned by done. by rewrite Hv.
  - change (pretty (Z.pos p)) with (pretty (N.pos p)).
    destruct (strtol_digits_numeral (N.pos p) rest Hrest) as (m & t & Hm & Ht & Hv).
    destruct (pretty_N_char_digit m Hm) as (_ & ? & ? & ? & _).
    rewrite Ht in Hv |- *. rewrite stoi_unsigned by done. by rewrite Hv.
  - change (pretty (Z.neg p)) with ("-" +:+ pretty (N.pos p))%string.
    destruct (strtol_digits_numeral (N.pos p) rest Hrest) as (m & t & Hm & Ht & Hv).
    rewrite append_assoc. rewrite append_cons, append_nil_l.
    unfold stoi. cbn [skip_space isspace]. rewrite Hv. done.
Qed.



(** ** Array texts *)

Lemma concat_comma_cons sep e u elems :
  String.concat sep (e :: u :: elems) = e +:+ sep +:+ String.concat sep (u :: elems).
Proof. done. Qed.

Lemma erase_isspace_array elems :
  Forall (λ e, all_chars (λ c, negb (isspace c)) e = true) elems →
  erase_remove_if isspace (String.concat ", " elems) = String.concat "," elems.
Proof.
  induction 1 as [|e elems He _ IH]; [done|].
  destruct elems as [|u elems].
  { simpl. by apply erase_remove_if_none. }
  rewrite !concat_comma_cons, !erase_remove_if_app, IH.
  by rewrite erase_remove_if_none.
Qed.

Lemma concat_close_last elems :
  String.concat "," elems +:+ "}" = String.concat "," (close_last elems).
Proof.
  induction elems as [|e elems IH]; [done|].
  destruct elems as [|u elems]; [done|].
  rewrite concat_comma_cons. change (close_last (e :: u :: elems)) with (e :: close_last (u :: elems)).
  destruct (close_last (u :: elems)) as [|v w] eqn:Hcl; [by destruct elems|].
  rewrite concat_comma_cons, <-IH. by rewrite !append_assoc.
Qed.

Lemma close_last_Forall (P : string → Prop) elems :
  P "}"%string → (∀ e, P e → P (e +:+ "}")) → Forall P elems → Forall P (close_last elems).
Proof.
  intros H0 H1. induction 1 as [|e elems He Hes IH]; [by apply Forall_singleton|].
  destruct elems as [|u elems].
  - apply Forall_singleton. by apply H1.
  - change (close_last (e :: u :: elems)) with (e :: close_last (u :: elems)).
    by apply Forall_cons.
Qed.

(** What [CleanArrayString] makes of an array text. *)
Lemma CleanArrayString_array (NDEBUG : bool) elems :
  Forall (λ e, e ≠ EmptyString ∧
               all_chars (λ c, negb (isspace c) && negb (delimiter_map "," c)) e = true) elems →
  (Z.of_nat (size (array_text elems)) < 2 ^ 64)%Z →
  CleanArrayString NDEBUG (array_text elems) = Ok (close_last elems).
Proof.
  intros Helems Hb.
  assert (∀ e P Q, all_chars (λ c, P c && Q c) e = true →
                    all_chars P e = true ∧ all_chars Q e = true) as Hsplit.
  { intros e P Q. induction e as [|c e IH]; [done|]. simpl.
    intros [[-> ->]%andb_true_iff H]%andb_true_iff. destruct (IH H) as [-> ->]. done. }
  unfold CleanArrayString. rewrite CleanArrayString_assert_cond.
  unfold array_text in *. rewrite append_cons, append_nil_l in Hb |- *.
  rewrite bool_decide_eq_false_2 by done. cbn [negb]. rewrite assert_true, bind_Ok_l.
  rewrite size_cons in Hb.
  unfold substr. rewrite size_cons. rewrite decide_False by lia. rewrite bind_Ok_l.
  cbn [drop_str]. rewrite size_t_small by lia.
  replace (Z.to_nat _) with (size (String.concat ", " elems +:+ "}")) by lia.
  rewrite take_str_all. rewrite erase_remove_if_app, erase_isspace_array.
  2: { eapply Forall_impl; [done|]. intros e [_ He]. by apply Hsplit in He as [? _]. }
  change (erase_remove_if isspace "}") with "}"%string.
  rewrite concat_close_last. f_equal.
  apply (Tokenize_concat "," ","); [done|].
  apply close_last_Forall; [done| |].
  - intros e [He1 He2]. split; [by destruct e|]. by rewrite all_chars_app, He2.
  - eapply Forall_impl; [done|]. intros e [He1 He2]. split; [done|].
    by apply Hsplit in He2 as [_ ?].
Qed.

Lemma all_chars_impl (P Q : ascii → bool) s :
  (∀ c, P c = true → Q c = true) → all_chars P s = true → all_chars Q s = true.
Proof.
  intros HPQ. induction s as [|c s IH]; [done|]. simpl.
  intros [Hc Hs]%andb_true_iff. by rewrite (HPQ c Hc), IH.
Qed.

Lemma all_chars_pretty_N_go (P : ascii → bool) x s :
  (∀ m, (m < 10)%N → P (pretty_N_char m) = true) →
  all_chars P s = true → all_chars P (pretty_N_go x s) = true.
Proof.
  intros HP. revert s. induction (N.lt_wf_0 x) as [x _ IH]; intros s Hs.
  destruct (decide (x = 0)%N) as [->|Hx]; [by rewrite pretty_N_go_0|].
  rewrite pretty_N_go_step by lia. apply IH; [apply N.div_lt; [lia|done]|].
  simpl. rewrite HP by (by apply N.mod_lt). done.
Qed.

(** A numeral is not empty and has neither white space nor a comma. *)
Lemma pretty_Z_token (z : Z) :
  pretty z ≠ EmptyString ∧
  all_chars (λ c, negb (isspace c) && negb (delimiter_map "," c)) (pretty z) = true.
Proof.
  set (P := λ c, negb (isspace c) && negb (delimiter_map "," c)).
  assert (∀ m, (m < 10)%N → P (pretty_N_char m) = true) as HP.
  { intros m Hm. destruct (pretty_N_char_digit m Hm) as (_ & Hsp & _ & _ & Hc & _).
    unfold P. rewrite Hsp. simpl. rewrite bool_decide_eq_false_2; [done|].
    intros Heq. by apply Hc. }
  assert (∀ n : N, pretty n ≠ EmptyString ∧ all_chars P (pretty n) = true) as HN.
  { intros n. unfold pretty, pretty_N. case_decide as Hn; [done|]. split.
    - destruct (pretty_N_go_head n EmptyString) as (m & t & _ & ->); [lia|done].
    - by apply all_chars_pretty_N_go. }
  destruct z as [|p|p]; [done|apply (HN (N.pos p))|].
  change (pretty (Z.neg p)) with ("-" +:+ pretty (N.pos p))%string.
  split; [done|]. rewrite all_chars_app. by rewrite (proj2 (HN (N.pos p))).
Qed.

Lemma cast_each_close_last {A} (cast : string → outcome A) (elems : list string) (xs : list A) :
  Forall2 (λ e x, cast e = Ok x ∧ cast (e +:+ "}") = Ok x) elems xs →
  elems ≠ [] →
  cast_each cast (close_last elems) = Ok xs.
Proof.
  induction 1 as [|e x elems xs [He1 He2] Hrest IH]; [done|]. intros _.
  destruct Hrest as [|e' x' elems xs He' Hrest].
  { simpl. by rewrite He2. }
  change (close_last (e :: e' :: elems)) with (e :: close_last (e' :: elems)).
  cbn [cast_each]. rewrite He1, bind_Ok_l, IH by done. done.
Qed.

(** X8: the array text of a list of 32-bit integers, ["{z1, z2, ..., zn}"],
    is cast back to the list by [GetAs<std::vector<int>>]; the text ["{}"]
    of the empty list throws [invalid_argument], its only token being the
    closing brace. *)
Theorem GetAs_vector_int_array (NDEBUG : bool) (zs : list Z) :
  Forall (λ z, - 2 ^ 31 ≤ z < 2 ^ 31)%Z zs →
  (Z.of_nat (size (array_text (pretty <$> zs))) < 2 ^ 64)%Z →
  GetAs_vector_int NDEBUG (array_text (pretty <$> zs)) =
    if decide (zs = []) then Throw invalid_argument else Ok zs.
Proof.
  intros Hzs Hb. unfold GetAs_vector_int.
  rewrite CleanArrayString_array, bind_Ok_l; [|by apply Forall_fmap, Forall_true, pretty_Z_token|done].
  case_decide as Hnil; [by subst zs|].
  apply cast_each_close_last; [|by destruct zs].
  apply Forall2_fmap_l, Forall_Forall2_diag.
  eapply Forall_impl; [done|]. intros z Hz. split.
  - rewrite <-(append_nil_r (pretty z)). rewrite stoi_numeral by done. by rewrite decide_True.
  - rewrite stoi_numeral by done. by rewrite decide_True.
Qed.

Lemma GetAs_vector_int_array_witness :
  GetAs_vector_int false "{3, -4, 5}" = Ok [3; -4; 5]%Z ∧
  GetAs_vector_int false "{}" = Throw invalid_argument.
Proof.
  split.
  - apply (GetAs_vector_int_array false [3; -4; 5]%Z); [|by vm_compute].
    repeat constructor; done.
  - apply (GetAs_vector_int_array false []); [constructor|by vm_compute].
Defined.

Lemma bool_text_token (b : bool) :
  bool_text b ≠ EmptyString ∧
  all_chars (λ c, negb (isspace c) && negb (delimiter_map "," c)) (bool_text b) = true.
Proof. by destruct b. Qed.

(** X9: in the array text of a list of booleans the last element is always
    read as [false], the closing brace being part of its token; the other
    elements are read back, and ["{}"] yields the one-element vector
    [false]. *)
Theorem GetAs_vector_bool_array (NDEBUG : bool) (bs : list bool) :
  (Z.of_nat (size (array_text (bool_text <$> bs))) < 2 ^ 64)%Z →
  GetAs_vector_bool NDEBUG (array_text (bool_text <$> bs)) = Ok (removelast bs ++ [false]).
Proof.
  intros Hb. unfold GetAs_vector_bool.
  rewrite CleanArrayString_array, bind_Ok_l; [|by apply Forall_fmap, Forall_true, bool_text_token|done].
  clear Hb. induction bs as [|b bs IH]; [done|].
  destruct bs as [|b' bs].
  { by destruct b. }
  change (close_last (bool_text <$> b :: b' :: bs))
    with (bool_text b :: close_last (bool_text <$> b' :: bs)).
  cbn [cast_each]. rewrite bind_Ok_l, IH, bind_Ok_l.
  change (removelast (b :: b' :: bs)) with (b :: removelast (b' :: bs)).
  by destruct b.
Qed.

Lemma GetAs_vector_bool_array_witness :
  GetAs_vector_bool false "{true, true}" = Ok [true; false] ∧
  GetAs_vector_bool false "{}" = Ok [false].
Proof.
  split.
  - apply (GetAs_vector_bool_array false [true; true]). by vm_compute.
  - apply (GetAs_vector_bool_array false []). by vm_compute.
Defined.

(** ** GetAs<long> *)

Lemma stoul_unsigned long_bits c t :
  isspace c = false → c ≠ "-" → c ≠ "+" →
  stoul long_bits (String c t) =
    match strtol_digits None (String c t) with
    | None => Throw invalid_argument
    | Some v => if decide (v < 2 ^ long_bits)%Z then Ok v else Throw out_of_range
    end.
Proof.
  intros Hsp Hm Hp. unfold stoul. cbn [skip_space]. rewrite Hsp.
  destruct c as [[] [] [] [] [] [] [] []]; try done.
Qed.

Lemma stoul_numeral long_bits (z : Z) rest :
  digit (at_ rest 0) = None →
  stoul long_bits (pretty z +:+ rest) =
    if decide (- 2 ^ long_bits < z < 2 ^ long_bits)%Z
    then Ok (z mod 2 ^ long_bits)%Z else Throw out_of_range.
Proof.
  intros Hrest.
  assert (0 < 2 ^ long_bits ∨ long_bits < 0 ∧ 2 ^ long_bits = 0)%Z as Hpow.
  { destruct (decide (0 ≤ long_bits)%Z); [left; by apply Z.pow_pos_nonneg|].
    right. split; [lia|]. apply Z.pow_neg_r. lia. }
  destruct z as [|p|p].
  - change (pretty 0%Z) with (pretty 0%N).
    destruct (strtol_digits_numeral 0 rest Hrest) as (m & t & Hm & Ht & Hv).
    destruct (pretty_N_char_digit m Hm) as (_ & ? & ? & ? & _).
    rewrite Ht in Hv |- *. rewrite stoul_unsigned by done. rewrite Hv. simpl Z.of_N.
    destruct Hpow as [Hpow|[_ Hpow]].
    + rewrite !decide_True by lia. by rewrite Z.mod_0_l by lia.
    + rewrite Hpow. rewrite !decide_False by lia. done.
  - change (pretty (Z.pos p)) with (pretty (N.pos p)).
    destruct (strtol_digits_numeral (N.pos p) rest Hrest) as (m & t & Hm & Ht & Hv).
    destruct (pretty_N_char_digit m Hm) as (_ & ? & ? & ? & _).
    rewrite Ht in Hv |- *. rewrite stoul_unsigned by done. rewrite Hv. simpl Z.of_N.
    destruct (decide (Z.pos p < 2 ^ long_bits)%Z) as [Hlt|Hge].
    + rewrite decide_True by lia. by rewrite Z.mod_small by lia.
    + by rewrite decide_False by lia.
  - change (pretty (Z.neg p)) with ("-" +:+ pretty (N.pos p))%string.
    destruct (strtol_digits_numeral (N.pos p) rest Hrest) as (m & t & Hm & Ht & Hv).
    rewrite append_assoc. rewrite append_cons, append_nil_l.
    unfold stoul. cbn [skip_space isspace]. rewrite Hv. simpl Z.of_N.
    destruct (decide (Z.pos p < 2 ^ long_bits)%Z) as [Hlt|Hge].
    + rewrite decide_True by lia. done.
    + by rewrite decide_False by lia.
Qed.

Lemma to_long_wrap long_bits z :
  (0 < long_bits)%Z → (- 2 ^ long_bits < z < 2 ^ long_bits)%Z →
  to_long long_bits (z mod 2 ^ long_bits) =
    ((z + 2 ^ (long_bits - 1)) mod 2 ^ long_bits - 2 ^ (long_bits - 1))%Z.
Proof.
  intros Hw Hz.
  assert (2 ^ long_bits = 2 * 2 ^ (long_bits - 1))%Z as Hpow.
  { rewrite <-Z.pow_succ_r by lia. f_equal. lia. }
  assert (0 < 2 ^ (long_bits - 1))%Z as Hhalf by (apply Z.pow_pos_nonneg; lia).
  unfold to_long. revert Hz. rewrite Hpow. generalize (2 ^ (long_bits - 1))%Z Hhalf.
  intros M HM Hz.
  destruct (decide (0 ≤ z)%Z) as [Hnn|Hneg].
  - rewrite (Z.mod_small z) by lia. case_decide as Hlt.
    + rewrite Z.mod_small by lia. lia.
    + rewrite <-(Z.mod_unique (z + M) (2 * M) 1 (z - M)%Z) by lia. lia.
  - rewrite <-(Z.mod_unique z (2 * M) (-1) (z + 2 * M)%Z) by lia. case_decide as Hlt.
    + rewrite <-(Z.mod_unique (z + M) (2 * M) (-1) (z + 3 * M)%Z) by lia. lia.
    + rewrite (Z.mod_small (z + M)) by lia. lia.
Qed.



(** X11: [GetAs<std::vector<long>>] reads the array text of a list of
    integers element by element in the same way, each one reduced modulo
    [2^long_bits] into the range of [long]; ["{}"] throws
    [invalid_argument]. *)
Theorem GetAs_vector_long_array (NDEBUG : bool) (long_bits : Z) (zs : list Z) :
  (0 < long_bits)%Z →
  Forall (λ z, - 2 ^ long_bits < z < 2 ^ long_bits)%Z zs →
  (Z.of_nat (size (array_text (pretty <$> zs))) < 2 ^ 64)%Z →
  GetAs_vector_long NDEBUG long_bits (array_text (pretty <$> zs)) =
    if decide (zs = []) then Throw invalid_argument
    else Ok ((λ z, (z + 2 ^ (long_bits - 1)) mod 2 ^ long_bits - 2 ^ (long_bits - 1))%Z <$> zs).
Proof.
  intros Hw Hzs Hb. unfold GetAs_vector_long.
  rewrite CleanArrayString_array, bind_Ok_l; [|by apply Forall_fmap, Forall_true, pretty_Z_token|done].
  case_decide as Hnil; [by subst zs|].
  apply cast_each_close_last; [|by destruct zs].
  apply Forall2_fmap, Forall_Forall2_diag.
  eapply Forall_impl; [done|]. intros z Hz. split.
  - rewrite <-(append_nil_r (pretty z)). rewrite stoul_numeral by done.
    rewrite decide_True by done. rewrite bind_Ok_l. f_equal. by apply to_long_wrap.
  - rewrite stoul_numeral by done.
    rewrite decide_True by done. rewrite bind_Ok_l. f_equal. by apply to_long_wrap.
Qed.

Lemma GetAs_vector_long_array_witness :
  GetAs_vector_long false 64 "{-1, 18446744073709551615}" = Ok [-1; -1]%Z.
Proof.
  apply (GetAs_vector_long_array false 64 [-1; 18446744073709551615]%Z); [done| |by vm_compute].
  repeat constructor; done.
Defined.

(** ** The floating-point vectors *)

(** X12: [GetAs<std::vector<float>>] and [GetAs<std::vector<double>>] hand
    the elements of an array text to [std::stof] and [std::stod] from left
    to right, the last one together with the closing brace, and the lone
    brace of ["{}"]; the result is the list of the values, or the first
    exception. *)
Theorem GetAs_vector_float_array (float double : Type)
    (stof : string → outcome float) (stod : string → outcome double)
    (NDEBUG : bool) (elems : list string) :
  Forall (λ e, e ≠ EmptyString ∧ seven_bit e = true ∧
               all_chars (λ c, negb (isspace c) && negb (delimiter_map "," c)) e = true) elems →
  (Z.of_nat (size (array_text elems)) < 2 ^ 64)%Z →
  GetAs_vector_float float stof NDEBUG (array_text elems) = cast_each stof (close_last elems) ∧
  GetAs_vector_double double stod NDEBUG (array_text elems) = cast_each stod (close_last elems).
Proof.
  intros Helems Hb. unfold GetAs_vector_float, GetAs_vector_double.
  rewrite CleanArrayString_array; [done| |done].
  eapply Forall_impl; [done|]. by intros e (? & _ & ?).
Qed.

Lemma GetAs_vector_float_array_witness :
  GetAs_vector_float string (λ t, Ok t) false "{1.5, 2}" = Ok ["1.5"; "2}"]%string ∧
  GetAs_vector_double string (λ t, Ok t) false "{1.5, 2}" = Ok ["1.5"; "2}"]%string.
Proof.
  apply (GetAs_vector_float_array string string (λ t, Ok t) (λ t, Ok t) false ["1.5"; "2"]%string);
    [|by vm_compute].
  repeat constructor; done.
Defined.

(** ** Every outcome of a line *)

Lemma TrimString_total s : ∃ t, TrimString s = Ok t.
Proof.
  unfold TrimString, substr. rewrite decide_False; [by eexists|].
  unfold size. induction s as [|c s IH]; cbn [TrimString_sp String.length]; [lia|].
  destruct (strchr toTrim c); lia.
Qed.

Lemma substr_total s pos cnt : pos ≤ size s → ∃ t, substr s pos cnt = Ok t.
Proof. intros H. unfold substr. rewrite decide_False by lia. by eexists. Qed.

Lemma ParseLine_total this : ∃ name, ParseLine this = Ok (name, ParseLine_depth (mConfigLine this)).
Proof.
  unfold ParseLine, substr. rewrite decide_False; [by eexists|].
  unfold size. induction (mConfigLine this) as [|c s IH]; [simpl; lia|].
  destruct (decide (c = "[")) as [->|Hc]; [simpl; lia|].
  replace (ParseLine_depth (String c s)) with 0; [lia|].
  simpl. destruct c as [[] [] [] [] [] [] [] []]; done.
Qed.

(** A header at [depth] read while [xi] is the reading section: it is
    refused when it is more than one level below [xi]; otherwise its parent
    [P] is the section [mDepth + 1 - depth] levels above [xi], and it is
    refused when [P] has a child of that name already. *)
Lemma ParseSection_open_cases this xi cur name depth :
  wf_store (sections this) →
  sections this !! xi = Some cur →
  0 < depth →
  if decide (mDepth cur + 1 < depth)
  then ParseSection_open this xi name depth = Error this "Section with wrong depth."
  else ∃ P ps,
    ancestor (sections this) (mDepth cur + 1 - depth) xi = Ok P ∧
    sections this !! P = Some ps ∧ mDepth ps + 1 = depth ∧
    ParseSection_open this xi name depth =
      match mSections ps !! name with
      | Some _ => Error this "Duplicate section name on the same level."
      | None =>
          Ok (<[P := add_child name (length (sections this)) ps]> (sections this)
                ++ [new_child P depth], length (sections this))
      end.
Proof.
  intros Hwf Hcur Hpos.
  unfold ParseSection_open.
  rewrite (deref_Some _ _ _ Hcur). simpl.
  case_decide as Hdeep; [done|].
  assert (∃ P ps, (if decide (mDepth cur = depth - 1) then Ok xi
                   else deref_opt (mParent cur) ≫= λ lp, ancestor (sections this) (mDepth cur - depth) lp)
                  = Ok P ∧ ancestor (sections this) (mDepth cur + 1 - depth) xi = Ok P ∧
                  sections this !! P = Some ps ∧ mDepth ps + 1 = depth)
    as (P & ps & -> & Hn & HP & Hd).
  { case_decide as Hlevel.
    - exists xi, cur. replace (mDepth cur + 1 - depth) with 0 by lia. split_and!; [done..|lia].
    - destruct (wf_depth_parent _ xi cur Hwf Hcur) as (p & ps & Hp & Hps & Hdp); [lia|].
      rewrite Hp. simpl.
      destruct (ancestor_Ok _ (mDepth cur - depth) p ps Hwf Hps) as (q & qs & Hq & Hqs & Hdq); [lia|].
      exists q, qs. replace (mDepth cur + 1 - depth) with (S (mDepth cur - depth)) by lia.
      split_and!; [done| |done|lia].
      simpl. rewrite (deref_Some _ _ _ Hcur). simpl. by rewrite Hp. }
  exists P, ps. split_and!; [done..|].
  simpl. unfold Section_call. rewrite (deref_Some _ _ _ HP). simpl.
  destruct (mSections ps !! name) as [q|] eqn:Hname; simpl.
  { destruct (wf_child _ Hwf P ps name q HP Hname) as (c & Hc & _ & Hdc).
    rewrite (deref_Some _ _ _ Hc). simpl. rewrite decide_True by lia. done. }
  pose proof (lookup_lt_Some _ _ _ HP) as HPlt.
  set (len := length (sections this)) in *.
  set (ps1 := set_mSections (insert name len) ps).
  assert ((<[P:=ps1]> (sections this) ++ [Section_default]) !! len = Some Section_default) as Hlen.
  { rewrite lookup_app_r by (by rewrite length_insert).
    by rewrite length_insert, Nat.sub_diag. }
  rewrite (deref_Some _ _ _ Hlen). simpl.
  do 2 f_equal.
  rewrite (update_lookup _ len _ _ Hlen).
  replace len with (length (<[P:=ps1]> (sections this)) + 0) at 1
    by (rewrite length_insert; unfold len; lia).
  rewrite insert_app_r. simpl.
  erewrite update_lookup; last first.
  { rewrite lookup_app_l by (by rewrite length_insert).
    by apply list_lookup_insert_eq. }
  rewrite insert_app_l by (by rewrite length_insert).
  by rewrite list_insert_insert_eq.
Qed.


Lemma ParseSection_iteration_Throw this xi e :
  wf_store (sections this) → is_Some (sections this !! xi) →
  ParseSection_iteration this xi = Throw e →
  ∃ label, e = runtime_error label (mLineNumber this) ∧ label ∈ error_labels.
Proof.
  intros Hwf [cur Hcur]. unfold ParseSection_iteration.
  case_decide as Hcomment; [done|].
  destruct (TrimString_total (mConfigLine this)) as [line ->]. rewrite bind_Ok_l.
  case_decide as Hempty; [done|].
  case_decide as Hopen.
  - unfold ParseSection_header.
    destruct (ParseLine_total (mkParser (sections this) line (mLineNumber this))) as [name ->].
    rewrite bind_Ok_l. cbn [mConfigLine].
    pose proof (ParseSection_open_cases (mkParser (sections this) line (mLineNumber this))
                  xi cur name (ParseLine_depth line) Hwf Hcur (ParseLine_depth_pos _ Hopen)) as Hcases.
    case_decide as Hdeep.
    + rewrite Hcases. intros [= <-]. eexists. split; [done|]. unfold error_labels. set_solver.
    + destruct Hcases as (P & ps & _ & _ & _ & ->).
      destruct (mSections ps !! name); [|done].
      intros [= <-]. eexists. split; [done|]. unfold error_labels. set_solver.
  - unfold ParseSection_pair. cbn [mConfigLine sections mLineNumber].
    destruct (find "=" line) as [n|] eqn:Hn.
    2: { intros [= <-]. eexists. split; [done|]. unfold error_labels. set_solver. }
    pose proof (find_lt _ _ _ Hn) as Hlt.
    match goal with |- context [substr line (n + 1) ?c] =>
      destruct (substr_total line (n + 1) c) as [rhs0 ->]; [lia|] end.
    rewrite bind_Ok_l.
    match goal with |- context [TrimString ?s] => destruct (TrimString_total s) as [rhs ->] end.
    rewrite bind_Ok_l, ParseValue_cut, bind_Ok_l.
    rewrite substr_prefix by lia. rewrite bind_Ok_l.
    match goal with |- context [TrimString ?s] => destruct (TrimString_total s) as [key ->] end.
    rewrite bind_Ok_l. unfold ParseSection_insert. cbn [sections].
    rewrite (deref_Some _ _ _ Hcur), bind_Ok_l.
    destruct (mValues cur !! key); [|done].
    intros [= <-]. eexists. split; [done|]. unfold error_labels. set_solver.
Qed.

Lemma ParseSection_iteration_line_number this xi this' xi' :
  ParseSection_iteration this xi = Ok (this', xi') → mLineNumber this' = mLineNumber this.
Proof.
  unfold ParseSection_iteration. intros Hit.
  case_decide; [by injection Hit as <- _|].
  apply bind_Ok in Hit as (t & _ & Hit).
  case_decide; [by injection Hit as <- _|].
  case_decide.
  - apply bind_Ok in Hit as ([h lp] & _ & Hit). by injection Hit as <- _.
  - apply bind_Ok in Hit as (h & _ & Hit). by injection Hit as <- _.
Qed.

(** A parse that fails fails at its first line that cannot be read: the
    lines before it are parsed, and the error carries its number. *)
Lemma ParseSection_Throw lines this xi e :
  wf_store (sections this) → is_Some (sections this !! xi) →
  ParseSection lines this xi = Throw e →
  ∃ label i, e = runtime_error label (mLineNumber this + S i) ∧ label ∈ error_labels ∧
             i < length lines ∧
             (∃ p1, ParseSection (take i lines) this xi = Ok p1) ∧
             ParseSection (take (S i) lines) this xi = Throw e.
Proof.
  revert this xi. induction lines as [|line lines IH]; intros this xi Hwf Hxi; [done|].
  cbn [ParseSection].
  destruct (ParseSection_iteration _ _) as [[this' xi']|e'] eqn:Hit.
  - rewrite bind_Ok_l. intros Hrun.
    pose proof (ParseSection_iteration_line_number _ _ _ _ Hit) as Hln. cbn [mLineNumber] in Hln.
    pose proof Hit as Hit'.
    apply ParseSection_iteration_wf in Hit' as (Hwf' & Hxi' & _); [|done..].
    destruct (IH _ _ Hwf' Hxi' Hrun) as (label & i & -> & Hl & Hi & Hpre & Hfail).
    exists label, (S i). split_and!; [f_equal; lia|done|simpl; lia| |].
    + cbn [take ParseSection]. by rewrite Hit, bind_Ok_l.
    + change (take (S (S i)) (line :: lines)) with (line :: take (S i) lines).
      cbn [ParseSection]. by rewrite Hit, bind_Ok_l.
  - intros [= <-].
    pose proof Hit as Hit'.
    apply ParseSection_iteration_Throw in Hit' as (label & -> & Hl); [|done..].
    exists label, 0. split_and!; [simpl; f_equal; lia|done|simpl; lia|by eexists|].
    cbn [take ParseSection]. by rewrite Hit.
Qed.

(** X13: a parse that fails throws the [std::runtime_error] of
    [Parser::Error] and nothing else (no null parent is followed, no
    [substr] starts past the end): its label is one of the four of
    [ParseSection]; its line number [n] is that of the first line that
    cannot be read: the [n - 1] lines before it are parsed without error,
    and the input cut after line [n] fails with the same error. *)
Theorem Parser_new_throws (xi_file : string) (e : exception) :
  (Z.of_nat (size xi_file) < 2 ^ 31)%Z →
  Parser_new xi_file = Throw e →
  ∃ label n, e = runtime_error label n ∧
    label ∈ ["Section with wrong depth."; "Duplicate section name on the same level.";
             "no '=' found"; "duplicated key found"]%string ∧
    1 ≤ n ≤ length (getlines xi_file) ∧
    (∃ p1, ParseSection (take (n - 1) (getlines xi_file)) Parser_init root = Ok p1) ∧
    ParseSection (take n (getlines xi_file)) Parser_init root = Throw e.
Proof.
  intros _ Hrun. unfold Parser_new in Hrun.
  apply ParseSection_Throw in Hrun as (label & i & -> & Hl & Hi & Hpre & Hfail);
    [|apply wf_store_init|by eexists].
  exists label, (S i). split_and!; [done..|lia|lia| |done].
  by rewrite Nat.sub_1_r.
Qed.

Lemma Parser_new_throws_witness :
  Parser_new (text ["a=1"; "a=2"; "b"]%string) = Throw (runtime_error "duplicated key found" 2) ∧
  ∃ label n, runtime_error "duplicated key found" 2 = runtime_error label n ∧
    label ∈ ["Section with wrong depth."; "Duplicate section name on the same level.";
             "no '=' found"; "duplicated key found"]%string ∧
    1 ≤ n ≤ length (getlines (text ["a=1"; "a=2"; "b"]%string)) ∧
    (∃ p1, ParseSection (take (n - 1) (getlines (text ["a=1"; "a=2"; "b"]%string)))
             Parser_init root = Ok p1) ∧
    ParseSection (take n (getlines (text ["a=1"; "a=2"; "b"]%string))) Parser_init root =
      Throw (runtime_error "duplicated key found" 2).
Proof.
  split; [reflexivity|].
  apply (Parser_new_throws (text ["a=1"; "a=2"; "b"]%string)); [by vm_compute|reflexivity].
Defined.

(** X14: a header line of depth [d] and name [n], read while the section
    [cur] is reading: when [d] is more than one level below [cur] the parse
    stops with "Section with wrong depth."; otherwise the parent is the
    section [mDepth cur + 1 - d] levels above [cur]; when it has a child
    called [n] already the parse stops with "Duplicate section name on the
    same level.", and when it has none a new empty section of depth [d] is
    added as its last child and goes on reading. *)
Theorem header_line_outcome (this : Parser) (xi_section : ptr) (cur : Section) (d : nat) (n : string) :
  wf_store (sections this) →
  sections this !! xi_section = Some cur →
  mConfigLine this = header_line d n →
  0 < d → n ≠ EmptyString → at_ n 0 ≠ "[" → no_nl n →
  (Z.of_nat (size (mConfigLine this)) < 2 ^ 31)%Z →
  (mDepth cur + 1 < d →
   ParseSection_iteration this xi_section =
     Throw (runtime_error "Section with wrong depth." (mLineNumber this))) ∧
  (d ≤ mDepth cur + 1 →
   ∃ P ps,
     ancestor (sections this) (mDepth cur + 1 - d) xi_section = Ok P ∧
     sections this !! P = Some ps ∧ mDepth ps + 1 = d ∧
     ParseSection_iteration this xi_section =
       match mSections ps !! n with
       | Some _ =>
           Throw (runtime_error "Duplicate section name on the same level." (mLineNumber this))
       | None =>
           Ok (mkParser (<[P := add_child n (length (sections this)) ps]> (sections this)
                           ++ [new_child P d])
                        (header_line d n) (mLineNumber this),
               length (sections this))
       end).
Proof.
  intros Hwf Hcur Hline Hd Hn Hn0 Hnl Hb.
  rewrite (ParseSection_iteration_header this xi_section d n); [|done|done|lia].
  pose proof (ParseSection_open_cases this xi_section cur n d Hwf Hcur Hd) as Hcases.
  case_decide as Hdeep.
  - split; [|lia]. intros _. by rewrite Hcases.
  - split; [lia|]. intros _.
    destruct Hcases as (P & ps & HP & Hps & Hdp & ->).
    exists P, ps. split_and!; [done..|].
    destruct (mSections ps !! n); [done|]. by rewrite bind_Ok_l, Hline.
Qed.

Lemma header_line_outcome_witness :
  ParseSection_iteration (mkParser [Section_default] "[[e]]" 1) root =
    Throw (runtime_error "Section with wrong depth." 1) ∧
  ∃ this', ParseSection_iteration (mkParser [Section_default] "[e]" 1) root = Ok (this', 1) ∧
           sections this' = [add_child "e" 1 Section_default; new_child root 1].
Proof.
  split.
  - apply (header_line_outcome (mkParser [Section_default] "[[e]]" 1) root Section_default 2 "e");
      [apply wf_store_init|reflexivity|reflexivity|lia|done|done|reflexivity|by vm_compute|].
    simpl. lia.
  - destruct (header_line_outcome (mkParser [Section_default] "[e]" 1) root Section_default 1 "e")
      as [_ H]; [apply wf_store_init|reflexivity|reflexivity|lia|done|done|reflexivity|by vm_compute|].
    destruct H as (P & ps & HP & Hps & _ & Hit); [simpl; lia|].
    injection HP as <-. injection Hps as <-.
    eexists. split; [exact Hit|reflexivity].
Defined.

(** Characters that [TrimString] removes, at either end of a string. *)

Lemma TrimString_ep_blank b : blank b = true → TrimString_ep b = (-1)%Z.
Proof.
  unfold blank. induction b as [|c b IH]; [done|].
  cbn [all_chars TrimString_ep]. intros [Hc Hb]%andb_true_iff.
  rewrite (IH Hb). unfold trimmable in Hc. by rewrite Hc.
Qed.

Lemma TrimString_ep_app_blank s b :
  blank b = true → TrimString_ep (s +:+ b) = TrimString_ep s.
Proof.
  intros Hb. induction s as [|c s IH]; [by apply TrimString_ep_blank|].
  rewrite append_cons. cbn [TrimString_ep]. by rewrite IH.
Qed.

Lemma TrimString_sp_app s b :
  (0 ≤ TrimString_ep s)%Z → TrimString_sp (s +:+ b) = TrimString_sp s.
Proof.
  induction s as [|c s IH]; [simpl; lia|].
  rewrite append_cons. cbn [TrimString_sp TrimString_ep].
  destruct (strchr toTrim c); [|done].
  destruct (0 <=? TrimString_ep s)%Z eqn:Hle; [|lia].
  intros _. f_equal. apply IH. by apply Z.leb_le.
Qed.

Lemma drop_str_app_le n a b : n ≤ size a → drop_str n (a +:+ b) = drop_str n a +:+ b.
Proof.
  unfold size. revert n. induction a as [|c a IH]; intros [|n]; simpl; try done; try lia.
  intros Hn. apply IH. lia.
Qed.

Lemma take_str_app_le n a b : n ≤ size a → take_str n (a +:+ b) = take_str n a.
Proof.
  unfold size. revert n. induction a as [|c a IH]; intros [|n] Hn; simpl in *.
  - by destruct b.
  - lia.
  - done.
  - f_equal. apply IH. lia.
Qed.

Lemma size_drop_str_eq n s : n ≤ size s → size (drop_str n s) = size s - n.
Proof.
  unfold size. revert n. induction s as [|c s IH]; intros [|n]; simpl; try done.
  intros Hn. apply IH. lia.
Qed.

Lemma blank_TrimString_ep s : (TrimString_ep s < 0)%Z → blank s = true.
Proof.
  intros Hs. pose proof (blank_take_sp s) as H.
  by rewrite (TrimString_ep_neg s Hs), take_str_all in H.
Qed.

Lemma blank_TrimString s : blank s = true → TrimString s = Ok EmptyString.
Proof.
  intros Hs.
  assert (TrimString_sp s = size s ∧ TrimString_ep s = (-1)%Z) as [Hsp Hep].
  { unfold blank, size in *. induction s as [|c s IH]; [done|].
    cbn [all_chars] in Hs. apply andb_true_iff in Hs as [Hc Hs].
    destruct (IH Hs) as [IH1 IH2]. cbn [TrimString_sp TrimString_ep String.length].
    unfold trimmable in Hc. rewrite Hc, IH1, IH2. done. }
  unfold TrimString, substr. rewrite Hsp, Hep. rewrite decide_False by lia.
  pose proof (drop_str_app s EmptyString) as Hd. rewrite append_nil_r in Hd. rewrite Hd.
  f_equal. by destruct (Z.to_nat _).
Qed.

(** Characters of [toTrim] added at the end of a string do not change what
    [TrimString] returns. *)
Lemma TrimString_app_blank s b :
  blank b = true → (Z.of_nat (size s) < 2 ^ 63)%Z →
  TrimString (s +:+ b) = TrimString s.
Proof.
  intros Hb Hsz.
  destruct (decide (TrimString_ep s < 0)%Z) as [Hneg|Hpos].
  { rewrite !blank_TrimString; [done|by apply blank_TrimString_ep|].
    unfold blank. rewrite all_chars_app. apply andb_true_iff. split; [|done].
    by apply blank_TrimString_ep. }
  assert (0 ≤ TrimString_ep s)%Z as Hep0 by lia.
  pose proof (TrimString_ep_range s) as Hep.
  pose proof (TrimString_sp_le_ep s Hep0) as Hle.
  unfold TrimString. rewrite TrimString_ep_app_blank, TrimString_sp_app by done.
  unfold substr. rewrite size_app, !decide_False by lia. cbv zeta.
  rewrite size_t_small by lia.
  rewrite !Z.min_l by lia.
  rewrite drop_str_app_le by lia.
  rewrite take_str_app_le; [done|].
  rewrite size_drop_str_eq by lia. lia.
Qed.

(** Every string is a string that ends with a kept character (or is empty)
    followed by characters of [toTrim]. *)
Lemma keeps_last_blank_split s :
  ∃ t b, s = t +:+ b ∧ keeps_last t ∧ blank b = true.
Proof.
  exists (take_str (Z.to_nat (TrimString_ep s + 1)) s), (drop_str (Z.to_nat (TrimString_ep s + 1)) s).
  split_and!; [by rewrite take_drop_str| |apply blank_drop_ep].
  pose proof (TrimString_ep_range s).
  destruct (decide (0 ≤ TrimString_ep s)%Z) as [Hpos|Hneg].
  - replace (Z.to_nat (TrimString_ep s + 1)) with (S (Z.to_nat (TrimString_ep s))) by lia.
    by apply keeps_last_take_ep.
  - replace (Z.to_nat (TrimString_ep s + 1)) with 0 by lia. by destruct s.
Qed.

(** Characters of [toTrim] added in front of a string do not change what
    [TrimString] returns either. *)
Lemma TrimString_sp_blank_app a s :
  blank a = true → TrimString_sp (a +:+ s) = size a + TrimString_sp s.
Proof.
  unfold blank. induction a as [|c a IH]; [done|].
  rewrite append_cons, size_cons. cbn [all_chars TrimString_sp].
  intros [Hc Ha]%andb_true_iff. unfold trimmable in Hc. rewrite Hc, (IH Ha). lia.
Qed.

Lemma TrimString_ep_blank_app a s :
  (0 ≤ TrimString_ep s)%Z →
  TrimString_ep (a +:+ s) = (Z.of_nat (size a) + TrimString_ep s)%Z.
Proof.
  intros Hs. induction a as [|c a IH].
  { rewrite append_nil_l. change (size EmptyString) with 0. lia. }
  rewrite append_cons, size_cons. cbn [TrimString_ep]. rewrite IH.
  destruct (0 <=? _)%Z eqn:Hle; [lia|]. apply Z.leb_gt in Hle. lia.
Qed.

Lemma drop_str_size_add a n s : drop_str (size a + n) (a +:+ s) = drop_str n s.
Proof. induction a as [|c a IH]; [done|]. by rewrite append_cons, size_cons. Qed.

Lemma TrimString_blank_app a s :
  blank a = true → (Z.of_nat (size (a +:+ s)) < 2 ^ 63)%Z →
  TrimString (a +:+ s) = TrimString s.
Proof.
  intros Ha Hsz. rewrite size_app in Hsz.
  destruct (decide (TrimString_ep s < 0)%Z) as [Hneg|Hpos].
  { rewrite !blank_TrimString; [done|by apply blank_TrimString_ep|].
    unfold blank. rewrite all_chars_app. apply andb_true_iff. split; [done|].
    by apply blank_TrimString_ep. }
  assert (0 ≤ TrimString_ep s)%Z as Hep0 by lia.
  pose proof (TrimString_ep_range s) as Hep.
  pose proof (TrimString_sp_le_ep s Hep0) as Hle.
  unfold TrimString. rewrite TrimString_ep_blank_app, TrimString_sp_blank_app by done.
  unfold substr. rewrite size_app, !decide_False by lia. cbv zeta.
  rewrite drop_str_size_add.
  replace (Z.of_nat (size a) + TrimString_ep s - Z.of_nat (size a + TrimString_sp s) + 1)%Z
    with (TrimString_ep s - Z.of_nat (TrimString_sp s) + 1)%Z by lia.
  replace (Z.of_nat (size a + size s) - Z.of_nat (size a + TrimString_sp s))%Z
    with (Z.of_nat (size s) - Z.of_nat (TrimString_sp s))%Z by lia.
  done.
Qed.

Lemma blank_find_eq p : blank p = true → find "=" p = None.
Proof.
  unfold blank. induction p as [|c p IH]; [done|].
  cbn [all_chars find]. intros [Hc Hp]%andb_true_iff.
  rewrite decide_False, (IH Hp); [done|]. by intros ->.
Qed.

(** The key/value branch on a trimmed line [u=t]: the key is [u] trimmed,
    the value [t] trimmed and cut at its comment. *)
Lemma ParseSection_pair_split this xi cur u k t r v :
  sections this !! xi = Some cur →
  mConfigLine this = u +:+ String "=" t →
  find "=" u = None →
  (Z.of_nat (size (mConfigLine this)) < 2 ^ 31)%Z →
  TrimString u = Ok k → TrimString t = Ok r → ParseValue r = Ok v →
  ParseSection_pair this xi =
    match mValues cur !! k with
    | Some _ => Throw (runtime_error "duplicated key found" (mLineNumber this))
    | None => Ok (<[xi := add_pair k v cur]> (sections this))
    end.
Proof.
  intros Hcur Hline Hu Hb Hk Hr Hv.
  unfold ParseSection_pair. rewrite Hline in Hb |- *.
  rewrite size_app, size_cons in Hb.
  rewrite find_app_cons by done.
  replace (size u + 1) with (size (u +:+ String "=" EmptyString))
    by (rewrite size_app, size_cons; change (size EmptyString) with 0; lia).
  replace (u +:+ String "=" t) with ((u +:+ String "=" EmptyString) +:+ t) at 1 2
    by (by rewrite append_assoc).
  replace (Z.of_nat (size ((u +:+ String "=" EmptyString) +:+ t)) - Z.of_nat (size u) - 1)%Z
    with (Z.of_nat (size t))
    by (rewrite !size_app, size_cons; change (size EmptyString) with 0; lia).
  rewrite substr_app_r, bind_Ok_l by lia.
  rewrite Hr, bind_Ok_l, Hv, bind_Ok_l.
  rewrite substr_app_l, bind_Ok_l.
  rewrite Hk, bind_Ok_l.
  unfold ParseSection_insert, Error.
  rewrite (deref_Some _ _ _ Hcur), bind_Ok_l.
  destruct (mValues cur !! k); [done|].
  by rewrite (update_lookup _ _ _ _ Hcur).
Qed.

(** X15: a line [a k p = rest] that does not begin with ['#'] or [';'],
    where [a] and [p] are made of characters that [TrimString] removes and
    the key [k] has no ['='], needs no trimming and does not begin with
    ['[']: whatever [rest] is, the pair is read with the key [k] and the
    value [ParseValue (TrimString rest)]; when the reading section has the
    key already the parse stops with "duplicated key found" and nothing is
    overwritten, otherwise the pair is added at the end of the section, and
    the current line is left trimmed. *)
Theorem pair_line_outcome (this : Parser) (xi_section : ptr) (cur : Section)
    (a k p rest line r v : string) :
  sections this !! xi_section = Some cur →
  mConfigLine this = a +:+ k +:+ p +:+ String "=" rest →
  blank a = true → blank p = true →
  find "=" k = None → keeps_first k → keeps_last k → at_ k 0 ≠ "[" →
  at_ (mConfigLine this) 0 ≠ "#" → at_ (mConfigLine this) 0 ≠ ";" →
  (Z.of_nat (size (mConfigLine this)) < 2 ^ 31)%Z →
  TrimString (mConfigLine this) = Ok line →
  TrimString rest = Ok r → ParseValue r = Ok v →
  ParseSection_iteration this xi_section =
    match mValues cur !! k with
    | Some _ => Throw (runtime_error "duplicated key found" (mLineNumber this))
    | None =>
        Ok (mkParser (<[xi_section := add_pair k v cur]> (sections this))
                     line (mLineNumber this), xi_section)
    end.
Proof.
  intros Hcur Hline Ha Hp Hk1 Hk2 Hk3 Hk4 Hc1 Hc2 Hb Hl Hr Hv.
  destruct this as [h line0 ln]. cbn [mConfigLine sections mLineNumber] in *.
  destruct (keeps_last_blank_split rest) as (t & b & -> & Ht & Hbl).
  assert (size line0 = size a + (size k + (size p + S (size t + size b)))) as Hsz
    by (by rewrite Hline, !size_app, size_cons, size_app).
  rewrite TrimString_app_blank in Hr by (done || lia).
  assert (∃ u, find "=" u = None ∧ TrimString u = Ok k ∧ at_ (u +:+ String "=" t) 0 ≠ "[" ∧
               keeps_first u ∧ size u ≤ size k + size p ∧
               ∃ a', blank a' = true ∧ line0 = a' +:+ (u +:+ String "=" t) +:+ b)
    as (u & Hu1 & Hu2 & Hu3 & Hu4 & Hu5 & a' & Ha' & Hline').
  { destruct (decide (k = EmptyString)) as [->|Hne].
    - exists EmptyString. split_and!; [done..|simpl; lia|].
      exists (a +:+ p). split; [unfold blank; rewrite all_chars_app; by apply andb_true_iff|].
      by rewrite Hline, !append_nil_l, !append_assoc.
    - exists (k +:+ p). split_and!.
      + apply find_app_None'; [done|by apply blank_find_eq].
      + rewrite TrimString_app_blank by (done || lia). apply TrimString_id; [done..|lia].
      + by destruct k.
      + by destruct k.
      + rewrite size_app. lia.
      + exists a. split; [done|]. by rewrite Hline, !append_assoc. }
  assert (TrimString line0 = Ok (u +:+ String "=" t)) as Hl'.
  { assert (size line0 = size a' + (size u + S (size t) + size b)) as Hsz'
      by (by rewrite Hline', !size_app, size_cons).
    rewrite Hline', TrimString_blank_app, TrimString_app_blank, TrimString_id;
      [done|by apply keeps_first_pair_line|by apply keeps_last_pair_line|..|done|].
    - rewrite size_app, size_cons. lia.
    - done.
    - rewrite size_app, size_cons. lia.
    - rewrite <-Hline'. lia. }
  rewrite Hl' in Hl. injection Hl as <-.
  unfold ParseSection_iteration. cbn [mConfigLine sections mLineNumber].
  rewrite decide_False by (by intros [Hc|Hc]).
  rewrite Hl', bind_Ok_l.
  rewrite decide_False by (by destruct u).
  rewrite decide_False by done.
  rewrite (ParseSection_pair_split _ xi_section cur u k t r v); try done.
  - cbn [sections mLineNumber]. by destruct (mValues cur !! k).
  - cbn [mConfigLine]. rewrite size_app, size_cons. lia.
Qed.

Lemma pair_line_outcome_witness :
  ParseSection_iteration (mkParser [add_pair "k" "1" Section_default] "k=2" 2) root =
    Throw (runtime_error "duplicated key found" 2) ∧
  ParseSection_iteration (mkParser [Section_default] "  k = a = b ;c  " 1) root =
    Ok (mkParser [add_pair "k" "a = b " Section_default] "k = a = b ;c" 1, root) ∧
  ParseSection_iteration (mkParser [Section_default] ("k=v " +:+ String "013" EmptyString) 1) root =
    Ok (mkParser [add_pair "k" "v" Section_default] "k=v" 1, root).
Proof.
  split_and!.
  - apply (pair_line_outcome (mkParser [add_pair "k" "1" Section_default] "k=2" 2) root
             (add_pair "k" "1" Section_default) "" "k" "" "2" "k=2" "2" "2");
      try reflexivity; done.
  - apply (pair_line_outcome (mkParser [Section_default] "  k = a = b ;c  " 1) root
             Section_default "  " "k" " " " a = b ;c  " "k = a = b ;c" "a = b ;c" "a = b ");
      try reflexivity; done.
  - apply (pair_line_outcome (mkParser [Section_default] ("k=v " +:+ String "013" EmptyString) 1) root
             Section_default "" "k" "" ("v " +:+ String "013" EmptyString) "k=v" "v" "v");
      try reflexivity; done.
Defined.

(** ** Lines that leave the tree alone *)

Lemma getlines_text ls : Forall no_nl ls → getlines (text ls) = ls.
Proof.
  induction 1 as [|l ls Hl _ IH]; [done|].
  change (text (l :: ls)) with (l +:+ endl +:+ text ls).
  unfold endl. rewrite append_cons, append_nil_l.
  by rewrite getlines_line, IH.
Qed.

Lemma ParseSection_iteration_same_tree this this' xi :
  sections this = sections this' → mConfigLine this = mConfigLine this' →
  same_tree (ParseSection_iteration this xi) (ParseSection_iteration this' xi).
Proof.
  destruct this as [h line ln], this' as [h' line' ln']. simpl. intros <- <-.
  unfold ParseSection_iteration. cbn [mConfigLine sections mLineNumber].
  case_decide; [done|].
  destruct (TrimString line) as [t|]; [|done]. rewrite !bind_Ok_l.
  case_decide; [done|].
  case_decide.
  - unfold ParseSection_header. cbn [mConfigLine].
    destruct (ParseLine_total (mkParser h t ln)) as [name Hname].
    pose proof Hname as Hname'. unfold ParseLine in Hname, Hname' |- *.
    cbn [mConfigLine] in *. rewrite Hname. rewrite !bind_Ok_l.
    unfold ParseSection_open, Error. cbn [sections mLineNumber].
    destruct (deref h xi) as [cur|]; [|done]. rewrite !bind_Ok_l.
    case_decide; [done|].
    destruct (if decide (mDepth cur = _) then _ else _) as [P|]; [|done]. rewrite !bind_Ok_l.
    destruct (Section_call h P name) as [[h1 lp]|]; [|done]. rewrite !bind_Ok_l.
    destruct (deref h1 lp) as [child|]; [|done]. rewrite !bind_Ok_l.
    case_decide; done.
  - unfold ParseSection_pair, Error. cbn [mConfigLine sections mLineNumber].
    destruct (find "=" t) as [n|]; [|done].
    destruct (substr t (n + 1) _) as [rhs0|]; [|done]. rewrite !bind_Ok_l.
    destruct (TrimString rhs0) as [rhs|]; [|done]. rewrite !bind_Ok_l.
    destruct (ParseValue rhs) as [v|]; [|done]. rewrite !bind_Ok_l.
    destruct (substr t 0 _) as [lhs|]; [|done]. rewrite !bind_Ok_l.
    destruct (TrimString lhs) as [key|]; [|done]. rewrite !bind_Ok_l.
    unfold ParseSection_insert, Error. cbn [sections mLineNumber].
    destruct (deref h xi) as [cur|]; [|done]. rewrite !bind_Ok_l.
    destruct (mValues cur !! key); done.
Qed.

Lemma ParseSection_run_same_tree lines this this' xi :
  sections this = sections this' →
  same_tree (ParseSection_run lines this xi) (ParseSection_run lines this' xi).
Proof.
  revert this this' xi. induction lines as [|line lines IH]; intros this this' xi Hs; [done|].
  cbn [ParseSection_run].
  pose proof (ParseSection_iteration_same_tree
                (mkParser (sections this) line (S (mLineNumber this)))
                (mkParser (sections this') line (S (mLineNumber this'))) xi Hs eq_refl) as Hit.
  destruct (ParseSection_iteration _ _) as [[t n]|], (ParseSection_iteration _ _) as [[t' n']|];
    try done.
  destruct Hit as [Ht <-]. rewrite !bind_Ok_l. by apply IH.
Qed.

Lemma ParseSection_run_app l1 l2 this xi :
  ParseSection_run (l1 ++ l2) this xi =
    ParseSection_run l1 this xi ≫= λ r, ParseSection_run l2 r.1 r.2.
Proof.
  revert this xi. induction l1 as [|l l1 IH]; intros this xi; [done|].
  cbn [app ParseSection_run].
  destruct (ParseSection_iteration _ _) as [[t n]|]; [|done].
  rewrite !bind_Ok_l. apply IH.
Qed.

Lemma ParseSection_iteration_skipped this xi :
  at_ (mConfigLine this) 0 = "#" ∨ at_ (mConfigLine this) 0 = ";" ∨ blank (mConfigLine this) = true →
  ∃ this', ParseSection_iteration this xi = Ok (this', xi) ∧ sections this' = sections this.
Proof.
  intros Hc. unfold ParseSection_iteration.
  case_decide as Hcomment; [by eexists|].
  destruct Hc as [?|[?|Hblank]]; [tauto..|].
  rewrite (blank_TrimString _ Hblank), bind_Ok_l. rewrite decide_True by done. by eexists.
Qed.

(** X16: a line that begins with ['#'] or [';'], or that holds nothing but
    characters [TrimString] removes, can be put anywhere in a text: the
    text is parsed successfully with it exactly when it is without it, and
    to the same tree. *)
Theorem skipped_line_changes_nothing (l1 l2 : list string) (c : string) (h : store) :
  Forall no_nl (l1 ++ c :: l2) →
  (Z.of_nat (size (text (l1 ++ c :: l2))) < 2 ^ 31)%Z →
  at_ c 0 = "#" ∨ at_ c 0 = ";" ∨ blank c = true →
  (∃ p, Parser_new (text (l1 ++ l2)) = Ok p ∧ sections p = h) ↔
  (∃ p, Parser_new (text (l1 ++ c :: l2)) = Ok p ∧ sections p = h).
Proof.
  intros Hnl _ Hc.
  assert (Forall no_nl (l1 ++ l2)) as Hnl'.
  { apply Forall_app in Hnl as [H1 [_ H2]%Forall_cons]. by apply Forall_app. }
  unfold Parser_new. rewrite !getlines_text by done.
  rewrite !ParseSection_run_ParseSection, !ParseSection_run_app.
  destruct (ParseSection_run l1 Parser_init root) as [[p1 xi1]|e1]; [|by split; intros (? & ? & _)].
  rewrite !bind_Ok_l. cbn [fst snd ParseSection_run].
  destruct (ParseSection_iteration_skipped (mkParser (sections p1) c (S (mLineNumber p1))) xi1 Hc)
    as (p1' & -> & Hs).
  rewrite bind_Ok_l.
  pose proof (ParseSection_run_same_tree l2 p1 p1' xi1 (eq_sym Hs)) as Hsame.
  destruct (ParseSection_run l2 p1 xi1) as [[p2 xi2]|], (ParseSection_run l2 p1' xi1) as [[p2' xi2']|];
    try done.
  - destruct Hsame as [Hsec _]. rewrite !bind_Ok_l. simpl.
    split; intros (p & [= <-] & <-); eexists; split; done.
  - by split; intros (? & ? & _).
Qed.

Lemma skipped_line_changes_nothing_witness :
  ∃ p p', Parser_new (text ["a=1"; "[e]"]%string) = Ok p ∧
          Parser_new (text ["a=1"; "; note"; "[e]"]%string) = Ok p' ∧
          sections p' = sections p.
Proof.
  destruct (skipped_line_changes_nothing ["a=1"%string] ["[e]"%string] "; note"
              [add_child "e" 1 (add_pair "a" "1" Section_default); new_child root 1])
    as [H _].
  - repeat constructor.
  - by vm_compute.
  - right. left. reflexivity.
  - destruct H as (p' & Hp' & Hs').
    + eexists. split; vm_compute; reflexivity.
    + eexists _, p'. split_and!; [vm_compute; reflexivity|exact Hp'|exact Hs'].
Defined.

(** ** The strings a parse stores *)

Lemma lexical_store_step_pair (h : store) xi cs k v :
  h !! xi = Some cs →
  (∀ i s, h !! i = Some s →
     (∀ k v, mValues s !! k = Some v → lexical_key k ∧ lexical_value v) ∧
     (∀ n q, mSections s !! n = Some q → lexical_name n)) →
  lexical (Pair k v) →
  ∀ i s, <[xi := add_pair k v cs]> h !! i = Some s →
     (∀ k v, mValues s !! k = Some v → lexical_key k ∧ lexical_value v) ∧
     (∀ n q, mSections s !! n = Some q → lexical_name n).
Proof.
  intros Hcs Hh Hkv i s Hs.
  destruct (decide (i = xi)) as [->|Hne].
  - rewrite list_lookup_insert_eq in Hs by (by eapply lookup_lt_Some). injection Hs as <-.
    destruct (Hh xi cs Hcs) as [Hvals Hnames]. split; [|done].
    intros k' v'. simpl. rewrite lookup_insert. case_decide as Hk.
    + intros [= <-]. by subst k'.
    + apply Hvals.
  - rewrite list_lookup_insert_ne in Hs by congruence. by apply (Hh i).
Qed.

Lemma lexical_store_step_header (h : store) P ps d n :
  h !! P = Some ps →
  (∀ i s, h !! i = Some s →
     (∀ k v, mValues s !! k = Some v → lexical_key k ∧ lexical_value v) ∧
     (∀ n q, mSections s !! n = Some q → lexical_name n)) →
  lexical (Header d n) →
  ∀ i s, (<[P := add_child n (length h) ps]> h ++ [new_child P d]) !! i = Some s →
     (∀ k v, mValues s !! k = Some v → lexical_key k ∧ lexical_value v) ∧
     (∀ n q, mSections s !! n = Some q → lexical_name n).
Proof.
  intros Hps Hh [_ Hn] i s Hs.
  apply lookup_app_Some in Hs as [Hs|[Hlen Hs]].
  - destruct (decide (i = P)) as [->|Hne].
    + rewrite list_lookup_insert_eq in Hs by (by eapply lookup_lt_Some). injection Hs as <-.
      destruct (Hh P ps Hps) as [Hvals Hnames]. split; [done|].
      intros n' q. simpl. rewrite lookup_insert. case_decide as Hk.
      * intros _. by subst n'.
      * apply Hnames.
    + rewrite list_lookup_insert_ne in Hs by congruence. by apply (Hh i).
  - apply list_lookup_singleton_Some in Hs as [_ <-]. by split.
Qed.

Lemma replay_lexical L h cur h' cur' :
  wf_store h → is_Some (h !! cur) →
  (∀ i s, h !! i = Some s →
     (∀ k v, mValues s !! k = Some v → lexical_key k ∧ lexical_value v) ∧
     (∀ n q, mSections s !! n = Some q → lexical_name n)) →
  Forall lexical L →
  replay L (h, cur) = Ok (h', cur') →
  ∀ i s, h' !! i = Some s →
     (∀ k v, mValues s !! k = Some v → lexical_key k ∧ lexical_value v) ∧
     (∀ n q, mSections s !! n = Some q → lexical_name n).
Proof.
  intros Hwf Hcur Hh HL. revert h cur Hwf Hcur Hh.
  induction HL as [|e L He HL IH]; intros h cur Hwf Hcur Hh; [by intros [= <- <-]|].
  cbn [replay]. intros Hrun. apply bind_Ok in Hrun as ([h1 cur1] & Hstep & Hrun).
  destruct Hcur as [cs Hcs].
  destruct e as [d n|k v]; simpl in Hstep.
  - pose proof He as [Hd _].
    apply ParseSection_open_Ok in Hstep
      as (P & ps & m & Hm & HP & <- & Hname & -> & ->); [|done|by eexists|done].
    simpl in *. eapply IH; [| | |done].
    3: { intros i' s' Hs'. by eapply (lexical_store_step_header h P ps (mDepth ps + 1) n). }
    + by apply wf_store_add_child.
    + rewrite lookup_app_r by (by rewrite length_insert).
      rewrite length_insert, Nat.sub_diag. by eexists.
  - apply bind_Ok in Hstep as (h2 & Hstep & [= <- <-]).
    eapply ParseSection_insert_Ok in Hstep as [Hk Heq]; [|done].
    simpl in *. subst h2. eapply IH; [| | |done].
    3: { intros i' s' Hs'. by eapply (lexical_store_step_pair h cur cs k v). }
    + by apply wf_store_add_pair.
    + rewrite list_lookup_insert_eq by (by eapply lookup_lt_Some). by eexists.
Qed.

(** X17: in the tree of a successful parse every key is free of ['='] and
    of line feeds, neither begins nor ends with a character [TrimString]
    removes and does not begin with ['[']; every value is free of ['#'] and
    of line feeds and does not begin with a trimmed character; every
    section name is free of line feeds and does not begin with ['[']. *)
Theorem parsed_strings (xi_file : string) (p : Parser) :
  (Z.of_nat (size xi_file) < 2 ^ 31)%Z →
  Parser_new xi_file = Ok p →
  ∀ i s, sections p !! i = Some s →
    (∀ k v, mValues s !! k = Some v → lexical_key k ∧ lexical_value v) ∧
    (∀ n q, mSections s !! n = Some q → lexical_name n).
Proof.
  intros Hb Hp. unfold Parser_new in Hp.
  rewrite ParseSection_run_ParseSection in Hp.
  apply bind_Ok in Hp as ([p0 cur] & Hrun & [= ->]).
  apply ParseSection_run_lexical in Hrun as (L & HL & Hlex).
  2: { eapply Forall_impl; [apply getlines_lines|]. simpl. intros l [??]. split; [done|lia]. }
  eapply (replay_lexical L (sections Parser_init) root);
    [apply wf_store_init|by eexists| |done|exact HL].
  intros [|[|i]] s [= <-]. done.
Qed.

Lemma parsed_strings_witness :
  ∃ p, Parser_new scenario = Ok p ∧
    ∀ i s, sections p !! i = Some s →
      (∀ k v, mValues s !! k = Some v → lexical_key k ∧ lexical_value v) ∧
      (∀ n q, mSections s !! n = Some q → lexical_name n).
Proof.
  eexists. split; [vm_compute; reflexivity|].
  apply (parsed_strings scenario); [by vm_compute|vm_compute; reflexivity].
Defined.

(** ** What export prints *)

Lemma ParseSection_iteration_entry this xi this' xi' :
  ParseSection_iteration this xi = Ok (this', xi') →
  match line_entry (mConfigLine this) with
  | None => sections this' = sections this ∧ xi' = xi
  | Some e => replay_entry e (sections this, xi) = Ok (sections this', xi') ∧ positive_depth e
  end.
Proof.
  destruct this as [h line ln]. unfold ParseSection_iteration, line_entry.
  cbn [mConfigLine sections mLineNumber].
  case_decide as Hcomment; [by intros [= <- <-]|].
  destruct (TrimString line) as [t|]; [|done]. rewrite bind_Ok_l.
  case_decide as Hempty; [by intros [= <- <-]|].
  case_decide as Hopen.
  - intros Hit. apply bind_Ok in Hit as ([h1 lp] & Hh & [= <- <-]).
    unfold ParseSection_header in Hh.
    destruct (ParseLine_total (mkParser h t ln)) as [name Hname].
    rewrite Hname, bind_Ok_l in Hh.
    replace (ParseLine (mkParser [] t 0)) with (Ok (name, ParseLine_depth t) : outcome (string * nat)).
    cbn [mConfigLine] in Hh. split; [|by apply ParseLine_depth_pos].
    simpl. by eapply ParseSection_open_indep in Hh as ->.
  - intros Hit. apply bind_Ok in Hit as (h1 & Hh & [= <- <-]).
    unfold ParseSection_pair in Hh. cbn [mConfigLine] in Hh. revert Hh.
    destruct (find "=" t) as [n|]; [|done].
    destruct (substr t (n + 1) _) as [rhs0|]; [|done]. rewrite !bind_Ok_l.
    destruct (TrimString rhs0) as [rhs|]; [|done]. rewrite !bind_Ok_l.
    destruct (ParseValue rhs) as [v|]; [|done]. rewrite !bind_Ok_l.
    destruct (substr t 0 _) as [lhs|]; [|done]. rewrite !bind_Ok_l.
    destruct (TrimString lhs) as [key|]; [|done]. rewrite !bind_Ok_l.
    intros Hh. split; [|done]. simpl.
    by eapply ParseSection_insert_indep in Hh as ->.
Qed.

Lemma ParseSection_run_entries lines this xi this' xi' :
  ParseSection_run lines this xi = Ok (this', xi') →
  replay (omap line_entry lines) (sections this, xi) = Ok (sections this', xi') ∧
  Forall positive_depth (omap line_entry lines).
Proof.
  revert this xi. induction lines as [|line lines IH]; intros this xi.
  { by intros [= <- <-]. }
  cbn [ParseSection_run]. intros Hrun.
  apply bind_Ok in Hrun as ([this1 xi1] & Hit & Hrun).
  apply ParseSection_iteration_entry in Hit. cbn [mConfigLine sections] in Hit.
  destruct (IH _ _ Hrun) as [HL Hpos]. cbn [omap list_omap].
  destruct (line_entry line) as [e|].
  - destruct Hit as [Hstep He]. split; [|by apply Forall_cons].
    cbn [replay]. by rewrite Hstep, bind_Ok_l.
  - destruct Hit as [Hs ->]. by rewrite Hs in HL.
Qed.

(** X18: exporting a parsed tree never fails, with or without [NDEBUG], and
    prints the input in normal form: for each line that is neither a
    comment nor empty, in the order of the input, the line [key=value] of a
    pair, or an empty line and the bracketed name of a header (the bare
    brackets when the name is empty). *)
Theorem Export_prints_entries (NDEBUG : bool) (xi_file : string) (p : Parser) :
  (Z.of_nat (size xi_file) < 2 ^ 31)%Z →
  Parser_new xi_file = Ok p →
  Export NDEBUG p = Some (Ok (render (omap line_entry (getlines xi_file)))).
Proof.
  intros _ Hp. unfold Parser_new in Hp.
  rewrite ParseSection_run_ParseSection in Hp.
  apply bind_Ok in Hp as ([p0 cur] & Hrun & [= ->]).
  apply ParseSection_run_entries in Hrun as [HL Hpos]. simpl in HL.
  destruct (replay_spine NDEBUG _ (sections p) cur Hpos HL) as (_ & Hexp & _).
  by apply Hexp.
Qed.

Lemma Export_prints_entries_witness :
  ∃ p, Parser_new (text ["# c"; " a = 1 ; x"; ""; "[e]"]%string) = Ok p ∧
       Export false p = Some (Ok (render [Pair "a" "1 "; Header 1 "e"])) ∧
       render [Pair "a" "1 "; Header 1 "e"] = text ["a=1 "; ""; "[e]"]%string.
Proof.
  eexists. split; [vm_compute; reflexivity|]. split; [|reflexivity].
  apply (Export_prints_entries false (text ["# c"; " a = 1 ; x"; ""; "[e]"]%string));
    [by vm_compute|vm_compute; reflexivity].
Defined.

(** ** Export after a lookup *)

Lemma ExportSection_values_ext m m' its out :
  (∀ k, k ∈ its → m' !! k = m !! k) →
  ExportSection_values m' its out = ExportSection_values m its out.
Proof.
  revert out. induction its as [|k its IH]; intros out Hm; [done|].
  simpl. rewrite Hm by left. destruct (m !! k); [|done].
  apply IH. intros k' Hk'. apply Hm. by right.
Qed.

Lemma ExportSection_same_export NDEBUG h h' δ fuel out x name r :
  same_export h h' →
  ExportSection NDEBUG fuel h out x name = Some (Ok r) →
  ExportSection NDEBUG (δ + fuel) h' out x name = Some (Ok r).
Proof.
  intros Hsame. revert out x name r. induction fuel as [|fuel IH]; intros out x name r; [done|].
  rewrite Nat.add_succ_r, !ExportSection_S.
  destruct (deref h x) as [s|] eqn:Hs; [|done]. apply deref_Ok in Hs.
  destruct (Hsame x s Hs) as (s' & Hs' & Hd & Hov & Hos & Hv & Hn).
  rewrite (deref_Some _ _ _ Hs'), Hd, Hov, Hos.
  rewrite (ExportSection_values_ext (mValues s) (mValues s')) by done.
  destruct (ExportSection_values _ _ _) as [out'|]; [|done].
  apply ExportSection_sections_ext; [done|done|..].
  - intros nm q c _ Hq Hc. destruct (Hsame q c Hc) as (c' & Hc' & Hdc & _). eauto.
  - intros nm q o o' _ _. apply IH.
Qed.

(** X19: [operator[]] on a section of a parsed tree, whether the key is
    there or is inserted by the lookup, does not change what
    [ExportSection] prints: a key that only a lookup created is not
    exported. *)
Theorem Export_after_subscript (NDEBUG : bool) (xi_file : string) (p : Parser)
    (i : ptr) (s : Section) (xi_key : string) :
  Parser_new xi_file = Ok p →
  sections p !! i = Some s →
  Export NDEBUG (mkParser (<[i := (Section_subscript s xi_key).2]> (sections p))
                   (mConfigLine p) (mLineNumber p)) =
  Export NDEBUG p.
Proof.
  intros Hp Hs.
  destruct (Export_parsed NDEBUG xi_file p Hp) as [out Hout]. rewrite Hout.
  apply ParseSection_wf in Hp as [Hwf _]; [|apply wf_store_init|by eexists].
  unfold Export in *. cbn [sections]. rewrite length_insert.
  apply (ExportSection_same_export NDEBUG (sections p) _ 0); [|done].
  intros j sj Hj. destruct (decide (j = i)) as [->|Hne].
  - rewrite Hs in Hj. injection Hj as <-.
    rewrite list_lookup_insert_eq by (by eapply lookup_lt_Some).
    eexists. split; [done|]. unfold Section_subscript.
    destruct (mValues s !! xi_key) as [v|] eqn:Hkey; [by split_and!|].
    simpl. split_and!; try done.
    intros k Hk. apply lookup_insert_ne. intros <-.
    apply (ordered_values_dom s (wf_ordered _ Hwf i s Hs)) in Hk.
    apply elem_of_dom in Hk as [? Hk]. congruence.
  - rewrite list_lookup_insert_ne by congruence. exists sj. by split_and!.
Qed.

Lemma Export_after_subscript_witness :
  ∃ p r, Parser_new scenario = Ok p ∧ sections p !! root = Some r ∧
         mValues r !! "zz"%string = None ∧
         Export false (mkParser (<[root := (Section_subscript r "zz").2]> (sections p))
                         (mConfigLine p) (mLineNumber p)) = Export false p.
Proof.
  eexists _, _. split; [vm_compute; reflexivity|]. split; [vm_compute; reflexivity|].
  split; [vm_compute; reflexivity|].
  apply (Export_after_subscript false scenario); vm_compute; reflexivity.
Defined.

(** X20: [operator()] on a section of a parsed tree, whether it finds the
    name or creates an empty section for it, does not change what
    [ExportSection] prints. *)
Theorem Export_after_call (NDEBUG : bool) (xi_file : string) (p : Parser)
    (i : ptr) (xi_section : string) (h' : store) (q : ptr) :
  Parser_new xi_file = Ok p →
  Section_call (sections p) i xi_section = Ok (h', q) →
  Export NDEBUG (mkParser h' (mConfigLine p) (mLineNumber p)) = Export NDEBUG p.
Proof.
  intros Hp Hcall.
  destruct (Export_parsed NDEBUG xi_file p Hp) as [out Hout]. rewrite Hout.
  apply ParseSection_wf in Hp as [Hwf _]; [|apply wf_store_init|by eexists].
  unfold Section_call in Hcall. apply bind_Ok in Hcall as (s & Hs & Hcall).
  apply deref_Ok in Hs.
  destruct (mSections s !! xi_section) as [q'|] eqn:Hname.
  { injection Hcall as <- <-. done. }
  injection Hcall as <- <-.
  unfold Export in *. cbn [sections]. rewrite length_app, length_insert. simpl.
  rewrite Nat.add_comm.
  apply (ExportSection_same_export NDEBUG (sections p) _ 1); [|done].
  intros j sj Hj.
  pose proof (lookup_lt_Some _ _ _ Hj) as Hlt.
  rewrite lookup_app_l by (by rewrite length_insert).
  destruct (decide (j = i)) as [->|Hne].
  - rewrite Hs in Hj. injection Hj as <-.
    rewrite list_lookup_insert_eq by done.
    eexists. split; [done|]. simpl. split_and!; try done.
    intros n Hn. apply lookup_insert_ne. intros <-.
    apply (ordered_sections_dom s (wf_ordered _ Hwf i s Hs)) in Hn.
    apply elem_of_dom in Hn as [? Hn]. congruence.
  - rewrite list_lookup_insert_ne by congruence. exists sj. by split_and!.
Qed.

Lemma Export_after_call_witness :
  ∃ p h' q, Parser_new scenario = Ok p ∧
            Section_call (sections p) root "zz" = Ok (h', q) ∧
            length h' = S (length (sections p)) ∧
            Export false (mkParser h' (mConfigLine p) (mLineNumber p)) = Export false p.
Proof.
  eexists _, _, _. split; [vm_compute; reflexivity|]. split; [vm_compute; reflexivity|].
  split; [vm_compute; reflexivity|].
  apply (Export_after_call false scenario _ root "zz" _ 3); vm_compute; reflexivity.
Defined.

(** ** Reaching a section by its names *)

Lemma Section_calls_app h p l1 l2 :
  Section_calls h p (l1 ++ l2) = Section_calls h p l1 ≫= λ r, Section_calls r.1 r.2 l2.
Proof.
  revert h p. induction l1 as [|n l1 IH]; intros h p; [done|].
  cbn [app Section_calls]. destruct (Section_call h p n) as [[h' q]|]; [|done].
  rewrite !bind_Ok_l. apply IH.
Qed.

Lemma wf_store_reachable h :
  wf_store h →
  ∀ d i s, h !! i = Some s → mDepth s = d →
    ∃ names, length names = d ∧ Section_calls h root names = Ok (h, i).
Proof.
  intros Hwf. induction d as [|d IH]; intros i s Hs Hd.
  - exists []. split; [done|].
    destruct (mParent s) as [P|] eqn:HP.
    + destruct (wf_parent_depth h i s P Hwf Hs HP) as (ps & _ & Hdp). lia.
    + by destruct (wf_orphan h Hwf i s Hs HP) as [-> _].
  - destruct (wf_depth_parent h i s Hwf Hs) as (P & ps & HP & Hps & Hdp); [lia|].
    destruct (wf_parent h Hwf i s P Hs HP) as (ps' & name & Hps' & Hname).
    rewrite Hps in Hps'. injection Hps' as <-.
    destruct (IH P ps Hps) as (names & Hlen & Hwalk); [lia|].
    exists (names ++ [name]). split; [rewrite length_app; simpl; lia|].
    rewrite Section_calls_app, Hwalk, bind_Ok_l. cbn [fst snd Section_calls].
    unfold Section_call. rewrite (deref_Some _ _ _ Hps), bind_Ok_l. by rewrite Hname.
Qed.

(** X21: every section of a parsed tree is reached from the root by
    [operator()], along as many names as its depth, and these lookups
    leave the tree unchanged. *)
Theorem parsed_sections_reachable (xi_file : string) (p : Parser) (i : ptr) (s : Section) :
  Parser_new xi_file = Ok p →
  sections p !! i = Some s →
  ∃ names, length names = mDepth s ∧
           Section_calls (sections p) (Get p) names = Ok (sections p, i).
Proof.
  intros Hp Hs.
  apply ParseSection_wf in Hp as [Hwf _]; [|apply wf_store_init|by eexists].
  by apply (wf_store_reachable _ Hwf (mDepth s) i s).
Qed.

Lemma parsed_sections_reachable_witness :
  ∃ p s, Parser_new scenario = Ok p ∧ sections p !! 2 = Some s ∧
         ∃ names, length names = mDepth s ∧
                  Section_calls (sections p) (Get p) names = Ok (sections p, 2).
Proof.
  eexists _, _. split; [vm_compute; reflexivity|]. split; [vm_compute; reflexivity|].
  apply (parsed_sections_reachable scenario _ 2); vm_compute; reflexivity.
Defined.

(** ** Clear *)

(** X22: [Clear] after a successful parse through the stream constructor.
    The root, the current line and the line number are as they were before
    the parse: an empty root of depth 0 without parent, an empty line, the
    number 0.  The stream members are not: [close] on [mConfigFile], in
    which no file was open, sets its [failbit], and [mConfigFileRef] points
    to [mConfigFile], no longer to the stream of the constructor. *)
Theorem Clear_parsed (xi_file : string) (p : Parser) :
  Parser_new xi_file = Ok p →
  Clear p Parser_streams_new =
    Ok (Parser_init, mkStreams (mkIfstream false true) addr_mConfigFile) ∧
  mkStreams (mkIfstream false true) addr_mConfigFile ≠ Parser_streams_new.
Proof.
  intros Hp. split; [|done].
  apply ParseSection_wf in Hp as [Hwf _]; [|apply wf_store_init|by eexists].
  destruct (wf_root _ Hwf) as (r & Hr & Hrp).
  destruct (wf_orphan _ Hwf _ _ Hr Hrp) as [_ Hd].
  unfold Clear. rewrite (deref_Some _ _ _ Hr), bind_Ok_l.
  unfold Parser_init, Section_default. do 4 f_equal.
  unfold set_mOrderedSections, set_mSections, set_mOrderedValues, set_mValues. simpl.
  by rewrite Hrp, Hd.
Qed.

Lemma Clear_parsed_witness :
  ∃ p, Parser_new scenario = Ok p ∧
       Clear p Parser_streams_new =
         Ok (Parser_init, mkStreams (mkIfstream false true) addr_mConfigFile) ∧
       mkStreams (mkIfstream false true) addr_mConfigFile ≠ Parser_streams_new.
Proof.
  eexists. split; [vm_compute; reflexivity|].
  apply (Clear_parsed scenario). vm_compute. reflexivity.
Defined.

(** ** The test program *)

(** X23: [main] of [test.cpp], whatever [std::stof] makes of ["3.0"]: the
    parse succeeds, the export sent to [std::cout] is the input without its
    comments, with the blank before an inline comment kept at the end of
    the value; [a] is 1, [db] is [3; 4; 5], [aa] is [true], [ab] is
    ["foo-bar "] with its trailing blank; [config] ends up cleared, its
    [mConfigFile] with the [failbit] set and [mConfigFileRef] pointing to
    it, and [main] returns 1. *)
Theorem main_run (float : Type) (stof : string → outcome float) (x : float) (NDEBUG : bool) :
  stof "3.0"%string = Ok x →
  main float stof NDEBUG =
    Some (Ok {|
      main_cout := text ["a-b*2=1 "; "b=1"; ""; "[e]"; "ea=1 "; "eb=1"; ""; "[c]"; "ca=2";
                         "cb=2 "; ""; "[[d]]"; "da=3.0"; "db={3, 4, 5}  "; ""; "[A]";
                         "Aa=true"; "A-b=foo-bar "]%string;
      main_a := 1;
      main_da := x;
      main_db := [3; 4; 5]%Z;
      main_aa := true;
      main_ab := "foo-bar "%string;
      main_config := Parser_init;
      main_config_streams := mkStreams (mkIfstream false true) addr_mConfigFile;
      main_return := 1
    |}).
Proof.
  intros Hx. unfold main, GetAs_float.
  destruct NDEBUG; vm_compute; rewrite Hx; vm_compute; reflexivity.
Qed.

Lemma main_run_witness :
  ∃ r, main string (λ t, Ok t) false = Some (Ok r) ∧
       main_a r = 1%Z ∧ main_da r = "3.0"%string ∧ main_db r = [3; 4; 5]%Z ∧
       main_aa r = true ∧ main_ab r = "foo-bar "%string ∧ main_return r = 1%Z.
Proof.
  eexists. split; [apply (main_run string (λ t, Ok t) "3.0"%string false); reflexivity|].
  by split_and!.
Defined.
